(** * Drone navigation simulator: planners, sensor and controller

    Shallow embedding of the navigation engine of [DroneSimulation]: the
    A* grid search with its path smoothing, the RRT planner, the artificial
    potential field, the simulated LiDAR, the obstacle generator, the click
    handler and the per-tick update of [animate] without its drawing.

    Numbers.  A JavaScript [number] is modelled as a rational [Q]: the four
    field operations and the comparisons are exact, [Math.ceil], [Math.floor]
    and [Math.round] are the exact integer roundings, and [Math.PI] and
    [Math.SQRT2] are the rationals denoted by their binary64 values.  The
    library functions that leave the rationals ([Math.hypot], [Math.sqrt],
    [Math.cos], [Math.sin], [Math.atan2]) are the methods of a class
    [MathLib], so that a property holds for every such library; the few
    facts a proof needs of them are the fields of [MathLaws].  [refMath] is
    one library, used to run the model on concrete scenes.  [Math.random]
    reads a stream [nat -> Q] through a cursor.  The one place where the
    source computes [0 / 0] (a segment of length zero in [hasLineOfSight])
    is written out with what NaN does there.

    Rounding.  The rational model leaves out the rounding of binary64.
    Where a property turns on it, the code is read a second time in the
    module [Binary64], over the primitive binary64 numbers: the octile
    heuristic with the accumulation of [g], and the update of the dynamic
    obstacles with its speed limit.  A bound that the rounding breaks is
    stated there with its tolerance. *)

From Stdlib Require Import QArith Qround Qabs Qminmax ZArith List Bool Lia Lra Psatz
  Permutation Sorted.
From Stdlib Require Floats.
Import ListNotations.
Open Scope Q_scope.

(** ** Numbers *)

Definition Qltb (a b : Q) : bool := negb (Qle_bool b a).
Definition Qleb (a b : Q) : bool := Qle_bool a b.

(** [a || b] on numbers: [b] when [a] is zero. *)
Definition orElse (a b : Q) : Q := if Qeq_bool a 0 then b else a.

Definition Math_ceil (q : Q) : Z := Qceiling q.
Definition Math_floor (q : Q) : Z := Qfloor q.
Definition Math_round (q : Q) : Z := Qfloor (q + (1 # 2)).
Definition Math_max (a b : Q) : Q := if Qltb a b then b else a.
Definition Math_min (a b : Q) : Q := if Qltb b a then b else a.
Definition Math_abs (a : Q) : Q := Qabs a.

(** The binary64 values of [Math.PI] and [Math.SQRT2]. *)
Definition Math_PI : Q := 884279719003555 # 281474976710656.
Definition Math_SQRT2 : Q := 6369051672525773 # 4503599627370496.

Class MathLib := {
  hypot : Q -> Q -> Q;
  sqrt : Q -> Q;
  cos : Q -> Q;
  sin : Q -> Q;
  atan2 : Q -> Q -> Q
}.

(** What the proofs use of the library: [hypot] is at least each of its
    arguments in absolute value, and [sqrt] is non-negative and not below
    the exact square root. *)
Class MathLaws (M : MathLib) : Prop := {
  hypot_ge_l : forall a b : Q, Qabs a <= hypot a b;
  hypot_ge_r : forall a b : Q, Qabs b <= hypot a b;
  sqrt_nonneg : forall a : Q, 0 <= sqrt a;
  sqrt_upper : forall a : Q, 0 <= a -> a <= sqrt a * sqrt a
}.

(** [Math.random()]: the stream of draws and the number of draws made. *)
Definition Random := nat -> Q.

(** ** Data model *)

Record Vec2 := mkVec2 { x : Q; y : Q }.

Inductive ObstacleType := static | dynamic.

Module Obstacle.
Record t := mk {
  x : Q;
  y : Q;
  width : Q;
  height : Q;
  type : ObstacleType;
  velocity : option Vec2
}.
End Obstacle.
Abbreviation Obstacle := Obstacle.t.

Inductive NavState := idle | planning | navigating | avoiding | landing.

Module Drone.
Record t := mk {
  x : Q;
  y : Q;
  vx : Q;
  vy : Q;
  heading : Q;
  targetHeading : Q;
  rotorSpeed : Q;
  rotorAngle : Q;
  altitude : Q;
  battery : Q;
  state : NavState
}.
End Drone.
Abbreviation Drone := Drone.t.

(** [algorithmMode]: "astar", "rrt" or "apf". *)
Inductive Algorithm := astarMode | rrtMode | apfMode.

Definition GRID_SIZE : Q := 15.
Definition LIDAR_RAYS : nat := 36.
Definition LIDAR_RANGE : Q := 120.
Definition SAFE_DISTANCE : Q := 40.
Definition DRONE_RADIUS : Q := 12.

Section Engine.
Context {M : MathLib}.

(** ** Line of sight *)

(** The test of one sample against one obstacle's bound, inflated by [margin]. *)
Definition insideInflated (margin px py : Q) (obs : Obstacle) : bool :=
  Qltb (Obstacle.x obs - margin) px &&
  Qltb px (Obstacle.x obs + Obstacle.width obs + margin) &&
  Qltb (Obstacle.y obs - margin) py &&
  Qltb py (Obstacle.y obs + Obstacle.height obs + margin).

Definition lerp (a b : Vec2) (i steps : Z) : Vec2 :=
  let t := inject_Z i / inject_Z steps in
  {| x := x a + (x b - x a) * t; y := y a + (y b - y a) * t |}.

(** The samples [i = 0 .. steps] of the segment. *)
Definition samples (a b : Vec2) (steps : Z) : list Vec2 :=
  map (fun i => lerp a b (Z.of_nat i) steps) (seq 0 (Z.to_nat steps + 1)).

Definition sampleFree (obstacles : list Obstacle) (p : Vec2) : bool :=
  negb (existsb (insideInflated DRONE_RADIUS (x p) (y p)) obstacles).

(** With [steps = 0] the source divides [0 / 0]: the sample is NaN, every
    comparison with it is false and the loop ends with [true]. *)
Definition hasLineOfSight (a b : Vec2) (obstacles : list Obstacle) : bool :=
  let steps := Math_ceil (hypot (x b - x a) (y b - y a) / 5) in
  if (steps <=? 0)%Z then true
  else forallb (sampleFree obstacles) (samples a b steps).

(** ** Path smoothing *)

Definition origin : Vec2 := {| x := 0; y := 0 |}.

(** The inner [for] loop: [i] runs from [path.length - 1] down to
    [current + 2]; [k] is the number of candidates left. *)
Fixpoint furthestVisible (path : list Vec2) (obstacles : list Obstacle)
    (current : nat) (k : nat) : nat :=
  match k with
  | O => current + 1
  | S k' =>
      let i := (current + 1 + k)%nat in
      if hasLineOfSight (nth current path origin) (nth i path origin) obstacles
      then i
      else furthestVisible path obstacles current k'
  end.

(** The [while] loop; [fuel] bounds its iterations. *)
Fixpoint smoothLoop (fuel : nat) (path : list Vec2) (obstacles : list Obstacle)
    (current : nat) (smoothed : list Vec2) : option (list Vec2) :=
  if (current <? length path - 1)%nat then
    match fuel with
    | O => None
    | S fuel' =>
        let furthest :=
          furthestVisible path obstacles current (length path - 1 - (current + 1)) in
        smoothLoop fuel' path obstacles furthest (smoothed ++ [nth furthest path origin])
    end
  else Some smoothed.

Definition smoothPathFuel (fuel : nat) (path : list Vec2) (obstacles : list Obstacle)
    : option (list Vec2) :=
  if (length path <=? 2)%nat then Some path
  else smoothLoop fuel path obstacles 0 [nth 0 path origin].

(** [current] grows by at least one per iteration, so [path.length]
    iterations are enough ([smoothPathFuel_total]). *)
Definition smoothPath (path : list Vec2) (obstacles : list Obstacle) : list Vec2 :=
  match smoothPathFuel (length path) path obstacles with
  | Some p => p
  | None => path
  end.

(** ** RRT *)

Record TreeNode := { point : Vec2; parent : Z }.
Record TreeEdge := { from : Vec2; to : Vec2 }.
Record RrtResult := {
  rrt_path : list Vec2;
  rrt_tree : list TreeEdge;
  rrt_nodesExplored : nat
}.

Definition maxIterations : nat := 1500.
Definition stepSize : Q := 25.
Definition goalBias : Q := 15 # 100.

(** The sample of one iteration and the cursor after its draws. *)
Definition drawSample (rnd : Random) (c : nat) (goal : Vec2)
    (canvasWidth canvasHeight : Q) : Vec2 * nat :=
  if Qltb (rnd c) goalBias then (goal, S c)
  else ({| x := rnd (S c) * canvasWidth; y := rnd (S (S c)) * canvasHeight |},
        S (S (S c))).

(** The [forEach] that finds the nearest node; [None] is [Infinity]. *)
Fixpoint nearestFrom (sample : Vec2) (nodes : list TreeNode) (idx : nat)
    (nearestIdx : nat) (nearestDist : option Q) : nat :=
  match nodes with
  | [] => nearestIdx
  | node :: rest =>
      let d := hypot (x (point node) - x sample) (y (point node) - y sample) in
      let closer := match nearestDist with
                    | None => true
                    | Some nd => Qltb d nd
                    end in
      if closer then nearestFrom sample rest (S idx) idx (Some d)
      else nearestFrom sample rest (S idx) nearestIdx nearestDist
  end.

Definition nearestIndex (sample : Vec2) (tree : list TreeNode) : nat :=
  nearestFrom sample tree 0 0 None.

Definition rootNode (start : Vec2) : TreeNode := {| point := start; parent := -1 |}.

Definition steer (nearest sample : Vec2) : Vec2 :=
  let angle := atan2 (y sample - y nearest) (x sample - x nearest) in
  {| x := x nearest + cos angle * stepSize;
     y := y nearest + sin angle * stepSize |}.

Definition outOfCanvas (p : Vec2) (canvasWidth canvasHeight : Q) : bool :=
  Qltb (x p) 0 || Qltb canvasWidth (x p) || Qltb (y p) 0 || Qltb canvasHeight (y p).

(** The [while] loop of the reconstruction: walks the parent links from
    [idx] and puts each ancestor in front of [path] ([unshift]).  The source
    starts it from [[goal, newPoint]], in that order. *)
Fixpoint walkParents (fuel : nat) (tree : list TreeNode) (idx : nat)
    (path : list Vec2) : option (list Vec2) :=
  let p := parent (nth idx tree (rootNode origin)) in
  if (p =? -1)%Z then Some path
  else match fuel with
       | O => None
       | S fuel' =>
           let idx' := Z.to_nat p in
           walkParents fuel' tree idx' (point (nth idx' tree (rootNode origin)) :: path)
       end.

(** One iteration of the [for] loop: [inl] when the iteration ends with
    [continue] or falls through, [inr] when it returns. *)
Definition rrtStep (rnd : Random) (goal : Vec2) (obstacles : list Obstacle)
    (canvasWidth canvasHeight : Q) (c : nat) (tree : list TreeNode)
    (treeEdges : list TreeEdge)
    : (nat * list TreeNode * list TreeEdge) + (option RrtResult * nat) :=
  let '(sample, c') := drawSample rnd c goal canvasWidth canvasHeight in
  let nearestIdx := nearestIndex sample tree in
  let nearest := point (nth nearestIdx tree (rootNode origin)) in
  let newPoint := steer nearest sample in
  if negb (hasLineOfSight nearest newPoint obstacles) then inl (c', tree, treeEdges)
  else if outOfCanvas newPoint canvasWidth canvasHeight then inl (c', tree, treeEdges)
  else
    let tree' := tree ++ [{| point := newPoint; parent := Z.of_nat nearestIdx |}] in
    let treeEdges' := treeEdges ++ [{| from := nearest; to := newPoint |}] in
    if Qltb (hypot (x newPoint - x goal) (y newPoint - y goal)) stepSize then
      inr (option_map
             (fun path => {| rrt_path := path; rrt_tree := treeEdges';
                             rrt_nodesExplored := length tree' |})
             (walkParents (length tree') tree' (length tree' - 1) [goal; newPoint]),
           c')
    else inl (c', tree', treeEdges').

Fixpoint rrtLoop (n : nat) (rnd : Random) (goal : Vec2) (obstacles : list Obstacle)
    (canvasWidth canvasHeight : Q) (c : nat) (tree : list TreeNode)
    (treeEdges : list TreeEdge) : option RrtResult * nat :=
  match n with
  | O => (Some {| rrt_path := []; rrt_tree := treeEdges;
                  rrt_nodesExplored := length tree |}, c)
  | S n' =>
      match rrtStep rnd goal obstacles canvasWidth canvasHeight c tree treeEdges with
      | inl (c', tree', treeEdges') =>
          rrtLoop n' rnd goal obstacles canvasWidth canvasHeight c' tree' treeEdges'
      | inr r => r
      end
  end.

(** [None] stands for a reconstruction that does not end; [rrt_total]
    shows that it never occurs. *)
Definition rrt (rnd : Random) (c : nat) (start goal : Vec2) (obstacles : list Obstacle)
    (canvasWidth canvasHeight : Q) : option RrtResult * nat :=
  rrtLoop maxIterations rnd goal obstacles canvasWidth canvasHeight c
          [rootNode start] [].

(** ** Artificial potential field *)

Definition kAttr : Q := 1.
Definition kRep : Q := 500.
Definition influenceRadius : Q := 80.

Definition centerX (obs : Obstacle) : Q := Obstacle.x obs + Obstacle.width obs / 2.
Definition centerY (obs : Obstacle) : Q := Obstacle.y obs + Obstacle.height obs / 2.

(** The distance [d] of [apfNavigate] from the drone to the obstacle. *)
Definition surfaceDistance (drone : Vec2) (obs : Obstacle) : Q :=
  hypot (x drone - centerX obs) (y drone - centerY obs)
  - Math_max (Obstacle.width obs) (Obstacle.height obs) / 2 - DRONE_RADIUS.

Definition repMagnitude (d : Q) : Q :=
  kRep * (1 / d - 1 / influenceRadius) / (d * d).

(** The body of the [forEach]: the repulsion of one obstacle added to [repForce]. *)
Definition addRepulsion (drone : Vec2) (repForce : Vec2) (obs : Obstacle) : Vec2 :=
  let cx := centerX obs in
  let cy := centerY obs in
  let d := surfaceDistance drone obs in
  if Qltb d influenceRadius && Qltb 0 d then
    let magnitude := repMagnitude d in
    {| x := x repForce + magnitude * (x drone - cx) / hypot (x drone - cx) (y drone - cy);
       y := y repForce + magnitude * (y drone - cy) / hypot (x drone - cx) (y drone - cy) |}
  else repForce.

Definition attrForce (drone goal : Vec2) : Vec2 :=
  let dGoal := hypot (x goal - x drone) (y goal - y drone) in
  {| x := kAttr * (x goal - x drone) / Math_max dGoal 1;
     y := kAttr * (y goal - y drone) / Math_max dGoal 1 |}.

Definition repForce (drone : Vec2) (obstacles : list Obstacle) : Vec2 :=
  fold_left (addRepulsion drone) obstacles origin.

Definition apfNavigate (drone goal : Vec2) (obstacles : list Obstacle) : Vec2 :=
  let a := attrForce drone goal in
  let r := repForce drone obstacles in
  {| x := x a + x r; y := y a + y r |}.

(** ** LiDAR *)

Record LidarRay := {
  angle : Q;
  distance : Q;
  hit : bool;
  hitPoint : option Vec2
}.

(** The distance of the ray-marching step [k]: [d = 5 + 3 k]. *)
Definition marchDistance (k : nat) : Q := 5 + 3 * inject_Z (Z.of_nat k).

(** The number of steps with [5 + 3 k < LIDAR_RANGE]. *)
Definition marchSteps : nat := 39.

Definition insideObstacle (px py : Q) (obs : Obstacle) : bool :=
  Qltb (Obstacle.x obs) px && Qltb px (Obstacle.x obs + Obstacle.width obs) &&
  Qltb (Obstacle.y obs) py && Qltb py (Obstacle.y obs + Obstacle.height obs).

(** The ray-marching loop from step [k], [n] steps left. *)
Fixpoint march (drone : Vec2) (a : Q) (obstacles : list Obstacle)
    (canvasWidth canvasHeight : Q) (n k : nat) : LidarRay :=
  match n with
  | O => {| angle := a; distance := LIDAR_RANGE; hit := false; hitPoint := None |}
  | S n' =>
      let d := marchDistance k in
      let px := x drone + cos a * d in
      let py := y drone + sin a * d in
      if Qltb px 0 || Qltb canvasWidth px || Qltb py 0 || Qltb canvasHeight py then
        {| angle := a; distance := d; hit := true;
           hitPoint := Some {| x := px; y := py |} |}
      else if existsb (insideObstacle px py) obstacles then
        {| angle := a; distance := d; hit := true;
           hitPoint := Some {| x := px; y := py |} |}
      else march drone a obstacles canvasWidth canvasHeight n' (S k)
  end.

Definition rayAngle (heading : Q) (i : nat) : Q :=
  heading + (inject_Z (Z.of_nat i) / inject_Z (Z.of_nat LIDAR_RAYS)) * Math_PI * 2.

Definition simulateLidar (drone : Vec2) (heading : Q) (obstacles : list Obstacle)
    (canvasWidth canvasHeight : Q) : list LidarRay :=
  map (fun i => march drone (rayAngle heading i) obstacles canvasWidth canvasHeight
                      marchSteps 0)
      (seq 0 LIDAR_RAYS).

(** ** A* on the occupancy grid *)

Set Warnings "-register-all".

(** A search node; [parent] is the node it was reached from.  A node is
    written to only while it is in the open set, and a parent is a node that
    has left it, so a parent is a value. *)
Inductive PathNode := mkNode {
  nx : Z;
  ny : Z;
  g : Q;
  h : Q;
  f : Q;
  nparent : option PathNode
}.

Definition Cell := (Z * Z)%type.

Definition sameCell (a b : Cell) : bool := ((fst a =? fst b) && (snd a =? snd b))%Z.

Definition heuristic (a b : Cell) : Q :=
  let dx := Math_abs (inject_Z (fst a) - inject_Z (fst b)) in
  let dy := Math_abs (inject_Z (snd a) - inject_Z (snd b)) in
  Math_max dx dy + (Math_SQRT2 - 1) * Math_min dx dy.

Record Direction := { ddx : Z; ddy : Z; cost : Q }.

Definition directions : list Direction :=
  [ {| ddx := 1; ddy := 0; cost := 1 |};
    {| ddx := -1; ddy := 0; cost := 1 |};
    {| ddx := 0; ddy := 1; cost := 1 |};
    {| ddx := 0; ddy := -1; cost := 1 |};
    {| ddx := 1; ddy := 1; cost := Math_SQRT2 |};
    {| ddx := -1; ddy := 1; cost := Math_SQRT2 |};
    {| ddx := 1; ddy := -1; cost := Math_SQRT2 |};
    {| ddx := -1; ddy := -1; cost := Math_SQRT2 |} ].

Definition inflation : Z := Math_ceil (DRONE_RADIUS / GRID_SIZE).

(** Membership in the set [occupied]: the cell lies in the inflated cell
    range of some obstacle. *)
Definition occupiedBy (c : Cell) (obs : Obstacle) : bool :=
  let infl := inject_Z inflation * GRID_SIZE in
  let minGx := Math_floor ((Obstacle.x obs - infl) / GRID_SIZE) in
  let maxGx := Math_ceil ((Obstacle.x obs + Obstacle.width obs + infl) / GRID_SIZE) in
  let minGy := Math_floor ((Obstacle.y obs - infl) / GRID_SIZE) in
  let maxGy := Math_ceil ((Obstacle.y obs + Obstacle.height obs + infl) / GRID_SIZE) in
  ((minGx <=? fst c) && (fst c <=? maxGx) && (minGy <=? snd c) && (snd c <=? maxGy))%Z.

Definition occupied (obstacles : list Obstacle) (c : Cell) : bool :=
  existsb (occupiedBy c) obstacles.

(** [openSet.sort((a, b) => a.f - b.f)]: a stable sort on [f]. *)
Fixpoint insertByF (n : PathNode) (sorted : list PathNode) : list PathNode :=
  match sorted with
  | [] => [n]
  | m :: rest => if Qleb (f n) (f m) then n :: m :: rest else m :: insertByF n rest
  end.

Definition sortByF (openSet : list PathNode) : list PathNode :=
  fold_right insertByF [] openSet.

(** The walk along the parent links, [unshift]ing each cell's point. *)
Fixpoint reconstruct (node : PathNode) (path : list Vec2) : list Vec2 :=
  let p := {| x := inject_Z (nx node) * GRID_SIZE; y := inject_Z (ny node) * GRID_SIZE |} :: path in
  match nparent node with
  | None => p
  | Some n' => reconstruct n' p
  end.

(** The update of an open node that is reached again. *)
Fixpoint relax (cell : Cell) (g' f' : Q) (current : PathNode) (openSet : list PathNode)
    : option (list PathNode) :=
  match openSet with
  | [] => None
  | n :: rest =>
      if sameCell (nx n, ny n) cell then
        Some ((if Qltb g' (g n)
               then {| nx := nx n; ny := ny n; g := g'; h := h n; f := f';
                       nparent := Some current |}
               else n) :: rest)
      else option_map (cons n) (relax cell g' f' current rest)
  end.

(** The body of the loop over [directions]. *)
Definition expand (obstacles : list Obstacle) (gridW gridH : Z) (goalNode : Cell)
    (closedSet : list Cell) (current : PathNode) (openSet : list PathNode)
    (dir : Direction) : list PathNode :=
  let cx := (nx current + ddx dir)%Z in
  let cy := (ny current + ddy dir)%Z in
  if ((cx <? 0) || (cx >=? gridW) || (cy <? 0) || (cy >=? gridH))%Z then openSet
  else if existsb (sameCell (cx, cy)) closedSet then openSet
  else if occupied obstacles (cx, cy) then openSet
  else
    let g' := g current + cost dir in
    let h' := heuristic (cx, cy) goalNode in
    let f' := g' + h' in
    match relax (cx, cy) g' f' current openSet with
    | Some openSet' => openSet'
    | None => openSet ++ [{| nx := cx; ny := cy; g := g'; h := h'; f := f';
                             nparent := Some current |}]
    end.

Record AstarResult := { astar_path : list Vec2; astar_nodesExplored : nat }.

Fixpoint astarLoop (fuel : nat) (obstacles : list Obstacle) (gridW gridH : Z)
    (goalNode : Cell) (openSet : list PathNode) (closedSet : list Cell)
    (nodesExplored : nat) : option AstarResult :=
  match sortByF openSet with
  | [] => Some {| astar_path := []; astar_nodesExplored := nodesExplored |}
  | current :: openSet' =>
      match fuel with
      | O => None
      | S fuel' =>
          let nodesExplored' := S nodesExplored in
          if sameCell (nx current, ny current) goalNode then
            Some {| astar_path := smoothPath (reconstruct current []) obstacles;
                    astar_nodesExplored := nodesExplored' |}
          else
            let closedSet' := (nx current, ny current) :: closedSet in
            astarLoop fuel' obstacles gridW gridH goalNode
              (fold_left (expand obstacles gridW gridH goalNode closedSet' current)
                         directions openSet')
              closedSet' nodesExplored'
      end
  end.

(** A cell is popped at most once and every popped cell but the start is
    inside the grid, so [gridW * gridH + 1] iterations are the most the
    loop can make; [None] is the loop that has not ended by then, which
    [astar_total] excludes. *)
Definition astar (start goal : Vec2) (obstacles : list Obstacle)
    (canvasWidth canvasHeight : Q) : option AstarResult :=
  let gridW := Math_ceil (canvasWidth / GRID_SIZE) in
  let gridH := Math_ceil (canvasHeight / GRID_SIZE) in
  let goalNode := (Math_round (x goal / GRID_SIZE), Math_round (y goal / GRID_SIZE)) in
  let sx := Math_round (x start / GRID_SIZE) in
  let sy := Math_round (y start / GRID_SIZE) in
  let h0 := heuristic (sx, sy) goalNode in
  let startNode := {| nx := sx; ny := sy; g := 0; h := h0; f := h0; nparent := None |} in
  astarLoop (Z.to_nat (gridW * gridH) + 1) obstacles gridW gridH goalNode
            [startNode] [] 0.

(** ** Potential field for the display *)

Definition potentialAt (goal : Vec2) (obstacles : list Obstacle) (px py : Q) : Q :=
  let dGoal := hypot (px - x goal) (py - y goal) in
  let attractive := (1 # 2) * dGoal in
  let repulsive :=
    fold_left
      (fun acc obs =>
         let d := hypot (px - centerX obs) (py - centerY obs)
                  - Math_max (Obstacle.width obs) (Obstacle.height obs) / 2 in
         if Qltb d 60 && Qltb 0 d then acc + 500 * ((1 / d - 1 / 60) * (1 / d - 1 / 60))
         else if Qleb d 0 then acc + 10000
         else acc)
      obstacles 0 in
  attractive + repulsive.

(** The values [0, resolution, 2 * resolution, ...] below [limit]. *)
Definition gridLine (limit : Q) : list Q :=
  map (fun i => inject_Z (Z.of_nat i) * 10) (seq 0 (Z.to_nat (Math_ceil (limit / 10)))).

Definition computePotentialField (goal : Vec2) (obstacles : list Obstacle)
    (canvasWidth canvasHeight : Q) : list (list Q) :=
  map (fun px => map (fun py => potentialAt goal obstacles px py) (gridLine canvasHeight))
      (gridLine canvasWidth).

(** ** Obstacle generation

    The colour, the drawn height and the animation phases of an obstacle
    are not modelled, but the draws they make are counted. *)

Inductive StaticType := Building | Tree | Tower | Container | Helipad.

Record StaticInfo := {
  staticType : StaticType;
  minW : Q; maxW : Q;
  minH : Q; maxH : Q;
  weight : Q
}.

Definition staticTypes : list StaticInfo :=
  [ {| staticType := Building; minW := 25; maxW := 40; minH := 25; maxH := 40;
       weight := 3 # 10 |};
    {| staticType := Tree; minW := 10; maxW := 15; minH := 10; maxH := 15;
       weight := 25 # 100 |};
    {| staticType := Tower; minW := 15; maxW := 20; minH := 15; maxH := 20;
       weight := 15 # 100 |};
    {| staticType := Container; minW := 15; maxW := 25; minH := 10; maxH := 12;
       weight := 2 # 10 |};
    {| staticType := Helipad; minW := 22; maxW := 28; minH := 22; maxH := 28;
       weight := 1 # 10 |} ].

Definition margin : Q := 60.
Definition minGap : Q := 50.
Definition uavSize : Q := 24.

Definition totalWeight : Q := fold_left (fun sum t => sum + weight t) staticTypes 0.

(** The loop of [selectStaticType]. *)
Fixpoint pickType (rand : Q) (types : list StaticInfo) : option StaticInfo :=
  match types with
  | [] => None
  | st :: rest =>
      let rand' := rand - weight st in
      if Qleb rand' 0 then Some st else pickType rand' rest
  end.

Definition selectStaticType (rnd : Random) (c : nat) : StaticInfo * nat :=
  (match pickType (rnd c * totalWeight) staticTypes with
   | Some st => st
   | None => nth 0 staticTypes {| staticType := Building; minW := 25; maxW := 40;
                                  minH := 25; maxH := 40; weight := 3 # 10 |}
   end, S c).

(** The draws for the colour and the drawn height of a static obstacle. *)
Definition cosmeticDraws (t : StaticType) : nat :=
  match t with
  | Building => 2
  | Tower | Tree | Container => 1
  | Helipad => 0
  end.

(** [obstacles.some(...)]: the box at [(ax, ay)] is within [minGap] of an
    obstacle. *)
Definition tooNear (ax ay aw ah : Q) (obstacles : list Obstacle) : bool :=
  existsb (fun obs =>
             Qltb ax (Obstacle.x obs + Obstacle.width obs + minGap) &&
             Qltb (Obstacle.x obs) (ax + aw + minGap) &&
             Qltb ay (Obstacle.y obs + Obstacle.height obs + minGap) &&
             Qltb (Obstacle.y obs) (ay + ah + minGap))
          obstacles.

(** The body of the two loops over the cells at [(row, col)]; both loops
    stop once [staticIndex] has reached [staticCount]. *)
Definition placeStatic (rnd : Random) (canvasWidth canvasHeight cellWidth cellHeight : Q)
    (staticCount : Z) (acc : list Obstacle * Z * nat) (cell : nat * nat)
    : list Obstacle * Z * nat :=
  let '(obstacles, staticIndex, c) := acc in
  let '(row, col) := cell in
  if negb (staticIndex <? staticCount)%Z then acc
  else
    let qcol := inject_Z (Z.of_nat col) in
    let qrow := inject_Z (Z.of_nat row) in
    let cellCenterX := margin + qcol * cellWidth + cellWidth / 2 in
    let cellCenterY := margin + qrow * cellHeight + cellHeight / 2 in
    if Qltb cellCenterX 120 && Qltb (Math_abs (cellCenterY - canvasHeight / 2)) 100
    then acc
    else
      let '(typeInfo, c1) := selectStaticType rnd c in
      let w := minW typeInfo + rnd c1 * (maxW typeInfo - minW typeInfo) in
      let h := minH typeInfo + rnd (1 + c1)%nat * (maxH typeInfo - minH typeInfo) in
      let maxJitterX := Math_max 0 ((cellWidth - w - minGap * 2) / 2) in
      let maxJitterY := Math_max 0 ((cellHeight - h - minGap * 2) / 2) in
      let jitterX := (rnd (2 + c1)%nat - (1 # 2)) * 2 * maxJitterX in
      let jitterY := (rnd (3 + c1)%nat - (1 # 2)) * 2 * maxJitterY in
      let px := margin + qcol * cellWidth + (cellWidth - w) / 2 + jitterX in
      let py := margin + qrow * cellHeight + (cellHeight - h) / 2 + jitterY in
      let finalX := Math_max margin (Math_min (canvasWidth - margin - w) px) in
      let finalY := Math_max margin (Math_min (canvasHeight - margin - h) py) in
      let c2 := (4 + c1 + cosmeticDraws (staticType typeInfo))%nat in
      if tooNear finalX finalY w h obstacles then (obstacles, staticIndex, c2)
      else (obstacles ++ [Obstacle.mk finalX finalY w h static None],
            (staticIndex + 1)%Z, S c2).

(** The [while] loop that places one UAV, with [attempts] tries left. *)
Fixpoint placeDynamic (attempts : nat) (rnd : Random) (canvasWidth canvasHeight : Q)
    (obstacles : list Obstacle) (c : nat) : list Obstacle * nat :=
  match attempts with
  | O => (obstacles, c)
  | S attempts' =>
      let px := margin + rnd c * (canvasWidth - 2 * margin - uavSize) in
      let py := margin + rnd (S c) * (canvasHeight - 2 * margin - uavSize) in
      let tooCloseToStart :=
        Qltb px 120 && Qltb (Math_abs (py - canvasHeight / 2)) 80 in
      let overlaps := tooNear px py uavSize uavSize obstacles in
      if negb overlaps && negb tooCloseToStart then
        (obstacles ++
           [Obstacle.mk px py uavSize uavSize dynamic
              (Some {| x := (rnd (2 + c)%nat - (1 # 2)) * (6 # 10);
                       y := (rnd (3 + c)%nat - (1 # 2)) * (6 # 10) |})],
         (6 + c)%nat)
      else placeDynamic attempts' rnd canvasWidth canvasHeight obstacles (2 + c)%nat
  end.

Definition generateObstacles (rnd : Random) (c : nat) (count dynamicCount : Z)
    (canvasWidth canvasHeight : Q) : list Obstacle * nat :=
  let staticCount := (count - dynamicCount)%Z in
  let cols :=
    Z.max 2 (Math_ceil (sqrt (inject_Z staticCount * (canvasWidth / canvasHeight)
                              * (6 # 10)))) in
  let rows := Z.max 2 (Math_ceil (inject_Z staticCount / inject_Z cols)) in
  let cellWidth := (canvasWidth - 2 * margin) / inject_Z cols in
  let cellHeight := (canvasHeight - 2 * margin) / inject_Z rows in
  let cells :=
    flat_map (fun row => map (fun col => (row, col)) (seq 0 (Z.to_nat cols)))
             (seq 0 (Z.to_nat rows)) in
  let '(statics, _, c1) :=
    fold_left (placeStatic rnd canvasWidth canvasHeight cellWidth cellHeight staticCount)
              cells ([], 0%Z, c) in
  fold_left (fun acc _ => placeDynamic 50 rnd canvasWidth canvasHeight (fst acc) (snd acc))
            (seq 0 (Z.to_nat dynamicCount)) (statics, c1).

(** ** The simulation state *)

(** The statistics set by [setStats]; [computeTime], a difference of two
    clock readings, is left out. *)
Record Stats := {
  pathLength : nat;
  nodesExplored : nat;
  distanceToGoal : Q;
  statBattery : Q;
  statState : NavState
}.

(** [stateRef.current], the statistics, and the cursor of [Math.random]. *)
Record SimState := {
  drone : Drone;
  target : option Vec2;
  path : list Vec2;
  currentPathIndex : nat;
  obstacles : list Obstacle;
  lidarData : list LidarRay;
  potentialField : list (list Q);
  rrtTree : list TreeEdge;
  stats : Stats;
  draws : nat
}.

Definition dronePos (d : Drone) : Vec2 := {| x := Drone.x d; y := Drone.y d |}.

Definition setNavState (d : Drone) (s : NavState) : Drone :=
  Drone.mk (Drone.x d) (Drone.y d) (Drone.vx d) (Drone.vy d) (Drone.heading d)
           (Drone.targetHeading d) (Drone.rotorSpeed d) (Drone.rotorAngle d)
           (Drone.altitude d) (Drone.battery d) s.

Definition setVelocity (d : Drone) (vx vy : Q) : Drone :=
  Drone.mk (Drone.x d) (Drone.y d) vx vy (Drone.heading d)
           (Drone.targetHeading d) (Drone.rotorSpeed d) (Drone.rotorAngle d)
           (Drone.altitude d) (Drone.battery d) (Drone.state d).

Definition setTargetHeading (d : Drone) (th : Q) : Drone :=
  Drone.mk (Drone.x d) (Drone.y d) (Drone.vx d) (Drone.vy d) (Drone.heading d)
           th (Drone.rotorSpeed d) (Drone.rotorAngle d)
           (Drone.altitude d) (Drone.battery d) (Drone.state d).

(** ** Start and reset *)

Definition initialStats : Stats :=
  {| pathLength := 0; nodesExplored := 0; distanceToGoal := 0;
     statBattery := 100; statState := idle |}.

(** The state after the effect has set up the drone and the field. *)
Definition initialState (rnd : Random) (obstacleCount dynamicObstacleCount : Z)
    (canvasWidth canvasHeight : Q) : SimState :=
  let '(field, c) :=
    generateObstacles rnd 0 obstacleCount dynamicObstacleCount canvasWidth canvasHeight in
  {| drone := Drone.mk 50 (canvasHeight / 2) 0 0 0 0 (3 # 10) 0 1 100 idle;
     target := None; path := []; currentPathIndex := 0; obstacles := field;
     lidarData := []; potentialField := []; rrtTree := [];
     stats := initialStats; draws := c |}.

Definition resetObstacles (rnd : Random) (obstacleCount dynamicObstacleCount : Z)
    (canvasWidth canvasHeight : Q) (st : SimState) : SimState :=
  let '(field, c) :=
    generateObstacles rnd (draws st) obstacleCount dynamicObstacleCount
                      canvasWidth canvasHeight in
  let d := drone st in
  {| drone := Drone.mk 50 (canvasHeight / 2) 0 0 (Drone.heading d) (Drone.targetHeading d)
                       (Drone.rotorSpeed d) (Drone.rotorAngle d) (Drone.altitude d)
                       (Drone.battery d) idle;
     target := None; path := []; currentPathIndex := currentPathIndex st;
     obstacles := field; lidarData := lidarData st; potentialField := potentialField st;
     rrtTree := []; stats := stats st; draws := c |}.

(** ** The click handler *)

Definition clickMargin : Q := 15.

Definition candidates (obs : Obstacle) (clickPos : Vec2) : list Vec2 :=
  [ {| x := Obstacle.x obs - clickMargin - 5; y := y clickPos |};
    {| x := Obstacle.x obs + Obstacle.width obs + clickMargin + 5; y := y clickPos |};
    {| x := x clickPos; y := Obstacle.y obs - clickMargin - 5 |};
    {| x := x clickPos; y := Obstacle.y obs + Obstacle.height obs + clickMargin + 5 |} ].

(** The loop over the candidates; [best] is [(bestCandidate, bestDist)],
    [None] before the first valid one. *)
Definition considerCandidate (obstacles : list Obstacle) (clickPos : Vec2)
    (canvasWidth canvasHeight : Q) (best : option (Vec2 * Q)) (candidate : Vec2)
    : option (Vec2 * Q) :=
  if Qltb (x candidate) 10 || Qltb (canvasWidth - 10) (x candidate) ||
     Qltb (y candidate) 10 || Qltb (canvasHeight - 10) (y candidate)
  then best
  else if existsb (insideInflated clickMargin (x candidate) (y candidate)) obstacles
  then best
  else
    let dist := hypot (x candidate - x clickPos) (y candidate - y clickPos) in
    match best with
    | None => Some (candidate, dist)
    | Some (_, bestDist) => if Qltb dist bestDist then Some (candidate, dist) else best
    end.

(** The goal of a click: the click itself when it is clear of every
    obstacle, else the best candidate around the first obstacle it is in;
    [None] when the handler returns without a goal. *)
Definition resolveClick (obstacles : list Obstacle) (clickPos : Vec2)
    (canvasWidth canvasHeight : Q) : option Vec2 :=
  match find (insideInflated clickMargin (x clickPos) (y clickPos)) obstacles with
  | None => Some clickPos
  | Some obs =>
      option_map fst
        (fold_left (considerCandidate obstacles clickPos canvasWidth canvasHeight)
                   (candidates obs clickPos) None)
  end.

(** What the planner of the mode leaves in the state: path, tree,
    potential field, statistics and cursor.  [None] is a planner that does
    not return. *)
Definition plan (algorithmMode : Algorithm) (rnd : Random) (st : SimState)
    (clickPos : Vec2) (canvasWidth canvasHeight : Q) : option SimState :=
  let start := dronePos (drone st) in
  let d := setNavState (drone st) planning in
  match algorithmMode with
  | astarMode =>
      match astar start clickPos (obstacles st) canvasWidth canvasHeight with
      | None => None
      | Some result =>
          let path' :=
            match astar_path result with
            | [] => if hasLineOfSight start clickPos (obstacles st)
                    then [start; clickPos] else []
            | p => p
            end in
          Some {| drone := d; target := Some clickPos; path := path';
                  currentPathIndex := currentPathIndex st; obstacles := obstacles st;
                  lidarData := lidarData st; potentialField := potentialField st;
                  rrtTree := [];
                  stats := {| pathLength := length path';
                              nodesExplored := astar_nodesExplored result;
                              distanceToGoal := distanceToGoal (stats st);
                              statBattery := statBattery (stats st);
                              statState := statState (stats st) |};
                  draws := draws st |}
      end
  | rrtMode =>
      match rrt rnd (draws st) start clickPos (obstacles st) canvasWidth canvasHeight with
      | (None, _) => None
      | (Some result, c) =>
          Some {| drone := d; target := Some clickPos; path := rrt_path result;
                  currentPathIndex := currentPathIndex st; obstacles := obstacles st;
                  lidarData := lidarData st; potentialField := potentialField st;
                  rrtTree := rrt_tree result;
                  stats := {| pathLength := length (rrt_path result);
                              nodesExplored := rrt_nodesExplored result;
                              distanceToGoal := distanceToGoal (stats st);
                              statBattery := statBattery (stats st);
                              statState := statState (stats st) |};
                  draws := c |}
      end
  | apfMode =>
      Some {| drone := d; target := Some clickPos; path := [clickPos];
              currentPathIndex := currentPathIndex st; obstacles := obstacles st;
              lidarData := lidarData st;
              potentialField :=
                computePotentialField clickPos (obstacles st) canvasWidth canvasHeight;
              rrtTree := rrtTree st; stats := stats st; draws := draws st |}
  end.

(** The end of the handler: the path index, the drone's state and the
    clearing of the target. *)
Definition finishClick (algorithmMode : Algorithm) (st : SimState) : SimState :=
  let noPath := match path st with [] => true | _ => false end in
  {| drone := setNavState (drone st) (if noPath then idle else navigating);
     target := match algorithmMode with
               | apfMode => target st
               | _ => if noPath then None else target st
               end;
     path := path st; currentPathIndex := 0; obstacles := obstacles st;
     lidarData := lidarData st; potentialField := potentialField st;
     rrtTree := rrtTree st; stats := stats st; draws := draws st |}.

(** [onClick] at the canvas point [clickPos]. *)
Definition onClick (algorithmMode : Algorithm) (rnd : Random)
    (canvasWidth canvasHeight : Q) (st : SimState) (clickPos : Vec2)
    : option SimState :=
  match resolveClick (obstacles st) clickPos canvasWidth canvasHeight with
  | None => Some st
  | Some goal =>
      option_map (finishClick algorithmMode)
                 (plan algorithmMode rnd st goal canvasWidth canvasHeight)
  end.

(** ** The per-tick update: dynamic obstacles *)

Definition obstacleMaxSpeed : Q := 8 # 10.
Definition obstacleMinSpeed : Q := 25 # 100.

(** The overlap test of the box at [(ax, ay)] of size [aw] by [ah] with
    [other], each widened by [margin]. *)
Definition boxesNear (margin ax ay aw ah : Q) (other : Obstacle) : bool :=
  Qltb ax (Obstacle.x other + Obstacle.width other + margin) &&
  Qltb (Obstacle.x other) (ax + aw + margin) &&
  Qltb ay (Obstacle.y other + Obstacle.height other + margin) &&
  Qltb (Obstacle.y other) (ay + ah + margin).

Definition isStatic (o : Obstacle) : bool :=
  match Obstacle.type o with static => true | dynamic => false end.

(** The body of the second inner [forEach]: the push away from another
    dynamic obstacle; [j] is the index of [other], [i] that of [obs]. *)
Definition steerAway (i : nat) (obs : Obstacle) (nextX nextY : Q) (v : Vec2)
    (entry : nat * Obstacle) : Vec2 :=
  let '(j, other) := entry in
  if (j =? i)%nat || isStatic other then v
  else if boxesNear 15 nextX nextY (Obstacle.width obs) (Obstacle.height obs) other then
    let dx := (Obstacle.x obs + Obstacle.width obs / 2)
              - (Obstacle.x other + Obstacle.width other / 2) in
    let dy := (Obstacle.y obs + Obstacle.height obs / 2)
              - (Obstacle.y other + Obstacle.height other / 2) in
    let dist := orElse (sqrt (dx * dx + dy * dy)) 1 in
    {| x := x v + (dx / dist) * (3 # 10); y := y v + (dy / dist) * (3 # 10) |}
  else v.

(** The reflections off static obstacles, with their random kicks. *)
Definition bounceStatic (rnd : Random) (c : nat) (collisionX collisionY : bool)
    (v : Vec2) : Vec2 * nat :=
  let '(v1, c1) :=
    if collisionX
    then ({| x := x v * -1; y := y v + (rnd c - (1 # 2)) * (1 # 2) |}, S c)
    else (v, c) in
  if collisionY
  then ({| x := x v1 + (rnd c1 - (1 # 2)) * (1 # 2); y := y v1 * -1 |}, S c1)
  else (v1, c1).

Definition bounceWalls (obs : Obstacle) (canvasWidth canvasHeight : Q) (v : Vec2) : Vec2 :=
  let vx := if Qleb (Obstacle.x obs) 0 ||
               Qleb canvasWidth (Obstacle.x obs + Obstacle.width obs)
            then x v * -1 else x v in
  let vy := if Qleb (Obstacle.y obs) 0 ||
               Qleb canvasHeight (Obstacle.y obs + Obstacle.height obs)
            then y v * -1 else y v in
  {| x := vx; y := vy |}.

(** The speed limit and the speed floor; both test the speed taken before
    either is applied. *)
Definition limitSpeed (v : Vec2) : Vec2 :=
  let currentSpeed := sqrt (x v * x v + y v * y v) in
  let v1 := if Qltb obstacleMaxSpeed currentSpeed
            then {| x := (x v / currentSpeed) * obstacleMaxSpeed;
                    y := (y v / currentSpeed) * obstacleMaxSpeed |}
            else v in
  if Qltb currentSpeed obstacleMinSpeed then
    let scale := obstacleMinSpeed / orElse currentSpeed (1 # 10) in
    {| x := x v1 * scale; y := y v1 * scale |}
  else v1.

Definition clamp (lo hi v : Q) : Q := Math_max lo (Math_min hi v).

(** The update of the dynamic obstacle [obs], at index [i] of [all], whose
    velocity is [v]. *)
Definition moveDynamic (rnd : Random) (canvasWidth canvasHeight : Q)
    (all : list Obstacle) (i : nat) (obs : Obstacle) (v : Vec2) (c : nat)
    : Obstacle * nat :=
  let nextX := Obstacle.x obs + x v in
  let nextY := Obstacle.y obs + y v in
  let statics := filter isStatic all in
  let collisionX :=
    existsb (boxesNear 8 nextX (Obstacle.y obs) (Obstacle.width obs) (Obstacle.height obs))
            statics in
  let collisionY :=
    existsb (boxesNear 8 (Obstacle.x obs) nextY (Obstacle.width obs) (Obstacle.height obs))
            statics in
  let v1 := fold_left (steerAway i obs nextX nextY) (combine (seq 0 (length all)) all) v in
  let '(v2, c') := bounceStatic rnd c collisionX collisionY v1 in
  let v3 := bounceWalls obs canvasWidth canvasHeight v2 in
  let v4 := limitSpeed v3 in
  (Obstacle.mk
     (clamp 0 (canvasWidth - Obstacle.width obs) (Obstacle.x obs + x v4))
     (clamp 0 (canvasHeight - Obstacle.height obs) (Obstacle.y obs + y v4))
     (Obstacle.width obs) (Obstacle.height obs) (Obstacle.type obs) (Some v4),
   c').

Fixpoint replaceNth {A} (i : nat) (a : A) (l : list A) : list A :=
  match l, i with
  | [], _ => []
  | _ :: t, O => a :: t
  | b :: t, S i' => b :: replaceNth i' a t
  end.

(** The body of the outer [forEach] at index [i]: the obstacles are
    updated in place, so a later one sees the earlier ones moved. *)
Definition updateObstacle (rnd : Random) (canvasWidth canvasHeight : Q)
    (acc : list Obstacle * nat) (i : nat) : list Obstacle * nat :=
  let '(all, c) := acc in
  match nth_error all i with
  | Some obs =>
      match Obstacle.type obs, Obstacle.velocity obs with
      | dynamic, Some v =>
          let '(obs', c') := moveDynamic rnd canvasWidth canvasHeight all i obs v c in
          (replaceNth i obs' all, c')
      | _, _ => acc
      end
  | None => acc
  end.

Definition updateObstacles (rnd : Random) (canvasWidth canvasHeight : Q)
    (all : list Obstacle) (c : nat) : list Obstacle * nat :=
  fold_left (updateObstacle rnd canvasWidth canvasHeight) (seq 0 (length all)) (all, c).

(** ** The per-tick update: controller and kinematics *)

Definition arrivalThreshold : Q := 20.

(** [lidarData.reduce(...)]: the least distance of the sweep, at most
    [LIDAR_RANGE]. *)
Definition closestObstacle (lidar : list LidarRay) : Q :=
  fold_left (fun m ray => if Qltb (distance ray) m then distance ray else m)
            lidar LIDAR_RANGE.

Definition isActive (s : NavState) : bool :=
  match s with navigating | avoiding => true | _ => false end.

(** The first transition of the tick: [navigating] to [avoiding]. *)
Definition senseDanger (closest : Q) (d : Drone) : Drone :=
  match Drone.state d with
  | navigating => if Qltb closest SAFE_DISTANCE then setNavState d avoiding else d
  | _ => d
  end.

(** Steering: the field planner's force, or the pull of the next waypoint
    with the advance of the path index. *)
Definition follow (algorithmMode : Algorithm) (speed : Q) (st : SimState) : SimState :=
  let d := drone st in
  match algorithmMode with
  | apfMode =>
      match target st with
      | Some goal =>
          let force := apfNavigate (dronePos d) goal (obstacles st) in
          {| drone := setVelocity d (Drone.vx d + x force * (2 # 100) * speed)
                                    (Drone.vy d + y force * (2 # 100) * speed);
             target := target st; path := path st;
             currentPathIndex := currentPathIndex st; obstacles := obstacles st;
             lidarData := lidarData st; potentialField := potentialField st;
             rrtTree := rrtTree st; stats := stats st; draws := draws st |}
      | None => st
      end
  | _ =>
      match nth_error (path st) (currentPathIndex st) with
      | Some targetPoint =>
          let dx := x targetPoint - Drone.x d in
          let dy := y targetPoint - Drone.y d in
          let dist := hypot dx dy in
          let idx := if Qltb dist 15 && (currentPathIndex st <? length (path st) - 1)%nat
                     then S (currentPathIndex st) else currentPathIndex st in
          {| drone := setTargetHeading
                        (setVelocity d (Drone.vx d + dx * (3 # 1000) * speed)
                                       (Drone.vy d + dy * (3 # 1000) * speed))
                        (atan2 dy dx);
             target := target st; path := path st;
             currentPathIndex := idx; obstacles := obstacles st;
             lidarData := lidarData st; potentialField := potentialField st;
             rrtTree := rrtTree st; stats := stats st; draws := draws st |}
      | None => st
      end
  end.

(** The push away from one ray that is closer than the safe distance. *)
Definition avoidRay (d : Drone) (ray : LidarRay) : Drone :=
  if Qltb (distance ray) SAFE_DISTANCE then
    let avoidForce := (SAFE_DISTANCE - distance ray) / SAFE_DISTANCE in
    setVelocity d (Drone.vx d - cos (angle ray) * avoidForce * (1 # 2))
                  (Drone.vy d - sin (angle ray) * avoidForce * (1 # 2))
  else d.

(** Reactive avoidance and the transition back to [navigating]. *)
Definition avoid (closest : Q) (lidar : list LidarRay) (d : Drone) : Drone :=
  match Drone.state d with
  | avoiding =>
      let d' := fold_left avoidRay lidar d in
      if Qltb (SAFE_DISTANCE * (12 # 10)) closest then setNavState d' navigating else d'
  | _ => d
  end.

Definition setDistanceToGoal (s : Stats) (dist : Q) : Stats :=
  {| pathLength := pathLength s; nodesExplored := nodesExplored s;
     distanceToGoal := dist; statBattery := statBattery s; statState := statState s |}.

(** The arrival test. *)
Definition checkArrival (st : SimState) : SimState :=
  match target st with
  | Some goal =>
      let d := drone st in
      let distToGoal := hypot (x goal - Drone.x d) (y goal - Drone.y d) in
      let arrived := Qltb distToGoal arrivalThreshold in
      {| drone := if arrived then setNavState d idle else d;
         target := if arrived then None else target st;
         path := if arrived then [] else path st;
         currentPathIndex := currentPathIndex st; obstacles := obstacles st;
         lidarData := lidarData st; potentialField := potentialField st;
         rrtTree := rrtTree st; stats := setDistanceToGoal (stats st) distToGoal;
         draws := draws st |}
  | None => st
  end.

Definition withDrone (st : SimState) (d : Drone) : SimState :=
  {| drone := d; target := target st; path := path st;
     currentPathIndex := currentPathIndex st; obstacles := obstacles st;
     lidarData := lidarData st; potentialField := potentialField st;
     rrtTree := rrtTree st; stats := stats st; draws := draws st |}.

(** The block under [navigating || avoiding]. *)
Definition navigate (algorithmMode : Algorithm) (speed closest : Q) (st : SimState)
    : SimState :=
  if isActive (Drone.state (drone st)) then
    let st1 := follow algorithmMode speed st in
    let st2 := withDrone st1 (avoid closest (lidarData st1) (drone st1)) in
    checkArrival st2
  else st.

(** The two [while] loops that bring the heading difference into
    [[-PI, PI]]; the number of turns taken off or added is known in advance. *)
Fixpoint wrapDown (fuel : nat) (headingDiff : Q) : Q :=
  if Qltb Math_PI headingDiff then
    match fuel with
    | O => headingDiff
    | S fuel' => wrapDown fuel' (headingDiff - Math_PI * 2)
    end
  else headingDiff.

Fixpoint wrapUp (fuel : nat) (headingDiff : Q) : Q :=
  if Qltb headingDiff (- Math_PI) then
    match fuel with
    | O => headingDiff
    | S fuel' => wrapUp fuel' (headingDiff + Math_PI * 2)
    end
  else headingDiff.

Definition turnsAbove (headingDiff : Q) : nat :=
  Z.to_nat (Math_ceil ((headingDiff - Math_PI) / (Math_PI * 2))).

Definition wrapHeading (headingDiff : Q) : Q :=
  let h1 := wrapDown (turnsAbove headingDiff) headingDiff in
  wrapUp (turnsAbove (- h1)) h1.

(** Damping, the speed limit, the move, the canvas clamp, the heading,
    the rotor and the battery. *)
Definition physics (speed canvasWidth canvasHeight : Q) (d : Drone) : Drone :=
  let vx1 := Drone.vx d * (95 # 100) in
  let vy1 := Drone.vy d * (95 # 100) in
  let maxSpeed := 2 * speed in
  let currentSpeed := hypot vx1 vy1 in
  let limited := Qltb maxSpeed currentSpeed in
  let vx2 := if limited then (vx1 / currentSpeed) * maxSpeed else vx1 in
  let vy2 := if limited then (vy1 / currentSpeed) * maxSpeed else vy1 in
  let headingDiff := wrapHeading (Drone.targetHeading d - Drone.heading d) in
  Drone.mk
    (clamp DRONE_RADIUS (canvasWidth - DRONE_RADIUS) (Drone.x d + vx2))
    (clamp DRONE_RADIUS (canvasHeight - DRONE_RADIUS) (Drone.y d + vy2))
    vx2 vy2
    (Drone.heading d + headingDiff * (1 # 10))
    (Drone.targetHeading d) (Drone.rotorSpeed d)
    (Drone.rotorAngle d + Drone.rotorSpeed d)
    (Drone.altitude d)
    (Math_max 0 (Drone.battery d - (2 # 1000) * (1 + currentSpeed)))
    (Drone.state d).

(** One call of [animate], without the drawing. *)
Definition animate (algorithmMode : Algorithm) (speed : Q) (rnd : Random)
    (canvasWidth canvasHeight : Q) (st : SimState) : SimState :=
  let '(obstacles', c') :=
    updateObstacles rnd canvasWidth canvasHeight (obstacles st) (draws st) in
  let lidar := simulateLidar (dronePos (drone st)) (Drone.heading (drone st))
                             obstacles' canvasWidth canvasHeight in
  let closest := closestObstacle lidar in
  let st1 := {| drone := senseDanger closest (drone st);
                target := target st; path := path st;
                currentPathIndex := currentPathIndex st; obstacles := obstacles';
                lidarData := lidar; potentialField := potentialField st;
                rrtTree := rrtTree st; stats := stats st; draws := c' |} in
  let st2 := navigate algorithmMode speed closest st1 in
  let d := physics speed canvasWidth canvasHeight (drone st2) in
  {| drone := d; target := target st2; path := path st2;
     currentPathIndex := currentPathIndex st2; obstacles := obstacles st2;
     lidarData := lidarData st2; potentialField := potentialField st2;
     rrtTree := rrtTree st2;
     stats := {| pathLength := pathLength (stats st2);
                 nodesExplored := nodesExplored (stats st2);
                 distanceToGoal := distanceToGoal (stats st2);
                 statBattery := Drone.battery d;
                 statState := Drone.state d |};
     draws := draws st2 |}.

(** [n] ticks in a row. *)
Fixpoint ticks (n : nat) (algorithmMode : Algorithm) (speed : Q) (rnd : Random)
    (canvasWidth canvasHeight : Q) (st : SimState) : SimState :=
  match n with
  | O => st
  | S n' => ticks n' algorithmMode speed rnd canvasWidth canvasHeight
                  (animate algorithmMode speed rnd canvasWidth canvasHeight st)
  end.

End Engine.

(** ** A reference math library

    Rational stand-ins for the library functions.  The square root is
    rounded upwards to 52 binary places and [hypot] is exact on the axes;
    cosine, sine and arctangent are computed in fixed point with 40 binary
    places and are exact at [0]. *)

Definition PRECISION : positive := 52.

(** The least multiple of [2 ^ -52 / den] whose square is at least [q],
    for [q] in lowest terms with the denominator [den]. *)
Definition sqrtUp (q : Q) : Q :=
  let n := Qnum (Qred q) in
  let d := Qden (Qred q) in
  if (n <=? 0)%Z then 0
  else Qred (Z.sqrt_up (n * Zpos d * 4 ^ Zpos PRECISION) # (d * 2 ^ PRECISION)).

Definition refHypot (a b : Q) : Q :=
  if Qeq_bool b 0 then Qabs a
  else if Qeq_bool a 0 then Qabs b
  else sqrtUp (a * a + b * b).

(** Fixed point: the integer [z] stands for [z / 2 ^ FRAC]. *)
Definition FRAC : Z := 40.
Definition toFixed (q : Q) : Z := (Z.shiftl (Qnum q) FRAC / Zpos (Qden q))%Z.
Definition ofFixed (z : Z) : Q := Qred (z # (2 ^ 40)).
Definition fxMul (a b : Z) : Z := Z.shiftr (a * b) FRAC.
Definition fxDiv (a b : Z) : Z := (Z.shiftl a FRAC / b)%Z.
Definition fxSqrt (a : Z) : Z := Z.sqrt (Z.shiftl a FRAC).
Definition fxOne : Z := Z.shiftl 1 FRAC.
Definition fxPi : Z := toFixed Math_PI.

(** The sum of a cosine or sine series: [term] is the current term, [k]
    the index of its factorial. *)
Fixpoint series (n : nat) (r2 k term acc : Z) : Z :=
  match n with
  | O => acc
  | S n' =>
      let term' := (- fxMul term r2 / ((k + 1) * (k + 2)))%Z in
      series n' r2 (k + 2)%Z term' (acc + term')%Z
  end.

(** The argument brought into [[-PI, PI]]. *)
Definition reduceAngle (a : Z) : Z :=
  (a - (a + fxPi) / (2 * fxPi) * (2 * fxPi))%Z.

Definition refCos (a : Q) : Q :=
  let r := reduceAngle (toFixed a) in
  ofFixed (series 10 (fxMul r r) 0 fxOne fxOne).

Definition refSin (a : Q) : Q :=
  let r := reduceAngle (toFixed a) in
  ofFixed (series 10 (fxMul r r) 1 r r).

(** The arctangent series for a small argument. *)
Fixpoint atanSeries (n : nat) (z2 k power acc : Z) : Z :=
  match n with
  | O => acc
  | S n' =>
      let power' := (- fxMul power z2)%Z in
      atanSeries n' z2 (k + 2)%Z power' (acc + power' / (k + 2))%Z
  end.

(** [tan (t / 2)] from [tan t]. *)
Definition halveTangent (z : Z) : Z :=
  fxDiv z (fxOne + fxSqrt (fxOne + fxMul z z)).

Definition atanSmall (z : Z) : Z :=
  let w := halveTangent (halveTangent z) in
  (4 * atanSeries 8 (fxMul w w) 1 w w)%Z.

(** The arctangent of [b / a] for [a] different from [0]. *)
Definition refAtan (b a : Z) : Z :=
  if (Z.abs b <=? Z.abs a)%Z then atanSmall (fxDiv b a)
  else if (0 <=? b * a)%Z then (fxPi / 2 - atanSmall (fxDiv a b))%Z
  else (- (fxPi / 2) - atanSmall (fxDiv a b))%Z.

Definition refAtan2 (b a : Q) : Q :=
  let fb := toFixed b in
  let fa := toFixed a in
  ofFixed
    (if (0 <? fa)%Z then refAtan fb fa
     else if (fa <? 0)%Z then
       (if (0 <=? fb)%Z then refAtan fb fa + fxPi else refAtan fb fa - fxPi)%Z
     else if (0 <? fb)%Z then (fxPi / 2)%Z
     else if (fb <? 0)%Z then (- (fxPi / 2))%Z
     else 0%Z).

#[export] Instance refMath : MathLib := {
  hypot := refHypot;
  sqrt := sqrtUp;
  cos := refCos;
  sin := refSin;
  atan2 := refAtan2
}.

(** ** Binary64

    The numbers of the source are binary64 values.  Where a property turns
    on rounding, the code is read a second time with the operations of
    binary64: the heuristic of the grid planner with the accumulation of
    [g], and the update of the dynamic obstacles.  A literal denotes the
    nearest binary64 value, as it does in the source, a cell coordinate is
    converted exactly, and [v ** 2] is the rounded product [v * v].
    [Math.max] and [Math.min] are written for numbers that are not NaN. *)

Module Binary64.
Import Floats.
#[local] Set Warnings "-inexact-float".

(** The rational that a finite binary64 number denotes, in lowest terms. *)
Definition toQ (a : float) : option Q :=
  match Prim2SF a with
  | S754_zero _ => Some 0
  | S754_finite s m e => Some (Qred ((if s then -1 else 1) * inject_Z (Zpos m) * 2 ^ e))
  | _ => None
  end.

(** The binary64 number of an integer below [2 ^ 53] in size. *)
Definition ofZ (z : Z) : float :=
  if (z <? 0)%Z then (- of_uint63 (Uint63.of_Z (- z)))%float
  else of_uint63 (Uint63.of_Z z).

Definition Math_SQRT2 : float := 0x1.6a09e667f3bcdp+0%float.
Definition Math_sqrt (a : float) : float := PrimFloat.sqrt a.
Definition Math_abs (a : float) : float := PrimFloat.abs a.
Definition Math_max (a b : float) : float := if (a <? b)%float then b else a.
Definition Math_min (a b : float) : float := if (b <? a)%float then b else a.

(** [a || b] on numbers: [b] when [a] is zero or not a number. *)
Definition orElse (a b : float) : float :=
  if (a =? 0)%float || is_nan a then b else a.

(** *** The heuristic and the cost of a walk *)

Definition heuristic (a b : Cell) : float :=
  let dx := Math_abs (ofZ (fst a) - ofZ (fst b)) in
  let dy := Math_abs (ofZ (snd a) - ofZ (snd b)) in
  (Math_max dx dy + (Math_SQRT2 - 1) * Math_min dx dy)%float.

Record Direction := { ddx : Z; ddy : Z; cost : float }.

Definition directions : list Direction :=
  [ {| ddx := 1; ddy := 0; cost := 1 |};
    {| ddx := -1; ddy := 0; cost := 1 |};
    {| ddx := 0; ddy := 1; cost := 1 |};
    {| ddx := 0; ddy := -1; cost := 1 |};
    {| ddx := 1; ddy := 1; cost := Math_SQRT2 |};
    {| ddx := -1; ddy := 1; cost := Math_SQRT2 |};
    {| ddx := 1; ddy := -1; cost := Math_SQRT2 |};
    {| ddx := -1; ddy := -1; cost := Math_SQRT2 |} ].

Definition moveCell (c : Cell) (d : Direction) : Cell := (fst c + ddx d, snd c + ddy d)%Z.

Definition walk (a : Cell) (moves : list Direction) : Cell := fold_left moveCell moves a.

(** The [g] of the node reached along [moves]: the start has [g = 0] and a
    neighbour has [current.g + dir.cost]. *)
Definition walkCost (moves : list Direction) : float :=
  fold_left (fun g d => (g + cost d)%float) moves 0%float.

(** *** The update of the dynamic obstacles *)

Record Vec2 := mkVec2 { x : float; y : float }.

Module Obstacle.
Record t := mk {
  x : float;
  y : float;
  width : float;
  height : float;
  type : ObstacleType;
  velocity : option Vec2
}.
End Obstacle.
Abbreviation Obstacle := Obstacle.t.

Definition Random := nat -> float.

Definition boxesNear (margin ax ay aw ah : float) (other : Obstacle) : bool :=
  (ax <? Obstacle.x other + Obstacle.width other + margin)%float &&
  (Obstacle.x other <? ax + aw + margin)%float &&
  (ay <? Obstacle.y other + Obstacle.height other + margin)%float &&
  (Obstacle.y other <? ay + ah + margin)%float.

Definition isStatic (o : Obstacle) : bool :=
  match Obstacle.type o with static => true | dynamic => false end.

Definition steerAway (i : nat) (obs : Obstacle) (nextX nextY : float) (v : Vec2)
    (entry : nat * Obstacle) : Vec2 :=
  let '(j, other) := entry in
  if (j =? i)%nat || isStatic other then v
  else if boxesNear 15 nextX nextY (Obstacle.width obs) (Obstacle.height obs) other then
    let dx := ((Obstacle.x obs + Obstacle.width obs / 2)
               - (Obstacle.x other + Obstacle.width other / 2))%float in
    let dy := ((Obstacle.y obs + Obstacle.height obs / 2)
               - (Obstacle.y other + Obstacle.height other / 2))%float in
    let dist := orElse (Math_sqrt (dx * dx + dy * dy)) 1 in
    {| x := (x v + (dx / dist) * 0.3)%float; y := (y v + (dy / dist) * 0.3)%float |}
  else v.

Definition bounceStatic (rnd : Random) (c : nat) (collisionX collisionY : bool)
    (v : Vec2) : Vec2 * nat :=
  let '(v1, c1) :=
    if collisionX
    then ({| x := (x v * -1)%float; y := (y v + (rnd c - 0.5) * 0.5)%float |}, S c)
    else (v, c) in
  if collisionY
  then ({| x := (x v1 + (rnd c1 - 0.5) * 0.5)%float; y := (y v1 * -1)%float |}, S c1)
  else (v1, c1).

Definition bounceWalls (obs : Obstacle) (canvasWidth canvasHeight : float) (v : Vec2)
    : Vec2 :=
  let vx := if (Obstacle.x obs <=? 0)%float ||
               (canvasWidth <=? Obstacle.x obs + Obstacle.width obs)%float
            then (x v * -1)%float else x v in
  let vy := if (Obstacle.y obs <=? 0)%float ||
               (canvasHeight <=? Obstacle.y obs + Obstacle.height obs)%float
            then (y v * -1)%float else y v in
  {| x := vx; y := vy |}.

(** The speed as the code takes it: [Math.sqrt(v.x ** 2 + v.y ** 2)]. *)
Definition speedOf (v : Vec2) : float := Math_sqrt (x v * x v + y v * y v).

Definition maxSpeed : float := 0.8.
Definition minSpeed : float := 0.25.

(** The speed limit and the speed floor; both test the speed taken before
    either is applied. *)
Definition limitSpeed (v : Vec2) : Vec2 :=
  let currentSpeed := speedOf v in
  let v1 := if (maxSpeed <? currentSpeed)%float
            then {| x := ((x v / currentSpeed) * maxSpeed)%float;
                    y := ((y v / currentSpeed) * maxSpeed)%float |}
            else v in
  if (currentSpeed <? minSpeed)%float then
    let scale := (minSpeed / orElse currentSpeed 0.1)%float in
    {| x := (x v1 * scale)%float; y := (y v1 * scale)%float |}
  else v1.

Definition clamp (lo hi v : float) : float := Math_max lo (Math_min hi v).

Definition moveDynamic (rnd : Random) (canvasWidth canvasHeight : float)
    (all : list Obstacle) (i : nat) (obs : Obstacle) (v : Vec2) (c : nat)
    : Obstacle * nat :=
  let nextX := (Obstacle.x obs + x v)%float in
  let nextY := (Obstacle.y obs + y v)%float in
  let statics := filter isStatic all in
  let collisionX :=
    existsb (boxesNear 8 nextX (Obstacle.y obs) (Obstacle.width obs) (Obstacle.height obs))
            statics in
  let collisionY :=
    existsb (boxesNear 8 (Obstacle.x obs) nextY (Obstacle.width obs) (Obstacle.height obs))
            statics in
  let v1 := fold_left (steerAway i obs nextX nextY) (combine (seq 0 (length all)) all) v in
  let '(v2, c') := bounceStatic rnd c collisionX collisionY v1 in
  let v3 := bounceWalls obs canvasWidth canvasHeight v2 in
  let v4 := limitSpeed v3 in
  (Obstacle.mk
     (clamp 0 (canvasWidth - Obstacle.width obs) (Obstacle.x obs + x v4))
     (clamp 0 (canvasHeight - Obstacle.height obs) (Obstacle.y obs + y v4))
     (Obstacle.width obs) (Obstacle.height obs) (Obstacle.type obs) (Some v4),
   c').

Definition updateObstacle (rnd : Random) (canvasWidth canvasHeight : float)
    (acc : list Obstacle * nat) (i : nat) : list Obstacle * nat :=
  let '(all, c) := acc in
  match nth_error all i with
  | Some obs =>
      match Obstacle.type obs, Obstacle.velocity obs with
      | dynamic, Some v =>
          let '(obs', c') := moveDynamic rnd canvasWidth canvasHeight all i obs v c in
          (replaceNth i obs' all, c')
      | _, _ => acc
      end
  | None => acc
  end.

Definition updateObstacles (rnd : Random) (canvasWidth canvasHeight : float)
    (all : list Obstacle) (c : nat) : list Obstacle * nat :=
  fold_left (updateObstacle rnd canvasWidth canvasHeight) (seq 0 (length all)) (all, c).

End Binary64.

(** * Specification predicates *)

Section Predicates.
Context {M : MathLib}.

(** What one reading can be: a miss at the full range, or a hit at a
    marching step. *)
Definition readingShape (drone : Vec2) (a : Q) (ray : LidarRay) : Prop :=
  angle ray = a /\
  ((hit ray = false /\ distance ray = LIDAR_RANGE /\ hitPoint ray = None) \/
   (hit ray = true /\
    exists k : nat, (k < marchSteps)%nat /\
      distance ray = marchDistance k /\
      hitPoint ray = Some {| x := x drone + cos a * marchDistance k;
                             y := y drone + sin a * marchDistance k |})).

(** The parent of every node but the root is an earlier node. *)
Definition parentsBelow (tree : list TreeNode) : Prop :=
  forall i, (i < length tree)%nat ->
    let p := parent (nth i tree (rootNode origin)) in
    p = (-1)%Z \/ (0 <= p < Z.of_nat i)%Z.

(** What the loop keeps: the tree has one node more than there are edges,
    the parents are earlier nodes, and every edge has passed the
    line-of-sight test. *)
Definition treeInvariant (obstacles : list Obstacle) (tree : list TreeNode)
    (treeEdges : list TreeEdge) : Prop :=
  length tree = S (length treeEdges) /\
  parentsBelow tree /\
  Forall (fun e => hasLineOfSight (from e) (to e) obstacles = true) treeEdges.

(** The end point of an edge is at least one step away from the goal. *)
Definition farFromGoal (goal : Vec2) (e : TreeEdge) : Prop :=
  stepSize <= hypot (x (to e) - x goal) (y (to e) - y goal).

(** The octile form on two non-negative differences. *)
Definition octile (c a b : Q) : Q := Math_max a b + (c - 1) * Math_min a b.

(** The rectangle of the obstacle lies inside the canvas. *)
Definition insideCanvas (canvasWidth canvasHeight : Q) (o : Obstacle) : Prop :=
  0 <= Obstacle.x o /\ Obstacle.x o + Obstacle.width o <= canvasWidth /\
  0 <= Obstacle.y o /\ Obstacle.y o + Obstacle.height o <= canvasHeight.

(** The rounding allowed to a speed: a relative tolerance on its square. *)
Definition speedTolerance : Q := 1 # 1000000000000.

(** What is asked of [Math.sqrt]: its value is not negative, and its
    square is short of the argument by at most the tolerance.  A correctly
    rounded square root has both; its square can be below the argument. *)
Definition sqrtRounded : Prop :=
  forall a : Q, 0 <= a -> 0 <= sqrt a /\ a <= sqrt a * sqrt a * (1 + speedTolerance).

(** The speed of the obstacle is at most the maximum speed, on the squares
    and up to the tolerance. *)
Definition nearMaxSpeed (o : Obstacle) : Prop :=
  match Obstacle.velocity o with
  | Some v => x v * x v + y v * y v
              <= obstacleMaxSpeed * obstacleMaxSpeed * (1 + speedTolerance)
  | None => True
  end.

(** A dynamic obstacle as the generator makes it: it has a velocity and
    is not larger than the canvas. *)
Definition wellFormed (canvasWidth canvasHeight : Q) (o : Obstacle) : Prop :=
  Obstacle.type o = dynamic ->
  Obstacle.velocity o <> None /\
  Obstacle.width o <= canvasWidth /\ Obstacle.height o <= canvasHeight.

(** What holds of a dynamic obstacle after its update. *)
Definition contained (canvasWidth canvasHeight : Q) (o : Obstacle) : Prop :=
  Obstacle.type o = dynamic ->
  insideCanvas canvasWidth canvasHeight o /\ nearMaxSpeed o.

(** The rounding allowed to a coordinate of the drone after its move on a
    canvas of the extent [span]: a coordinate is at most [span + 2 * speed]
    in size, and a sum is rounded by less than [10 ^ -15] of its size. *)
Definition positionTolerance (span speed : Q) : Q :=
  (span + 2 * speed) * (1 # 1000000000000000).

(** The columns and rows of the largest grid considered; the grid of the
    canvas of 700 by 400 has 47 columns and 27 rows. *)
Definition gridSpan : Z := 64.

(** The rounding allowed to the heuristic in such a grid. *)
Definition heuristicTolerance : Q := 1 # (2 ^ 46).

(** The coordinates of the grid and the differences of two of them. *)
Definition coordinates : list Z := map Z.of_nat (seq 0 (Z.to_nat gridSpan)).

Definition differences : list Z :=
  map (fun n => Z.of_nat n - gridSpan + 1)%Z (seq 0 (Z.to_nat (2 * gridSpan - 1))).

(** The binary64 difference of two coordinates is their difference. *)
Definition differenceExact (a b : Z) : bool :=
  PrimFloat.Leibniz.eqb (PrimFloat.sub (Binary64.ofZ a) (Binary64.ofZ b))
                        (Binary64.ofZ (a - b)).

(** The binary64 heuristic at the differences [dx] and [dy] is above the
    exact one by at most the tolerance. *)
Definition nearExact (dx dy : Z) : bool :=
  match Binary64.toQ (Binary64.heuristic (dx, dy) (0, 0)%Z) with
  | Some h => Qle_bool h (heuristic (dx, dy) (0, 0)%Z + heuristicTolerance)
  | None => false
  end.

(** Every segment of the polyline passes the line-of-sight test: each of
    its samples lies outside every obstacle's bound inflated by the drone
    radius. *)
Fixpoint pathClear (obstacles : list Obstacle) (p : list Vec2) : bool :=
  match p with
  | a :: (b :: _) as rest => hasLineOfSight a b obstacles && pathClear obstacles rest
  | _ => true
  end.

(** The point of a grid cell. *)
Definition cellPoint (c : Cell) : Vec2 :=
  {| x := inject_Z (fst c) * GRID_SIZE; y := inject_Z (snd c) * GRID_SIZE |}.

Definition adjacent (a b : Cell) : Prop :=
  (Z.abs (fst b - fst a) <= 1 /\ Z.abs (snd b - snd a) <= 1)%Z.

(** A raw path of the grid planner, as cells: each cell after the first
    is next to the one before it and is not occupied. *)
Fixpoint gridPath (obstacles : list Obstacle) (cells : list Cell) : Prop :=
  match cells with
  | a :: (b :: _) as rest =>
      adjacent a b /\ occupied obstacles b = false /\ gridPath obstacles rest
  | _ => True
  end.

(** The cells from the root of the search to [node]. *)
Fixpoint cellsOf (node : PathNode) : list Cell :=
  match nparent node with
  | None => [(nx node, ny node)]
  | Some p => cellsOf p ++ [(nx node, ny node)]
  end.

Definition cellOf (node : PathNode) : Cell := (nx node, ny node).

Definition inGrid (gridW gridH : Z) (c : Cell) : Prop :=
  (0 <= fst c < gridW /\ 0 <= snd c < gridH)%Z.

(** The cells of the grid. *)
Definition gridCells (gridW gridH : Z) : list Cell :=
  list_prod (map Z.of_nat (seq 0 (Z.to_nat gridW))) (map Z.of_nat (seq 0 (Z.to_nat gridH))).

(** What the search keeps of its two sets: the open cells are distinct
    and not closed, and every open cell is the start cell or a cell of the
    grid. *)
Definition openInvariant (gridW gridH : Z) (startCell : Cell) (closedSet : list Cell)
    (openSet : list PathNode) : Prop :=
  NoDup (map cellOf openSet) /\
  forall c, In c (map cellOf openSet) ->
    ~ In c closedSet /\ (c = startCell \/ inGrid gridW gridH c).

(** The raw indices that greedy shortcutting visits after [current]: each
    one lies beyond the one before it, no raw point beyond it has line of
    sight from the one before it, and the loop ends at the last raw point. *)
Fixpoint greedyChain (path : list Vec2) (obstacles : list Obstacle) (current : nat)
    (idxs : list nat) : Prop :=
  match idxs with
  | [] => (length path - 1 <= current)%nat
  | furthest :: rest =>
      (current < furthest < length path)%nat /\
      (forall m, (furthest < m < length path)%nat ->
         hasLineOfSight (nth current path origin) (nth m path origin) obstacles = false) /\
      greedyChain path obstacles furthest rest
  end.

(** No waypoint has line of sight to a waypoint beyond its successor. *)
Definition noShortcut (obstacles : list Obstacle) (p : list Vec2) : Prop :=
  forall j m, (j + 2 <= m < length p)%nat ->
    hasLineOfSight (nth j p origin) (nth m p origin) obstacles = false.

(** The tree as the planner grows it from [start]: node [0] is the root at
    [start]; every later node has an earlier node as its parent, has passed
    the line-of-sight test from it and lies inside the canvas; and the edges
    list, in order, the parent's point and the point of each later node. *)
Definition grownFrom (start : Vec2) (obstacles : list Obstacle) (canvasWidth canvasHeight : Q)
    (tree : list TreeNode) (treeEdges : list TreeEdge) : Prop :=
  nth_error tree 0 = Some (rootNode start) /\
  length tree = S (length treeEdges) /\
  forall i node, nth_error tree (S i) = Some node ->
    exists p, (p <= i)%nat /\ parent node = Z.of_nat p /\
      nth_error treeEdges i
        = Some {| from := point (nth p tree (rootNode origin)); to := point node |} /\
      hasLineOfSight (point (nth p tree (rootNode origin))) (point node) obstacles = true /\
      outOfCanvas (point node) canvasWidth canvasHeight = false.

(** The cells of a search node's chain begin with the start cell, and the
    later ones are free cells of the grid. *)
Definition routeFrom (obstacles : list Obstacle) (gridW gridH : Z) (startCell : Cell)
    (n : PathNode) : Prop :=
  exists rest,
    cellsOf n = startCell :: rest /\
    Forall (fun c => inGrid gridW gridH c /\ occupied obstacles c = false) rest.

(** The two drones differ at most in velocity, target heading and state. *)
Definition samePose (d d' : Drone) : Prop :=
  Drone.x d' = Drone.x d /\ Drone.y d' = Drone.y d /\
  Drone.heading d' = Drone.heading d /\ Drone.rotorSpeed d' = Drone.rotorSpeed d /\
  Drone.rotorAngle d' = Drone.rotorAngle d /\ Drone.altitude d' = Drone.altitude d /\
  Drone.battery d' = Drone.battery d.

(** What an update leaves of an obstacle: its size and its type, and all
    of it when it is static or has no velocity. *)
Definition keepsShape (o o' : Obstacle) : Prop :=
  Obstacle.width o' = Obstacle.width o /\ Obstacle.height o' = Obstacle.height o /\
  Obstacle.type o' = Obstacle.type o /\
  (Obstacle.type o = static \/ Obstacle.velocity o = None -> o' = o).


(** A static obstacle as the generator pushes it onto [obstacles]: its
    size is drawn from the range of one of the types, its corner is clamped
    to the margin, and it is not within [minGap] of an obstacle placed
    before. *)
Definition placedStatic (rnd : Random) (canvasWidth canvasHeight : Q)
    (obstacles : list Obstacle) (o : Obstacle) : Prop :=
  exists (typeInfo : StaticInfo) (rw rh px py : Q),
    In typeInfo staticTypes /\
    (exists i, rw = rnd i) /\ (exists i, rh = rnd i) /\
    let w := minW typeInfo + rw * (maxW typeInfo - minW typeInfo) in
    let h := minH typeInfo + rh * (maxH typeInfo - minH typeInfo) in
    let finalX := Math_max margin (Math_min (canvasWidth - margin - w) px) in
    let finalY := Math_max margin (Math_min (canvasHeight - margin - h) py) in
    o = Obstacle.mk finalX finalY w h static None /\
    tooNear finalX finalY w h obstacles = false.

(** A UAV as the generator pushes it onto [obstacles]. *)
Definition placedDynamic (rnd : Random) (canvasWidth canvasHeight : Q)
    (obstacles : list Obstacle) (o : Obstacle) : Prop :=
  exists (rx ry : Q) (v : Vec2),
    (exists i, rx = rnd i) /\ (exists i, ry = rnd i) /\
    let px := margin + rx * (canvasWidth - 2 * margin - uavSize) in
    let py := margin + ry * (canvasHeight - 2 * margin - uavSize) in
    o = Obstacle.mk px py uavSize uavSize dynamic (Some v) /\
    tooNear px py uavSize uavSize obstacles = false /\
    Qltb px 120 && Qltb (Math_abs (py - canvasHeight / 2)) 80 = false.

(** The fields that the generator can build, with the number of their
    static obstacles and of their UAVs: the static obstacles come first,
    each pushed as [placedStatic] says, and the UAVs after them. *)
Inductive generated (rnd : Random) (canvasWidth canvasHeight : Q)
    : nat -> nat -> list Obstacle -> Prop :=
| generated_nil : generated rnd canvasWidth canvasHeight 0 0 []
| generated_static (n : nat) (obstacles : list Obstacle) (o : Obstacle) :
    generated rnd canvasWidth canvasHeight n 0 obstacles ->
    placedStatic rnd canvasWidth canvasHeight obstacles o ->
    generated rnd canvasWidth canvasHeight (S n) 0 (obstacles ++ [o])
| generated_dynamic (n m : nat) (obstacles : list Obstacle) (o : Obstacle) :
    generated rnd canvasWidth canvasHeight n m obstacles ->
    placedDynamic rnd canvasWidth canvasHeight obstacles o ->
    generated rnd canvasWidth canvasHeight n (S m) (obstacles ++ [o]).

(** The box lies inside the canvas without its margin. *)
Definition withinMargin (canvasWidth canvasHeight : Q) (o : Obstacle) : Prop :=
  margin <= Obstacle.x o /\ Obstacle.x o + Obstacle.width o <= canvasWidth - margin /\
  margin <= Obstacle.y o /\ Obstacle.y o + Obstacle.height o <= canvasHeight - margin.

(** The point of a ray at the marching step [k]. *)
Definition samplePoint (drone : Vec2) (a : Q) (k : nat) : Vec2 :=
  {| x := x drone + cos a * marchDistance k; y := y drone + sin a * marchDistance k |}.

(** The point lies outside the canvas or strictly inside an obstacle. *)
Definition blocked (obstacles : list Obstacle) (canvasWidth canvasHeight : Q) (p : Vec2)
    : bool :=
  outOfCanvas p canvasWidth canvasHeight || existsb (insideObstacle (x p) (y p)) obstacles.

(** The reading is a miss and no sample of the ray from step [k] on is
    blocked, or it is a hit at the first blocked sample from step [k] on. *)
Definition firstBlocked (drone : Vec2) (a : Q) (obstacles : list Obstacle)
    (canvasWidth canvasHeight : Q) (k n : nat) (ray : LidarRay) : Prop :=
  (hit ray = false /\ distance ray = LIDAR_RANGE /\ hitPoint ray = None /\
   forall j, (k <= j < k + n)%nat ->
     blocked obstacles canvasWidth canvasHeight (samplePoint drone a j) = false) \/
  (exists j, (k <= j < k + n)%nat /\
     hit ray = true /\ distance ray = marchDistance j /\
     hitPoint ray = Some (samplePoint drone a j) /\
     blocked obstacles canvasWidth canvasHeight (samplePoint drone a j) = true /\
     forall i, (k <= i < j)%nat ->
       blocked obstacles canvasWidth canvasHeight (samplePoint drone a i) = false).

(** The distance of [potentialAt] from a point to the obstacle. *)
Definition fieldDistance (px py : Q) (obs : Obstacle) : Q :=
  hypot (px - centerX obs) (py - centerY obs)
  - Math_max (Obstacle.width obs) (Obstacle.height obs) / 2.

End Predicates.

(** * Scenes

    Concrete states on the 700 by 400 canvas of the page, at which the
    properties below are evaluated with the reference library. *)

Definition canvasW : Q := 700.
Definition canvasH : Q := 400.

(** A building straight ahead of the start position [(50, 200)]. *)
Definition buildingAhead : Obstacle :=
  Obstacle.mk 70 190 25 20 static None.

Definition droneAt (px py : Q) (s : NavState) : Drone :=
  Drone.mk px py 0 0 0 0 (3 # 10) 0 1 100 s.

Definition noStats : Stats :=
  {| pathLength := 0; nodesExplored := 0; distanceToGoal := 0;
     statBattery := 100; statState := idle |}.

Definition scene (d : Drone) (goal : option Vec2) (route : list Vec2)
    (obs : list Obstacle) : SimState :=
  {| drone := d; target := goal; path := route; currentPathIndex := 0;
     obstacles := obs; lidarData := []; potentialField := []; rrtTree := [];
     stats := noStats; draws := 0 |}.

(** A stream of draws that are all one half. *)
Definition halves : Random := fun _ => 1 # 2.

(** The drone flies towards the building with its goal 15 to the side. *)
Definition sceneGoalBeside : SimState :=
  scene (droneAt 50 200 navigating) (Some {| x := 50; y := 215 |})
        [ {| x := 50; y := 200 |}; {| x := 50; y := 215 |} ] [buildingAhead].

(** The drone flies towards the building with its goal far behind it. *)
Definition sceneGoalFar : SimState :=
  scene (droneAt 50 200 navigating) (Some {| x := 600; y := 200 |})
        [ {| x := 50; y := 200 |}; {| x := 50; y := 100 |}; {| x := 600; y := 100 |};
          {| x := 600; y := 200 |} ] [buildingAhead].

(** The drone is avoiding in the open middle of the canvas. *)
Definition sceneInTheOpen : SimState :=
  scene (droneAt 350 200 avoiding) (Some {| x := 600; y := 200 |})
        [ {| x := 350; y := 200 |}; {| x := 600; y := 200 |} ] [buildingAhead].

(** A goal at [(600, 200)] inside a closed ring of four walls, with the
    building in front of the start position. *)
Definition ringOfWalls : list Obstacle :=
  [ buildingAhead;
    Obstacle.mk 560 160 10 80 static None;
    Obstacle.mk 630 160 10 80 static None;
    Obstacle.mk 560 160 80 10 static None;
    Obstacle.mk 560 230 80 10 static None ].

Definition enclosedGoal : Vec2 := {| x := 600; y := 200 |}.

Definition startPosition : Vec2 := {| x := 50; y := 200 |}.

(** The idle drone at the start position, before a click on the goal. *)
Definition sceneBeforeClick : SimState :=
  scene (droneAt 50 200 idle) None [] ringOfWalls.

(** A tree beside the straight line from the start position to the right,
    and a goal 15 beyond and 15 above the first point the planner adds. *)
Definition treeBeside : Obstacle := Obstacle.mk 60 172 14 14 static None.

Definition goalBehindTree : Vec2 := {| x := 90; y := 185 |}.

Definition firstStep : Vec2 := {| x := 75; y := 200 |}.

Definition sceneTreeBeside : SimState :=
  scene (droneAt 50 200 idle) None [] [treeBeside].

(** A walk on the grid by moves of [directions], and its cost. *)
Definition moveCell (c : Cell) (d : Direction) : Cell :=
  (fst c + ddx d, snd c + ddy d)%Z.

Definition walk (a : Cell) (moves : list Direction) : Cell :=
  fold_left moveCell moves a.

Definition walkCost (moves : list Direction) : Q :=
  fold_right (fun d acc => cost d + acc) 0 moves.

(** A walk of two straight and two diagonal moves. *)
Definition sampleWalk : list Direction :=
  [ {| ddx := 1; ddy := 0; cost := 1 |};
    {| ddx := 1; ddy := 1; cost := Math_SQRT2 |};
    {| ddx := 0; ddy := 1; cost := 1 |};
    {| ddx := 1; ddy := 1; cost := Math_SQRT2 |} ].

(** A walk from [(0, 0)] to [(1, 8)]: one diagonal and seven straight moves. *)
Definition walkTo18 : list Direction :=
  {| ddx := 1; ddy := 1; cost := Math_SQRT2 |}
  :: repeat {| ddx := 0; ddy := 1; cost := 1 |} 7.

(** The binary64 value of the heuristic from [(0, 0)] to [(1, 8)]. *)
Definition heuristicTo18 : Q := 2368390566507453 # (2 ^ 48).

(** Scenes in binary64: a walk from [(0, 0)] to [(2, 3)], a UAV alone on
    the canvas with the velocity [(0.01, 0.83)], and a stream of draws. *)
Module Binary64Scenes.
Import Floats Binary64.
#[local] Set Warnings "-inexact-float".

Definition threeMoves : list Direction :=
  [ {| ddx := 1; ddy := 1; cost := Math_SQRT2 |};
    {| ddx := 0; ddy := 1; cost := 1 |};
    {| ddx := 1; ddy := 1; cost := Math_SQRT2 |} ].

Definition loneUav : Obstacle :=
  Obstacle.mk 100 100 24 24 dynamic (Some {| x := 0.01; y := 0.83 |}).

(** The UAV after its update: the velocity is
    [(0.0096378547318186989, 0.79994194274095198)]. *)
Definition rescaled : Vec2 :=
  {| x := 0x1.3bd02f7039ad5p-7; y := 0x1.9991fd858acccp-1 |}.

Definition loneUavMoved : Obstacle :=
  Obstacle.mk 0x1.9009de817b81dp+6 0x1.933323fb0b15ap+6 24 24 dynamic (Some rescaled).

Definition halves : Random := fun _ => 0.5%float.

Definition canvasW : float := 700.
Definition canvasH : float := 400.

End Binary64Scenes.

(** A square obstacle with its centre at [(10, 10)], and a drone on the
    centre line at the distance [delta] from its inflated circle. *)
Definition squareObstacle : Obstacle := Obstacle.mk 0 0 20 20 static None.

Definition droneNear (delta : Q) : Vec2 := {| x := 32 + delta; y := 10 |}.

Definition goalBeyond (delta : Q) : Vec2 := {| x := 132 + delta; y := 10 |}.

(** Two drones of the traffic next to each other, one of them at the left
    border, and the building. *)
Definition uavAtBorder : Obstacle :=
  Obstacle.mk 0 100 24 24 dynamic (Some {| x := - (3 # 10); y := 2 # 10 |}).

Definition uavBeside : Obstacle :=
  Obstacle.mk 30 110 24 24 dynamic (Some {| x := 3 # 10; y := - (3 # 10) |}).

Definition sceneTraffic : SimState :=
  scene (droneAt 350 200 idle) None [] [uavAtBorder; buildingAhead; uavBeside].

(** A raw path around the building, as cells. *)
Definition cellsAroundBuilding : list Cell :=
  [ (2, 13); (2, 12); (2, 11); (3, 10); (4, 10); (5, 10) ]%Z.

(** A raw path around the building: up, across and down again. *)
Definition detour : list Vec2 :=
  [ {| x := 50; y := 200 |}; {| x := 50; y := 150 |}; {| x := 120; y := 150 |};
    {| x := 120; y := 200 |} ].

(** A goal beyond the building, and the path the grid planner returns to
    it from the start position. *)
Definition goalPastBuilding : Vec2 := {| x := 150; y := 200 |}.

Definition routePastBuilding : list Vec2 :=
  [ {| x := 45; y := 195 |}; {| x := 60; y := 240 |}; {| x := 135; y := 210 |};
    {| x := 150; y := 195 |} ].

(** A small canvas with one container below the goal: the goal cell is
    occupied on the grid, but the straight line to the goal is clear. *)
Definition containerBelow : Obstacle := Obstacle.mk 60 40 10 10 static None.

Definition goalAboveContainer : Vec2 := {| x := 60; y := 15 |}.

Definition sceneSmallCanvas : SimState :=
  scene (droneAt 15 15 idle) None [] [containerBelow].

(** * Properties *)

(** ** Comparisons *)

Lemma Qltb_lt (a b : Q) : Qltb a b = true <-> a < b.
Proof.
  unfold Qltb. rewrite negb_true_iff, <- not_true_iff_false, Qle_bool_iff.
  split; [apply Qnot_le_lt | apply Qlt_not_le].
Qed.

Lemma Qltb_ge (a b : Q) : Qltb a b = false <-> b <= a.
Proof.
  unfold Qltb. rewrite negb_false_iff. apply Qle_bool_iff.
Qed.

Lemma Qleb_le (a b : Q) : Qleb a b = true <-> a <= b.
Proof. apply Qle_bool_iff. Qed.

Lemma Qleb_gt (a b : Q) : Qleb a b = false <-> b < a.
Proof.
  unfold Qleb. rewrite <- not_true_iff_false, Qle_bool_iff.
  split; [apply Qnot_le_lt | apply Qlt_not_le].
Qed.

Lemma Math_max_spec (a b : Q) :
  (a < b /\ Math_max a b = b) \/ (b <= a /\ Math_max a b = a).
Proof.
  unfold Math_max. destruct (Qltb a b) eqn:E.
  - left. split; [now apply Qltb_lt | reflexivity].
  - right. split; [now apply Qltb_ge | reflexivity].
Qed.

Lemma Math_min_spec (a b : Q) :
  (b < a /\ Math_min a b = b) \/ (a <= b /\ Math_min a b = a).
Proof.
  unfold Math_min. destruct (Qltb b a) eqn:E.
  - left. split; [now apply Qltb_lt | reflexivity].
  - right. split; [now apply Qltb_ge | reflexivity].
Qed.

Lemma inject_nat_le (k n : nat) : (k <= n)%nat -> inject_Z (Z.of_nat k) <= inject_Z (Z.of_nat n).
Proof. intros Hk. rewrite <- Zle_Qle. lia. Qed.

(** ** The LiDAR sweep *)

Section LidarProperties.
Context {M : MathLib}.

Lemma march_shape (drone : Vec2) (a : Q) (obstacles : list Obstacle) (W H : Q) (n k : nat) :
  (n + k = marchSteps)%nat ->
  readingShape drone a (march drone a obstacles W H n k).
Proof.
  revert k. induction n as [|n IH]; intros k Hk; simpl.
  - split; [reflexivity | left; auto].
  - destruct (Qltb _ 0 || _ || _ || _).
    { split; [reflexivity | right]. split; [reflexivity|].
      exists k. repeat split; try reflexivity; lia. }
    destruct (existsb _ obstacles).
    { split; [reflexivity | right]. split; [reflexivity|].
      exists k. repeat split; try reflexivity; lia. }
    apply IH. lia.
Qed.

Lemma marchDistance_bounds (k : nat) :
  (k < marchSteps)%nat -> 5 <= marchDistance k /\ marchDistance k < LIDAR_RANGE.
Proof.
  intros Hk. unfold marchDistance, LIDAR_RANGE, marchSteps in *.
  assert (H0 : 0 <= inject_Z (Z.of_nat k)) by (apply (inject_nat_le 0 k); lia).
  assert (H1 : inject_Z (Z.of_nat k) <= 38) by (apply (inject_nat_le k 38); lia).
  split; lra.
Qed.

(** An obstacle that contains none of the marching samples of a ray, for
    one whose surface along the ray lies wholly below distance 5 or between
    two samples, leaves the reading of the ray as it is. *)
Lemma march_misses (drone : Vec2) (a : Q) (obs : Obstacle) (obstacles : list Obstacle)
    (W H : Q) (n k : nat) :
  (forall j, (k <= j < k + n)%nat ->
     insideObstacle (x drone + cos a * marchDistance j)
                    (y drone + sin a * marchDistance j) obs = false) ->
  march drone a (obs :: obstacles) W H n k = march drone a obstacles W H n k.
Proof.
  revert k. induction n as [|n IH]; intros k Hout; simpl; [reflexivity|].
  destruct (Qltb _ 0 || _ || _ || _); [reflexivity|].
  rewrite (Hout k) by lia. cbn [orb].
  destruct (existsb _ obstacles); [reflexivity|].
  apply IH. intros j Hj. apply Hout. lia.
Qed.

Lemma Forall2_map_self {A B} (P : A -> B -> Prop) (fn : A -> B) (l : list A) :
  (forall a, P a (fn a)) -> Forall2 P l (map fn l).
Proof. intros HP. induction l; simpl; constructor; auto. Qed.


End LidarProperties.

(** ** The controller *)

Section ControllerProperties.
Context {M : MathLib}.

Lemma senseDanger_frame (closest : Q) (d : Drone) :
  Drone.x (senseDanger closest d) = Drone.x d /\
  Drone.y (senseDanger closest d) = Drone.y d /\
  isActive (Drone.state (senseDanger closest d)) = isActive (Drone.state d).
Proof.
  unfold senseDanger. destruct (Drone.state d) eqn:E; rewrite ?E; auto.
  destruct (Qltb closest SAFE_DISTANCE); simpl; rewrite ?E; auto.
Qed.

Lemma senseDanger_state (closest : Q) (d : Drone) :
  Drone.state (senseDanger closest d) =
  match Drone.state d with
  | navigating => if Qltb closest SAFE_DISTANCE then avoiding else navigating
  | s => s
  end.
Proof.
  unfold senseDanger. destruct (Drone.state d) eqn:E; rewrite ?E; auto.
  destruct (Qltb closest SAFE_DISTANCE); simpl; rewrite ?E; auto.
Qed.

Lemma follow_frame (algorithmMode : Algorithm) (speed : Q) (st : SimState) :
  let st' := follow algorithmMode speed st in
  target st' = target st /\ path st' = path st /\ lidarData st' = lidarData st /\
  Drone.x (drone st') = Drone.x (drone st) /\
  Drone.y (drone st') = Drone.y (drone st) /\
  Drone.state (drone st') = Drone.state (drone st).
Proof.
  unfold follow. destruct algorithmMode.
  1,2: destruct (nth_error (path st) (currentPathIndex st)); simpl; repeat split.
  destruct (target st) eqn:E; simpl; repeat split; auto.
Qed.

Lemma avoidRay_frame (d : Drone) (ray : LidarRay) :
  Drone.x (avoidRay d ray) = Drone.x d /\
  Drone.y (avoidRay d ray) = Drone.y d /\
  Drone.state (avoidRay d ray) = Drone.state d.
Proof. unfold avoidRay. destruct (Qltb _ _); simpl; auto. Qed.

Lemma avoidRays_frame (lidar : list LidarRay) (d : Drone) :
  Drone.x (fold_left avoidRay lidar d) = Drone.x d /\
  Drone.y (fold_left avoidRay lidar d) = Drone.y d /\
  Drone.state (fold_left avoidRay lidar d) = Drone.state d.
Proof.
  revert d. induction lidar as [|ray rest IH]; intros d; simpl; auto.
  destruct (IH (avoidRay d ray)) as [Hx [Hy Hs]].
  destruct (avoidRay_frame d ray) as [Hx' [Hy' Hs']].
  rewrite Hx, Hy, Hs. auto.
Qed.

Lemma avoid_frame (closest : Q) (lidar : list LidarRay) (d : Drone) :
  Drone.x (avoid closest lidar d) = Drone.x d /\
  Drone.y (avoid closest lidar d) = Drone.y d.
Proof.
  unfold avoid. destruct (Drone.state d); auto.
  destruct (avoidRays_frame lidar d) as [Hx [Hy _]].
  destruct (Qltb _ closest); simpl; auto.
Qed.

Lemma avoid_state (closest : Q) (lidar : list LidarRay) (d : Drone) :
  Drone.state (avoid closest lidar d) =
  match Drone.state d with
  | avoiding => if Qltb (SAFE_DISTANCE * (12 # 10)) closest then navigating else avoiding
  | s => s
  end.
Proof.
  unfold avoid. destruct (Drone.state d) eqn:E; rewrite ?E; auto.
  destruct (avoidRays_frame lidar d) as [_ [_ Hs]].
  destruct (Qltb _ closest); simpl; congruence.
Qed.

Lemma physics_state (speed W H : Q) (d : Drone) :
  Drone.state (physics speed W H d) = Drone.state d.
Proof. reflexivity. Qed.

Lemma checkArrival_lidar (st : SimState) : lidarData (checkArrival st) = lidarData st.
Proof. unfold checkArrival. destruct (target st); reflexivity. Qed.

Lemma navigate_lidar (algorithmMode : Algorithm) (speed closest : Q) (st : SimState) :
  lidarData (navigate algorithmMode speed closest st) = lidarData st.
Proof.
  unfold navigate. destruct (isActive _); [|reflexivity].
  rewrite checkArrival_lidar. unfold withDrone. cbn [lidarData].
  apply (follow_frame algorithmMode speed st).
Qed.

(** The block under [navigating || avoiding]: what it leaves as state,
    target and path. *)
Lemma navigate_controller (algorithmMode : Algorithm) (speed closest : Q) (st : SimState) :
  let st' := navigate algorithmMode speed closest st in
  let s1 := Drone.state (drone st) in
  let s2 := match s1 with
            | avoiding => if Qltb (SAFE_DISTANCE * (12 # 10)) closest
                          then navigating else avoiding
            | s => s
            end in
  let arrived :=
    isActive s1 &&
    match target st with
    | Some goal => Qltb (hypot (x goal - Drone.x (drone st)) (y goal - Drone.y (drone st)))
                        arrivalThreshold
    | None => false
    end in
  Drone.state (drone st') = (if arrived then idle else s2) /\
  target st' = (if arrived then None else target st) /\
  path st' = (if arrived then [] else path st).
Proof.
  cbv zeta. unfold navigate.
  destruct (isActive (Drone.state (drone st))) eqn:Hact; cbn [andb].
  2:{ repeat split. destruct (Drone.state (drone st)); try discriminate; reflexivity. }
  destruct (follow_frame algorithmMode speed st) as [Ht [Hp [Hli [Hx [Hy Hs]]]]].
  set (st2 := follow algorithmMode speed st) in *.
  destruct (avoid_frame closest (lidarData st2) (drone st2)) as [Hax Hay].
  pose proof (avoid_state closest (lidarData st2) (drone st2)) as Has.
  unfold checkArrival, withDrone. cbn [target drone path].
  rewrite Ht.
  destruct (target st) as [goal|] eqn:Htg.
  - cbn [drone target path]. rewrite Hax, Hay, Hx, Hy.
    destruct (Qltb _ arrivalThreshold).
    + repeat split.
    + rewrite Has, Hs, Hp. repeat split.
      destruct (Drone.state (drone st)); reflexivity.
  - cbn [drone target path]. rewrite Has, Hs, ?Ht, ?Hp. repeat split; auto.
    destruct (Drone.state (drone st)); reflexivity.
Qed.

(** The state of the drone, the target and the path after a tick, from
    the sweep of that tick: the three transitions in the order of the
    source. *)
Lemma animate_controller (algorithmMode : Algorithm) (speed : Q) (rnd : Random)
    (W H : Q) (st : SimState) :
  let st' := animate algorithmMode speed rnd W H st in
  let closest := closestObstacle (lidarData st') in
  let s1 := match Drone.state (drone st) with
            | navigating => if Qltb closest SAFE_DISTANCE then avoiding else navigating
            | s => s
            end in
  let s2 := match s1 with
            | avoiding => if Qltb (SAFE_DISTANCE * (12 # 10)) closest
                          then navigating else avoiding
            | s => s
            end in
  let arrived :=
    isActive s1 &&
    match target st with
    | Some goal => Qltb (hypot (x goal - Drone.x (drone st)) (y goal - Drone.y (drone st)))
                        arrivalThreshold
    | None => false
    end in
  Drone.state (drone st') = (if arrived then idle else s2) /\
  target st' = (if arrived then None else target st) /\
  path st' = (if arrived then [] else path st).
Proof.
  unfold animate.
  destruct (updateObstacles rnd W H (obstacles st) (draws st)) as [obstacles' c'].
  set (lidar := simulateLidar _ _ _ _ _).
  set (st1 := Build_SimState (senseDanger _ _) _ _ _ _ _ _ _ _ _).
  cbv zeta. cbn [drone target path lidarData].
  rewrite navigate_lidar, physics_state.
  change (lidarData st1) with lidar.
  pose proof (navigate_controller algorithmMode speed (closestObstacle lidar) st1) as Hn.
  cbv zeta in Hn.
  change (drone st1) with (senseDanger (closestObstacle lidar) (drone st)) in Hn.
  change (target st1) with (target st) in Hn.
  change (path st1) with (path st) in Hn.
  destruct (senseDanger_frame (closestObstacle lidar) (drone st)) as [Hx1 [Hy1 _]].
  rewrite Hx1, Hy1, senseDanger_state in Hn.
  exact Hn.
Qed.

(** C7. In a tick that starts in [navigating] or [avoiding] with a goal
    closer than the arrival threshold, the drone becomes [idle] and the
    target and the path are cleared in that tick. *)
Theorem arrival_clears_goal (algorithmMode : Algorithm) (speed : Q) (rnd : Random)
    (W H : Q) (st : SimState) (goal : Vec2) :
  Drone.state (drone st) = navigating \/ Drone.state (drone st) = avoiding ->
  target st = Some goal ->
  hypot (x goal - Drone.x (drone st)) (y goal - Drone.y (drone st)) < arrivalThreshold ->
  let st' := animate algorithmMode speed rnd W H st in
  Drone.state (drone st') = idle /\ target st' = None /\ path st' = [].
Proof.
  intros Hs Ht Hd.
  pose proof (animate_controller algorithmMode speed rnd W H st) as Hc.
  cbv zeta in Hc. rewrite Ht in Hc. apply Qltb_lt in Hd. rewrite Hd in Hc.
  destruct Hs as [Hs | Hs]; rewrite Hs in Hc.
  - destruct (Qltb (closestObstacle _) SAFE_DISTANCE) in Hc; exact Hc.
  - exact Hc.
Qed.

(** C6, as the code has it. In a tick in which the drone does not arrive
    (no goal, or a goal at the arrival threshold or beyond): from
    [navigating] with the least distance of the sweep below the safe
    distance the state becomes [avoiding], and from [avoiding] with the
    least distance above 1.2 times the safe distance it becomes
    [navigating]. *)
Theorem avoidance_transitions (algorithmMode : Algorithm) (speed : Q) (rnd : Random)
    (W H : Q) (st : SimState) :
  let st' := animate algorithmMode speed rnd W H st in
  let closest := closestObstacle (lidarData st') in
  match target st with
  | Some goal =>
      arrivalThreshold <= hypot (x goal - Drone.x (drone st)) (y goal - Drone.y (drone st))
  | None => True
  end ->
  (Drone.state (drone st) = navigating -> closest < SAFE_DISTANCE ->
   Drone.state (drone st') = avoiding) /\
  (Drone.state (drone st) = avoiding -> SAFE_DISTANCE * (12 # 10) < closest ->
   Drone.state (drone st') = navigating).
Proof.
  intros st' closest Hfar.
  destruct (animate_controller algorithmMode speed rnd W H st) as [Hc _].
  fold st' closest in Hc.
  assert (Hna : match target st with
                | Some goal =>
                    Qltb (hypot (x goal - Drone.x (drone st)) (y goal - Drone.y (drone st)))
                         arrivalThreshold
                | None => false
                end = false).
  { destruct (target st); [now apply Qltb_ge | reflexivity]. }
  rewrite Hna, andb_false_r in Hc.
  split; intros Hs Hd; rewrite Hs in Hc.
  - apply Qltb_lt in Hd. rewrite Hd in Hc.
    assert (Hn : Qltb (SAFE_DISTANCE * (12 # 10)) closest = false).
    { apply Qltb_ge. apply Qltb_lt in Hd. unfold SAFE_DISTANCE in *. lra. }
    now rewrite Hn in Hc.
  - apply Qltb_lt in Hd. now rewrite Hd in Hc.
Qed.

End ControllerProperties.

Lemma arrival_clears_goal_witness :
  let st' := animate astarMode (6 # 10) halves canvasW canvasH sceneGoalBeside in
  Drone.state (drone st') = idle /\ target st' = None /\ path st' = [].
Proof.
  apply (arrival_clears_goal (M := refMath)) with (goal := {| x := 50; y := 215 |}).
  - left. reflexivity.
  - reflexivity.
  - vm_compute. reflexivity.
Defined.

Lemma avoidance_transitions_witness :
  Drone.state (drone (animate astarMode (6 # 10) halves canvasW canvasH sceneGoalFar))
    = avoiding /\
  Drone.state (drone (animate astarMode (6 # 10) halves canvasW canvasH sceneInTheOpen))
    = navigating.
Proof.
  split.
  - apply (avoidance_transitions (M := refMath) astarMode (6 # 10) halves canvasW canvasH
                                 sceneGoalFar).
    + vm_compute. discriminate.
    + reflexivity.
    + vm_compute. reflexivity.
  - apply (avoidance_transitions (M := refMath) astarMode (6 # 10) halves canvasW canvasH
                                 sceneInTheOpen).
    + vm_compute. discriminate.
    + reflexivity.
    + vm_compute. reflexivity.
Defined.

(** C6 as stated fails: the drone is [navigating], the least distance of
    the sweep is below the safe distance, and the goal is 15 away; the tick
    ends in [idle], not in [avoiding]. *)
Lemma avoidance_preempted_by_arrival :
  let st' := animate (M := refMath) astarMode (6 # 10) halves canvasW canvasH
                     sceneGoalBeside in
  Drone.state (drone sceneGoalBeside) = navigating /\
  closestObstacle (lidarData st') < SAFE_DISTANCE /\
  Drone.state (drone st') <> avoiding.
Proof.
  cbv zeta. split; [reflexivity | split].
  - vm_compute. reflexivity.
  - vm_compute. discriminate.
Qed.

(** ** The tree planner *)

Section RrtProperties.
Context {M : MathLib}.

Lemma nearestFrom_bound (sample : Vec2) (nodes : list TreeNode) (idx best : nat)
    (dist : option Q) :
  (best < idx + length nodes)%nat ->
  (nearestFrom sample nodes idx best dist < idx + length nodes)%nat.
Proof.
  revert idx best dist. induction nodes as [|node rest IH]; intros idx best dist Hb; simpl.
  - simpl in Hb. lia.
  - simpl in Hb.
    destruct (match dist with None => true | Some nd => Qltb _ nd end).
    + specialize (IH (S idx) idx (Some (hypot (x (point node) - x sample)
                                              (y (point node) - y sample)))). lia.
    + specialize (IH (S idx) best dist). lia.
Qed.

Lemma nearestIndex_bound (sample : Vec2) (tree : list TreeNode) :
  tree <> [] -> (nearestIndex sample tree < length tree)%nat.
Proof.
  intros Hne. unfold nearestIndex.
  apply (nearestFrom_bound sample tree 0 0 None).
  destruct tree; [congruence | simpl; lia].
Qed.

Lemma parentsBelow_root (start : Vec2) : parentsBelow [rootNode start].
Proof.
  intros i Hi. simpl in Hi. assert (i = 0)%nat as -> by lia. left. reflexivity.
Qed.

Lemma parentsBelow_push (tree : list TreeNode) (p : Vec2) (idx : nat) :
  parentsBelow tree -> (idx < length tree)%nat ->
  parentsBelow (tree ++ [{| point := p; parent := Z.of_nat idx |}]).
Proof.
  intros Hok Hidx i Hi. rewrite length_app in Hi. simpl in Hi.
  destruct (Nat.lt_ge_cases i (length tree)) as [Hlt | Hge].
  - rewrite app_nth1 by exact Hlt. apply Hok, Hlt.
  - assert (i = length tree) as -> by lia.
    rewrite app_nth2, Nat.sub_diag by lia. simpl. right. lia.
Qed.

(** The reconstruction reaches the root before its fuel runs out, and its
    result ends with the list it started from. *)
Lemma walkParents_total (tree : list TreeNode) (fuel idx : nat) (path : list Vec2) :
  parentsBelow tree -> (idx < length tree)%nat -> (idx < fuel)%nat ->
  exists front, walkParents fuel tree idx path = Some (front ++ path).
Proof.
  intros Hok. revert idx path.
  induction fuel as [|fuel IH]; intros idx path Hidx Hf; [lia|].
  simpl. destruct (Z.eqb_spec (parent (nth idx tree (rootNode origin))) (-1)) as [|Hne].
  - exists []. reflexivity.
  - destruct (Hok idx Hidx) as [Hp | Hp]; [contradiction|].
    destruct (IH (Z.to_nat (parent (nth idx tree (rootNode origin))))
                 (point (nth (Z.to_nat (parent (nth idx tree (rootNode origin)))) tree
                             (rootNode origin)) :: path)) as [front Hfront]; try lia.
    exists (front ++ [point (nth (Z.to_nat (parent (nth idx tree (rootNode origin)))) tree
                                 (rootNode origin))]).
    rewrite Hfront, <- app_assoc. reflexivity.
Qed.

Lemma treeInvariant_root (obstacles : list Obstacle) (start : Vec2) :
  treeInvariant obstacles [rootNode start] [].
Proof. repeat split; [apply parentsBelow_root | constructor]. Qed.

(** An iteration that goes on keeps the invariant and adds at most one node. *)
Lemma rrtStep_continue (rnd : Random) (goal : Vec2) (obstacles : list Obstacle)
    (W H : Q) (c : nat) (tree : list TreeNode) (treeEdges : list TreeEdge)
    (c' : nat) (tree' : list TreeNode) (treeEdges' : list TreeEdge) :
  treeInvariant obstacles tree treeEdges ->
  rrtStep rnd goal obstacles W H c tree treeEdges = inl (c', tree', treeEdges') ->
  treeInvariant obstacles tree' treeEdges' /\
  (length tree <= length tree' <= S (length tree))%nat.
Proof.
  intros [Hlen [Hpar Hlos]] Hstep. unfold rrtStep in Hstep.
  destruct (drawSample rnd c goal W H) as [sample c1].
  set (idx := nearestIndex sample tree) in *.
  set (nearest := point (nth idx tree (rootNode origin))) in *.
  set (newPoint := steer nearest sample) in *.
  destruct (hasLineOfSight nearest newPoint obstacles) eqn:Hsight; cbn [negb] in Hstep.
  2:{ inversion Hstep; subst. repeat split; auto. }
  destruct (outOfCanvas newPoint W H).
  { inversion Hstep; subst. repeat split; auto. }
  destruct (Qltb _ stepSize); [discriminate|].
  inversion Hstep; subst. clear Hstep.
  assert (Hidx : (idx < length tree)%nat).
  { apply nearestIndex_bound. destruct tree; [discriminate | congruence]. }
  split; [repeat split|].
  - rewrite !length_app. simpl. lia.
  - apply parentsBelow_push; assumption.
  - apply Forall_app. split; [assumption|]. constructor; [exact Hsight | constructor].
  - rewrite length_app. simpl. lia.
Qed.

(** An iteration that returns has found a point within one step of the
    goal, and returns a path that ends with the goal and that point. *)
Lemma rrtStep_return (rnd : Random) (goal : Vec2) (obstacles : list Obstacle)
    (W H : Q) (c : nat) (tree : list TreeNode) (treeEdges : list TreeEdge)
    (res : option RrtResult) (c' : nat) :
  treeInvariant obstacles tree treeEdges ->
  rrtStep rnd goal obstacles W H c tree treeEdges = inr (res, c') ->
  exists (newPoint : Vec2) (front : list Vec2) (e : TreeEdge),
    res = Some {| rrt_path := front ++ [goal; newPoint];
                  rrt_tree := treeEdges ++ [e];
                  rrt_nodesExplored := S (length tree) |} /\
    to e = newPoint /\
    hasLineOfSight (from e) (to e) obstacles = true /\
    hypot (x newPoint - x goal) (y newPoint - y goal) < stepSize.
Proof.
  intros [Hlen [Hpar Hlos]] Hstep. unfold rrtStep in Hstep.
  destruct (drawSample rnd c goal W H) as [sample c1].
  set (idx := nearestIndex sample tree) in *.
  set (nearest := point (nth idx tree (rootNode origin))) in *.
  set (newPoint := steer nearest sample) in *.
  destruct (hasLineOfSight nearest newPoint obstacles) eqn:Hsight; cbn [negb] in Hstep;
    [|discriminate].
  destruct (outOfCanvas newPoint W H); [discriminate|].
  destruct (Qltb _ stepSize) eqn:Hnear; [|discriminate].
  inversion Hstep; subst. clear Hstep.
  assert (Hidx : (idx < length tree)%nat).
  { apply nearestIndex_bound. destruct tree; [discriminate | congruence]. }
  set (tree' := tree ++ [{| point := newPoint; parent := Z.of_nat idx |}]).
  assert (Hl : length tree' = S (length tree)).
  { unfold tree'. rewrite length_app. simpl. lia. }
  destruct (walkParents_total tree' (length tree') (length tree' - 1) [goal; newPoint])
    as [front Hfront].
  - apply parentsBelow_push; assumption.
  - lia.
  - lia.
  - exists newPoint, front, {| from := nearest; to := newPoint |}.
    rewrite Hfront. simpl. rewrite Hl. repeat split; auto.
    now apply Qltb_lt.
Qed.

Lemma rrtStep_continue_far (rnd : Random) (goal : Vec2) (obstacles : list Obstacle)
    (W H : Q) (c : nat) (tree : list TreeNode) (treeEdges : list TreeEdge)
    (c' : nat) (tree' : list TreeNode) (treeEdges' : list TreeEdge) :
  Forall (farFromGoal goal) treeEdges ->
  rrtStep rnd goal obstacles W H c tree treeEdges = inl (c', tree', treeEdges') ->
  Forall (farFromGoal goal) treeEdges'.
Proof.
  intros Hfar Hstep. unfold rrtStep in Hstep.
  destruct (drawSample rnd c goal W H) as [sample c1].
  destruct (hasLineOfSight _ _ obstacles); cbn [negb] in Hstep.
  2:{ inversion Hstep; subst. assumption. }
  destruct (outOfCanvas _ W H).
  { inversion Hstep; subst. assumption. }
  destruct (Qltb _ stepSize) eqn:Hnear; [discriminate|].
  inversion Hstep; subst. apply Forall_app. split; [assumption|].
  constructor; [|constructor]. unfold farFromGoal. simpl. now apply Qltb_ge.
Qed.

(** The loop returns.  Either it has used its whole budget: the path is
    empty, no accepted point is within one step of the goal, and the node
    count is the size of the tree; or an accepted point is within one step
    of the goal: the path ends with the goal followed by that point. *)
Lemma rrtLoop_outcome (n : nat) (rnd : Random) (goal : Vec2) (obstacles : list Obstacle)
    (W H : Q) (c : nat) (tree : list TreeNode) (treeEdges : list TreeEdge) :
  treeInvariant obstacles tree treeEdges ->
  Forall (farFromGoal goal) treeEdges ->
  exists (r : RrtResult) (c' : nat),
    rrtLoop n rnd goal obstacles W H c tree treeEdges = (Some r, c') /\
    Forall (fun e => hasLineOfSight (from e) (to e) obstacles = true) (rrt_tree r) /\
    rrt_nodesExplored r = S (length (rrt_tree r)) /\
    (length tree <= rrt_nodesExplored r <= length tree + n)%nat /\
    ((rrt_path r = [] /\ Forall (farFromGoal goal) (rrt_tree r)) \/
     (exists (newPoint : Vec2) (front : list Vec2) (edges : list TreeEdge) (e : TreeEdge),
        rrt_path r = front ++ [goal; newPoint] /\
        rrt_tree r = edges ++ [e] /\ to e = newPoint /\
        hypot (x newPoint - x goal) (y newPoint - y goal) < stepSize /\
        (0 < n)%nat)).
Proof.
  revert c tree treeEdges.
  induction n as [|n IH]; intros c tree treeEdges Hinv Hfar.
  - simpl. eexists. eexists. split; [reflexivity|]. simpl.
    destruct Hinv as [Hlen [Hpar Hlos]].
    repeat split; auto; try lia.
  - simpl.
    destruct (rrtStep rnd goal obstacles W H c tree treeEdges)
      as [[[c1 tree1] edges1] | [res c1]] eqn:Hstep.
    + destruct (rrtStep_continue _ _ _ _ _ _ _ _ _ _ _ Hinv Hstep) as [Hinv1 Hgrow].
      pose proof (rrtStep_continue_far _ _ _ _ _ _ _ _ _ _ _ Hfar Hstep) as Hfar1.
      destruct (IH c1 tree1 edges1 Hinv1 Hfar1)
        as [r [c' [Hr [Hlos [Hcount [Hsize Hcase]]]]]].
      exists r, c'. repeat split; auto; try lia.
      destruct Hcase as [Hempty | [np [front [edges [e [Hp [Ht [Hto [Hnear Hn]]]]]]]]].
      * left. exact Hempty.
      * right. exists np, front, edges, e. repeat split; auto.
    + destruct (rrtStep_return _ _ _ _ _ _ _ _ _ _ Hinv Hstep)
        as [np [front [e [Hres [Hto [Hsight Hnear]]]]]].
      subst res. eexists. exists c1. split; [reflexivity|]. simpl.
      destruct Hinv as [Hlen [Hpar Hlos]].
      repeat split.
      * apply Forall_app. split; [assumption | constructor; [assumption | constructor]].
      * rewrite length_app. simpl. lia.
      * lia.
      * lia.
      * right. exists np, front, treeEdges, e. repeat split; auto. lia.
Qed.

(** [rrt] returns a result for every input. *)
Lemma rrt_total (rnd : Random) (c : nat) (start goal : Vec2) (obstacles : list Obstacle)
    (W H : Q) :
  exists (r : RrtResult) (c' : nat), rrt rnd c start goal obstacles W H = (Some r, c').
Proof.
  destruct (rrtLoop_outcome maxIterations rnd goal obstacles W H c [rootNode start] []
                            (treeInvariant_root obstacles start) (Forall_nil _))
    as [r [c' [Hr _]]].
  exists r, c'. exact Hr.
Qed.

(** Every edge of the tree has passed the line-of-sight test. *)
Lemma rrt_tree_edges_clear (rnd : Random) (c : nat) (start goal : Vec2)
    (obstacles : list Obstacle) (W H : Q) (r : RrtResult) (c' : nat) :
  rrt rnd c start goal obstacles W H = (Some r, c') ->
  Forall (fun e => hasLineOfSight (from e) (to e) obstacles = true) (rrt_tree r).
Proof.
  intros Hrun.
  destruct (rrtLoop_outcome maxIterations rnd goal obstacles W H c [rootNode start] []
                            (treeInvariant_root obstacles start) (Forall_nil _))
    as [r0 [c0 [Hr [Hlos _]]]].
  unfold rrt in Hrun. rewrite Hr in Hrun. inversion Hrun; subst. exact Hlos.
Qed.

(** X7. The path is empty exactly when no accepted point came within one
    step of the goal in the whole budget. *)
Lemma rrt_empty_iff (rnd : Random) (c : nat) (start goal : Vec2)
    (obstacles : list Obstacle) (W H : Q) (r : RrtResult) (c' : nat) :
  rrt rnd c start goal obstacles W H = (Some r, c') ->
  (rrt_path r = [] <-> Forall (farFromGoal goal) (rrt_tree r)).
Proof.
  intros Hrun.
  destruct (rrtLoop_outcome maxIterations rnd goal obstacles W H c [rootNode start] []
                            (treeInvariant_root obstacles start) (Forall_nil _))
    as [r0 [c0 [Hr [_ [_ [_ Hcase]]]]]].
  unfold rrt in Hrun. rewrite Hr in Hrun. inversion Hrun; subst. clear Hrun.
  destruct Hcase as [[Hempty Hfar] | [np [front [edges [e [Hp [Ht [Hto [Hnear _]]]]]]]]].
  - split; auto.
  - split.
    + intros Hempty. rewrite Hempty in Hp. destruct front; discriminate.
    + intros Hfar. rewrite Ht in Hfar. apply Forall_app in Hfar.
      destruct Hfar as [_ Hlast]. inversion Hlast as [|? ? Hf _]; subst.
      unfold farFromGoal in Hf. lra.
Qed.

(** C5, as the code has it. When the tree planner gives up, the node count
    it reports is the size of its tree, one more than the number of accepted
    points, between 1 and 1501; it is not the number of iterations. *)
Theorem rrt_failure_node_count (rnd : Random) (c : nat) (start goal : Vec2)
    (obstacles : list Obstacle) (W H : Q) (r : RrtResult) (c' : nat) :
  rrt rnd c start goal obstacles W H = (Some r, c') ->
  rrt_path r = [] ->
  rrt_nodesExplored r = S (length (rrt_tree r)) /\
  (1 <= rrt_nodesExplored r <= 1501)%nat.
Proof.
  intros Hrun _.
  destruct (rrtLoop_outcome maxIterations rnd goal obstacles W H c [rootNode start] []
                            (treeInvariant_root obstacles start) (Forall_nil _))
    as [r0 [c0 [Hr [_ [Hcount [Hsize _]]]]]].
  unfold rrt in Hrun. rewrite Hr in Hrun. inversion Hrun; subst.
  split; [exact Hcount|]. simpl in Hsize. unfold maxIterations in Hsize. lia.
Qed.

End RrtProperties.

Lemma rrt_failure_node_count_witness :
  exists r c', rrt (M := refMath) halves 0 startPosition enclosedGoal ringOfWalls
                   canvasW canvasH = (Some r, c') /\
    rrt_nodesExplored r = S (length (rrt_tree r)) /\
    (1 <= rrt_nodesExplored r <= 1501)%nat.
Proof.
  exists {| rrt_path := []; rrt_tree := []; rrt_nodesExplored := 1 |}, 4500%nat.
  assert (Hrun : rrt (M := refMath) halves 0 startPosition enclosedGoal ringOfWalls
                     canvasW canvasH
                 = (Some {| rrt_path := []; rrt_tree := []; rrt_nodesExplored := 1 |},
                    4500%nat)) by (vm_compute; reflexivity).
  split; [exact Hrun|].
  exact (rrt_failure_node_count halves 0 startPosition enclosedGoal ringOfWalls
                                canvasW canvasH _ _ Hrun eq_refl).
Defined.

(** C5 as stated fails: the goal lies inside a closed ring of walls, the
    planner uses its whole budget and returns the empty path, and the node
    count it reports is 1, not 1500. *)
Lemma rrt_enclosed_goal_count :
  resolveClick (M := refMath) ringOfWalls enclosedGoal canvasW canvasH = Some enclosedGoal /\
  exists r c', rrt (M := refMath) halves 0 startPosition enclosedGoal ringOfWalls
                   canvasW canvasH = (Some r, c') /\
    rrt_path r = [] /\ rrt_nodesExplored r = 1%nat /\ rrt_nodesExplored r <> 1500%nat.
Proof.
  split; [vm_compute; reflexivity|].
  exists {| rrt_path := []; rrt_tree := []; rrt_nodesExplored := 1 |}, 4500%nat.
  split; [vm_compute; reflexivity|]. simpl. repeat split. discriminate.
Qed.

(** ** The click handler *)

Section ClickProperties.
Context {M : MathLib}.

(** A click in RRT mode whose goal resolves: the state the handler leaves. *)
Lemma onClick_rrt (rnd : Random) (W H : Q) (st : SimState) (clickPos goal : Vec2)
    (r : RrtResult) (c : nat) :
  resolveClick (obstacles st) clickPos W H = Some goal ->
  rrt rnd (draws st) (dronePos (drone st)) goal (obstacles st) W H = (Some r, c) ->
  exists st',
    onClick rrtMode rnd W H st clickPos = Some st' /\
    path st' = rrt_path r /\
    target st' = (match rrt_path r with [] => None | _ => Some goal end) /\
    Drone.state (drone st') = (match rrt_path r with [] => idle | _ => navigating end) /\
    nodesExplored (stats st') = rrt_nodesExplored r.
Proof.
  intros Hgoal Hrun. unfold onClick, plan. rewrite Hgoal, Hrun. cbn [option_map].
  eexists. split; [reflexivity|]. unfold finishClick. cbn [path target drone stats nodesExplored].
  destruct (rrt_path r); repeat split.
Qed.

(** C3, as the code has it. A goal request in RRT mode whose planner
    returns the empty path ends with the target cleared, the path empty and
    the drone [idle]. *)
Theorem rrt_failure_clears_target (rnd : Random) (W H : Q) (st : SimState)
    (clickPos goal : Vec2) (r : RrtResult) (c : nat) :
  resolveClick (obstacles st) clickPos W H = Some goal ->
  rrt rnd (draws st) (dronePos (drone st)) goal (obstacles st) W H = (Some r, c) ->
  rrt_path r = [] ->
  exists st',
    onClick rrtMode rnd W H st clickPos = Some st' /\
    target st' = None /\ path st' = [] /\ Drone.state (drone st') = idle.
Proof.
  intros Hgoal Hrun Hempty.
  destruct (onClick_rrt rnd W H st clickPos goal r c Hgoal Hrun)
    as [st' [Hclick [Hp [Ht [Hs _]]]]].
  exists st'. rewrite Hempty in *. auto.
Qed.

End ClickProperties.

Lemma rrt_failure_clears_target_witness :
  exists st',
    onClick (M := refMath) rrtMode halves canvasW canvasH sceneBeforeClick enclosedGoal
      = Some st' /\
    target st' = None /\ path st' = [] /\ Drone.state (drone st') = idle.
Proof.
  apply (rrt_failure_clears_target (M := refMath) halves canvasW canvasH sceneBeforeClick
           enclosedGoal enclosedGoal
           {| rrt_path := []; rrt_tree := []; rrt_nodesExplored := 1 |} 4500%nat).
  - vm_compute. reflexivity.
  - vm_compute. reflexivity.
  - reflexivity.
Defined.

(** C3 as stated fails: there is no request in RRT mode whose planner
    returns the empty path and whose target is still set when the handler
    returns. *)
Lemma rrt_failure_never_keeps_target :
  ~ exists (M : MathLib) (rnd : Random) (W H : Q) (st : SimState) (clickPos goal : Vec2)
           (r : RrtResult) (c : nat) (st' : SimState),
      resolveClick (obstacles st) clickPos W H = Some goal /\
      rrt rnd (draws st) (dronePos (drone st)) goal (obstacles st) W H = (Some r, c) /\
      rrt_path r = [] /\
      onClick rrtMode rnd W H st clickPos = Some st' /\
      target st' <> None.
Proof.
  intros [M [rnd [W [H [st [clickPos [goal [r [c [st' [Hgoal [Hrun [Hempty [Hclick Hset]]]]]]]]]]]]]].
  destruct (onClick_rrt rnd W H st clickPos goal r c Hgoal Hrun)
    as [st2 [Hclick2 [_ [Ht _]]]].
  rewrite Hclick in Hclick2. inversion Hclick2; subst st2.
  rewrite Hempty in Ht. contradiction.
Qed.

(** C1 fails on the code. The first sample is [(350, 200)], so the planner
    adds [(75, 200)], which is within one step of the goal [(90, 185)], and
    returns the path start, goal, [(75, 200)]: the goal comes before the
    last tree point, and neither the segment from the start to the goal nor
    the one from the goal to [(75, 200)] has line of sight; both cross the
    inflated bound of the tree, whose only checked edge is start to
    [(75, 200)]. *)
Theorem rrt_path_crosses_obstacle :
  resolveClick (M := refMath) [treeBeside] goalBehindTree canvasW canvasH
    = Some goalBehindTree /\
  rrt (M := refMath) halves 0 startPosition goalBehindTree [treeBeside] canvasW canvasH
    = (Some {| rrt_path := [startPosition; goalBehindTree; firstStep];
               rrt_tree := [{| from := startPosition; to := firstStep |}];
               rrt_nodesExplored := 2 |}, 3%nat) /\
  hasLineOfSight (M := refMath) startPosition firstStep [treeBeside] = true /\
  hasLineOfSight (M := refMath) startPosition goalBehindTree [treeBeside] = false /\
  hasLineOfSight (M := refMath) goalBehindTree firstStep [treeBeside] = false /\
  hasLineOfSight (M := refMath) firstStep goalBehindTree [treeBeside] = false.
Proof. repeat split; vm_compute; reflexivity. Qed.

(** The same request through the click handler: the drone starts to
    follow that path. *)
Lemma rrt_path_crosses_obstacle_click :
  exists st',
    onClick (M := refMath) rrtMode halves canvasW canvasH sceneTreeBeside goalBehindTree
      = Some st' /\
    path st' = [startPosition; goalBehindTree; firstStep] /\
    target st' = Some goalBehindTree /\
    Drone.state (drone st') = navigating.
Proof.
  destruct (onClick_rrt (M := refMath) halves canvasW canvasH sceneTreeBeside
              goalBehindTree goalBehindTree
              {| rrt_path := [startPosition; goalBehindTree; firstStep];
                 rrt_tree := [{| from := startPosition; to := firstStep |}];
                 rrt_nodesExplored := 2 |} 3%nat)
    as [st' [Hclick [Hp [Ht [Hs _]]]]]; try (vm_compute; reflexivity).
  exists st'. auto.
Qed.

(** ** The octile heuristic *)

Section HeuristicProperties.
Context {M : MathLib}.

Lemma SQRT2_bounds : 1 <= Math_SQRT2 /\ Math_SQRT2 <= 2.
Proof. unfold Math_SQRT2. split; unfold Qle; simpl; lia. Qed.

(** The octile form is monotone, grows by at most [1] when one difference
    grows by [1] and by at most [c] when both do. *)
Ltac octile_cases a b a' b' :=
  unfold octile;
  destruct (Math_max_spec a b) as [[? ->] | [? ->]];
  destruct (Math_min_spec a b) as [[? ->] | [? ->]];
  destruct (Math_max_spec a' b') as [[? ->] | [? ->]];
  destruct (Math_min_spec a' b') as [[? ->] | [? ->]]; nra.

Lemma octile_step (c a b a' b' p q : Q) :
  1 <= c <= 2 -> 0 <= a -> 0 <= b -> 0 <= a' -> 0 <= b' ->
  a <= a' + p -> b <= b' + q ->
  (p == 1 /\ q == 0 -> octile c a b <= 1 + octile c a' b') /\
  (p == 0 /\ q == 1 -> octile c a b <= 1 + octile c a' b') /\
  (p == 1 /\ q == 1 -> octile c a b <= c + octile c a' b').
Proof.
  intros Hc Ha Hb Ha' Hb' Hp Hq. repeat split; intros [Hp1 Hq1];
    rewrite Hp1 in Hp; rewrite Hq1 in Hq; octile_cases a b a' b'.
Qed.

(** The difference of a coordinate after a move of [m]. *)
Lemma abs_after_move (xa xb m : Z) :
  Qabs (inject_Z xa - inject_Z xb)
  <= Qabs (inject_Z (xa + m) - inject_Z xb) + Qabs (inject_Z m).
Proof.
  rewrite inject_Z_plus.
  generalize (inject_Z xa) (inject_Z xb) (inject_Z m). intros u w k.
  apply (Qabs_case (u - w)); apply (Qabs_case (u + k - w)); apply (Qabs_case k);
    intros; lra.
Qed.

(** Consistency: one move lowers the heuristic by at most its cost. *)
Lemma heuristic_consistent (a b : Cell) (d : Direction) :
  In d directions -> heuristic a b <= cost d + heuristic (moveCell a d) b.
Proof.
  intros Hd. unfold heuristic, Math_abs, moveCell. cbn [fst snd].
  pose proof (abs_after_move (fst a) (fst b) (ddx d)) as Hx.
  pose proof (abs_after_move (snd a) (snd b) (ddy d)) as Hy.
  pose proof (Qabs_nonneg (inject_Z (fst a) - inject_Z (fst b))) as H1.
  pose proof (Qabs_nonneg (inject_Z (snd a) - inject_Z (snd b))) as H2.
  pose proof (Qabs_nonneg (inject_Z (fst a + ddx d) - inject_Z (fst b))) as H3.
  pose proof (Qabs_nonneg (inject_Z (snd a + ddy d) - inject_Z (snd b))) as H4.
  destruct (octile_step Math_SQRT2 _ _ _ _ _ _ SQRT2_bounds H1 H2 H3 H4 Hx Hy)
    as [Hs1 [Hs2 Hs3]].
  unfold octile in *.
  simpl in Hd.
  destruct Hd as [<- | [<- | [<- | [<- | [<- | [<- | [<- | [<- | []]]]]]]]];
    cbn [ddx ddy cost] in *;
    first [ apply Hs1; split; reflexivity
          | apply Hs2; split; reflexivity
          | apply Hs3; split; reflexivity ].
Qed.

(** In exact arithmetic the octile form from [a] to [b] is at most the
    cost of any 8-connected walk from [a] to [b], with straight moves at
    cost 1 and diagonal moves at cost [SQRT2]. *)
Lemma heuristic_below_walk (a b : Cell) (moves : list Direction) :
  Forall (fun d => In d directions) moves ->
  walk a moves = b ->
  heuristic a b <= walkCost moves.
Proof.
  intros Hmoves. revert a. induction Hmoves as [|d rest Hd Hrest IH]; intros a Hwalk.
  - simpl in Hwalk. subst b. unfold heuristic, Math_abs.
    assert (Hx : Qabs (inject_Z (fst a) - inject_Z (fst a)) == 0).
    { setoid_replace (inject_Z (fst a) - inject_Z (fst a)) with 0 by ring. reflexivity. }
    assert (Hy : Qabs (inject_Z (snd a) - inject_Z (snd a)) == 0).
    { setoid_replace (inject_Z (snd a) - inject_Z (snd a)) with 0 by ring. reflexivity. }
    revert Hx Hy. generalize (Qabs (inject_Z (fst a) - inject_Z (fst a)))
                             (Qabs (inject_Z (snd a) - inject_Z (snd a))).
    intros u v Hu Hv. simpl.
    destruct (Math_max_spec u v) as [[? ->] | [? ->]];
    destruct (Math_min_spec u v) as [[? ->] | [? ->]]; nra.
  - simpl in Hwalk. simpl.
    pose proof (heuristic_consistent a b d Hd) as Hstep.
    specialize (IH (moveCell a d) Hwalk). lra.
Qed.

(** *** The heuristic in binary64 *)

Lemma coordinates_In (z : Z) : (0 <= z < gridSpan)%Z -> In z coordinates.
Proof.
  intros Hz. unfold coordinates.
  replace z with (Z.of_nat (Z.to_nat z)) by lia.
  apply in_map, in_seq. unfold gridSpan in *. lia.
Qed.

Lemma differences_In (z : Z) : (- gridSpan < z < gridSpan)%Z -> In z differences.
Proof.
  intros Hz. unfold differences.
  replace z with (Z.of_nat (Z.to_nat (z + gridSpan - 1)) - gridSpan + 1)%Z
    by (unfold gridSpan in *; lia).
  apply (in_map (fun n => Z.of_nat n - gridSpan + 1)%Z), in_seq.
  unfold gridSpan in *. lia.
Qed.

(** The subtraction of two coordinates of the grid does not round. *)
Lemma difference_exact (a b : Z) :
  (0 <= a < gridSpan)%Z -> (0 <= b < gridSpan)%Z ->
  PrimFloat.sub (Binary64.ofZ a) (Binary64.ofZ b) = Binary64.ofZ (a - b).
Proof.
  intros Ha Hb.
  assert (Hall : forallb (fun a => forallb (differenceExact a) coordinates) coordinates = true)
    by (vm_compute; reflexivity).
  rewrite forallb_forall in Hall. specialize (Hall a (coordinates_In a Ha)).
  rewrite forallb_forall in Hall. specialize (Hall b (coordinates_In b Hb)).
  apply FloatAxioms.Leibniz.eqb_spec. exact Hall.
Qed.

Lemma difference_zero (d : Z) :
  (- gridSpan < d < gridSpan)%Z ->
  PrimFloat.sub (Binary64.ofZ d) (Binary64.ofZ 0) = Binary64.ofZ d.
Proof.
  intros Hd.
  assert (Hall : forallb (fun d => PrimFloat.Leibniz.eqb
                                     (PrimFloat.sub (Binary64.ofZ d) (Binary64.ofZ 0))
                                     (Binary64.ofZ d)) differences = true)
    by (vm_compute; reflexivity).
  rewrite forallb_forall in Hall. specialize (Hall d (differences_In d Hd)).
  apply FloatAxioms.Leibniz.eqb_spec. exact Hall.
Qed.

(** In the grid the binary64 heuristic depends on the differences of the
    coordinates only, and so does the exact one. *)
Lemma heuristic_of_differences (a b : Cell) :
  inGrid gridSpan gridSpan a -> inGrid gridSpan gridSpan b ->
  Binary64.heuristic a b = Binary64.heuristic (fst a - fst b, snd a - snd b)%Z (0, 0)%Z.
Proof.
  intros [Hax Hay] [Hbx Hby]. unfold Binary64.heuristic. cbn [fst snd].
  rewrite (difference_exact (fst a) (fst b) Hax Hbx).
  rewrite (difference_exact (snd a) (snd b) Hay Hby).
  rewrite (difference_zero (fst a - fst b)) by lia.
  rewrite (difference_zero (snd a - snd b)) by lia.
  reflexivity.
Qed.

Lemma heuristic_differences_exact (a b : Cell) :
  heuristic a b == heuristic (fst a - fst b, snd a - snd b)%Z (0, 0)%Z.
Proof.
  unfold heuristic, Math_abs. cbn [fst snd].
  assert (Hx : Qabs (inject_Z (fst a - fst b) - inject_Z 0)
               == Qabs (inject_Z (fst a) - inject_Z (fst b))).
  { apply Qabs_wd. unfold Zminus. rewrite inject_Z_plus, inject_Z_opp.
    change (inject_Z 0) with 0. ring. }
  assert (Hy : Qabs (inject_Z (snd a - snd b) - inject_Z 0)
               == Qabs (inject_Z (snd a) - inject_Z (snd b))).
  { apply Qabs_wd. unfold Zminus. rewrite inject_Z_plus, inject_Z_opp.
    change (inject_Z 0) with 0. ring. }
  revert Hx Hy.
  generalize (Qabs (inject_Z (fst a - fst b) - inject_Z 0))
             (Qabs (inject_Z (snd a - snd b) - inject_Z 0))
             (Qabs (inject_Z (fst a) - inject_Z (fst b)))
             (Qabs (inject_Z (snd a) - inject_Z (snd b))).
  intros u' w' u w Hu Hw.
  pose proof SQRT2_bounds as Hc.
  destruct (Math_max_spec u w) as [[? ->] | [? ->]];
  destruct (Math_min_spec u w) as [[? ->] | [? ->]];
  destruct (Math_max_spec u' w') as [[? ->] | [? ->]];
  destruct (Math_min_spec u' w') as [[? ->] | [? ->]]; nra.
Qed.

(** In the grid the binary64 heuristic is a finite number, above the exact
    one by at most the tolerance: every pair of differences is evaluated. *)
Lemma heuristic_near_exact (a b : Cell) :
  inGrid gridSpan gridSpan a -> inGrid gridSpan gridSpan b ->
  exists h, Binary64.toQ (Binary64.heuristic a b) = Some h /\
            h <= heuristic a b + heuristicTolerance.
Proof.
  intros Ha Hb. rewrite (heuristic_of_differences a b Ha Hb).
  assert (Hall : forallb (fun dx => forallb (nearExact dx) differences) differences = true)
    by (vm_compute; reflexivity).
  destruct Ha as [Hax Hay], Hb as [Hbx Hby].
  assert (Hdx : (- gridSpan < fst a - fst b < gridSpan)%Z) by lia.
  assert (Hdy : (- gridSpan < snd a - snd b < gridSpan)%Z) by lia.
  rewrite forallb_forall in Hall.
  specialize (Hall (fst a - fst b)%Z (differences_In _ Hdx)).
  rewrite forallb_forall in Hall.
  specialize (Hall (snd a - snd b)%Z (differences_In _ Hdy)).
  unfold nearExact in Hall.
  destruct (Binary64.toQ _) as [h|]; [|discriminate].
  exists h. split; [reflexivity|].
  apply Qle_bool_iff in Hall. rewrite heuristic_differences_exact. exact Hall.
Qed.

(** C9. Between two cells of a grid of at most 64 columns and rows, the
    heuristic that the code computes in binary64 is a finite number, and
    it exceeds the cost of no 8-connected walk from [a] to [b] (straight
    moves at cost 1, diagonal moves at cost [Math.SQRT2], added exactly) by
    more than [2 ^ -46]: it is admissible up to rounding. *)
Theorem heuristic_nearly_admissible (a b : Cell) (moves : list Direction) :
  inGrid gridSpan gridSpan a -> inGrid gridSpan gridSpan b ->
  Forall (fun d => In d directions) moves ->
  walk a moves = b ->
  exists h, Binary64.toQ (Binary64.heuristic a b) = Some h /\
            h <= walkCost moves + heuristicTolerance.
Proof.
  intros Ha Hb Hmoves Hwalk.
  destruct (heuristic_near_exact a b Ha Hb) as [h [Hh Hle]].
  exists h. split; [exact Hh|].
  pose proof (heuristic_below_walk a b moves Hmoves Hwalk). lra.
Qed.

End HeuristicProperties.

Lemma heuristic_nearly_admissible_witness :
  exists h, Binary64.toQ (Binary64.heuristic (2, 3)%Z (5, 6)%Z) = Some h /\
            h <= walkCost sampleWalk + heuristicTolerance.
Proof.
  apply heuristic_nearly_admissible.
  - unfold inGrid, gridSpan. cbn. lia.
  - unfold inGrid, gridSpan. cbn. lia.
  - unfold sampleWalk. repeat (constructor; [simpl; intuition reflexivity|]). constructor.
  - reflexivity.
Defined.

(** The heuristic is not admissible as the code computes it.  From
    [(0, 0)] to [(1, 8)] its binary64 value is above the cost of the walk
    of one diagonal and seven straight moves, and above [7 + sqrt 2] for
    the real square root, as the squares show.  From [(0, 0)] to [(2, 3)]
    it is above the [g] that the code accumulates along a diagonal, a
    straight and a diagonal move. *)
Lemma heuristic_not_admissible :
  Binary64.toQ (Binary64.heuristic (0, 0)%Z (1, 8)%Z) = Some heuristicTo18 /\
  Forall (fun d => In d directions) walkTo18 /\
  walk (0, 0)%Z walkTo18 = (1, 8)%Z /\
  walkCost walkTo18 < heuristicTo18 /\
  7 < heuristicTo18 /\ 2 < (heuristicTo18 - 7) * (heuristicTo18 - 7) /\
  Forall (fun d => In d Binary64.directions) Binary64Scenes.threeMoves /\
  Binary64.walk (0, 0)%Z Binary64Scenes.threeMoves = (2, 3)%Z /\
  PrimFloat.ltb (Binary64.walkCost Binary64Scenes.threeMoves)
                (Binary64.heuristic (0, 0)%Z (2, 3)%Z) = true.
Proof.
  split; [vm_compute; reflexivity|].
  split; [unfold walkTo18; cbn [repeat];
          repeat (constructor; [simpl; intuition reflexivity|]); constructor|].
  split; [reflexivity|].
  split; [vm_compute; reflexivity|].
  split; [vm_compute; reflexivity|].
  split; [vm_compute; reflexivity|].
  split; [unfold Binary64Scenes.threeMoves;
          repeat (constructor; [simpl; intuition reflexivity|]); constructor|].
  split; [reflexivity|].
  vm_compute. reflexivity.
Qed.

(** ** The reference library keeps the laws *)

Lemma sqrtUp_nonneg (q : Q) : 0 <= sqrtUp q.
Proof.
  unfold sqrtUp. destruct (Qnum (Qred q) <=? 0)%Z; [apply Qle_refl|].
  rewrite Qred_correct. unfold Qle. simpl. rewrite Z.mul_1_r.
  apply Z.sqrt_up_nonneg.
Qed.

Lemma sqrtUp_upper (q : Q) : 0 <= q -> q <= sqrtUp q * sqrtUp q.
Proof.
  intros Hq. unfold sqrtUp. rewrite <- (Qred_correct q) in Hq |- * at 1.
  revert Hq. generalize (Qred q). clear q. intros q Hq.
  destruct (Z.leb_spec (Qnum q) 0) as [Hn | Hn].
  - unfold Qle in *. simpl in *. lia.
  - rewrite Qred_correct.
    set (d := Zpos (Qden q)).
    set (p := (2 ^ Zpos PRECISION)%Z).
    assert (Hp : (0 < p)%Z) by (unfold p; apply Z.pow_pos_nonneg; lia).
    assert (Hd : (0 < d)%Z) by (unfold d; lia).
    assert (H4 : (4 ^ Zpos PRECISION = p * p)%Z).
    { unfold p. rewrite <- Z.pow_mul_l. reflexivity. }
    rewrite H4.
    set (a := (Qnum q * d * (p * p))%Z).
    assert (Ha : (0 < a)%Z) by (unfold a; nia).
    destruct (Z.sqrt_up_spec a Ha) as [_ Hs].
    set (r := Z.sqrt_up a) in *.
    unfold Qle. cbn [Qnum Qden Qmult].
    rewrite !Pos2Z.inj_mul, Pos2Z.inj_pow. fold d. fold p.
    change (Z.pos 2 ^ Z.pos PRECISION)%Z with p.
    unfold a in Hs. nia.
Qed.

Lemma refHypot_ge_l (a b : Q) : Qabs a <= refHypot a b.
Proof.
  unfold refHypot.
  destruct (Qeq_bool b 0) eqn:Hb; [apply Qle_refl|].
  destruct (Qeq_bool a 0) eqn:Ha.
  - apply Qeq_bool_eq in Ha. rewrite Ha. apply Qabs_nonneg.
  - pose proof (sqrtUp_nonneg (a * a + b * b)) as Hs0.
    assert (Hsq : 0 <= a * a + b * b) by nra.
    pose proof (sqrtUp_upper (a * a + b * b) Hsq) as Hs.
    revert Hs0 Hs. generalize (sqrtUp (a * a + b * b)). intros s Hs0 Hs.
    apply Qabs_case; intros; nra.
Qed.

Lemma refHypot_ge_r (a b : Q) : Qabs b <= refHypot a b.
Proof.
  unfold refHypot.
  destruct (Qeq_bool b 0) eqn:Hb.
  { apply Qeq_bool_eq in Hb. rewrite Hb. apply Qabs_nonneg. }
  destruct (Qeq_bool a 0) eqn:Ha; [apply Qle_refl|].
  pose proof (sqrtUp_nonneg (a * a + b * b)) as Hs0.
  assert (Hsq : 0 <= a * a + b * b) by nra.
  pose proof (sqrtUp_upper (a * a + b * b) Hsq) as Hs.
  revert Hs0 Hs. generalize (sqrtUp (a * a + b * b)). intros s Hs0 Hs.
  apply Qabs_case; intros; nra.
Qed.

#[export] Instance refMath_laws : MathLaws refMath.
Proof.
  constructor.
  - exact refHypot_ge_l.
  - exact refHypot_ge_r.
  - exact sqrtUp_nonneg.
  - exact sqrtUp_upper.
Qed.

(** ** The field planner *)

Section FieldProperties.
Context {M : MathLib} {L : MathLaws M}.

Lemma ratio_bounded (a m : Q) : Qabs a <= m -> Qabs (a / m) <= 1.
Proof.
  intros Ham.
  assert (Hm : 0 <= m) by (pose proof (Qabs_nonneg a); lra).
  destruct (Qeq_dec m 0) as [Hz | Hnz].
  - unfold Qdiv. rewrite Hz. setoid_replace (a * / 0) with 0 by (unfold Qinv; simpl; ring).
    simpl. unfold Qle. simpl. lia.
  - assert (Hpos : 0 < m) by (destruct (Qlt_le_dec 0 m); [assumption | exfalso; apply Hnz; lra]).
    apply Qabs_Qle_condition in Ham. apply Qabs_Qle_condition. split.
    + apply Qle_shift_div_l; [assumption | lra].
    + apply Qle_shift_div_r; [assumption | lra].
Qed.

(** The attractive force is at most [kAttr] in each component. *)
Lemma attrForce_bounded (drone goal : Vec2) :
  Qabs (x (attrForce drone goal)) <= 1 /\ Qabs (y (attrForce drone goal)) <= 1.
Proof.
  unfold attrForce, kAttr. cbn [x y].
  set (dx := x goal - x drone). set (dy := y goal - y drone).
  pose proof (hypot_ge_l dx dy) as Hl. pose proof (hypot_ge_r dx dy) as Hr.
  assert (Hm : hypot dx dy <= Math_max (hypot dx dy) 1).
  { destruct (Math_max_spec (hypot dx dy) 1) as [[? ->] | [? ->]]; lra. }
  split.
  - setoid_replace (1 * dx / Math_max (hypot dx dy) 1) with (dx / Math_max (hypot dx dy) 1)
      by (unfold Qdiv; ring).
    apply ratio_bounded. lra.
  - setoid_replace (1 * dy / Math_max (hypot dx dy) 1) with (dy / Math_max (hypot dx dy) 1)
      by (unfold Qdiv; ring).
    apply ratio_bounded. lra.
Qed.

Lemma inv_le (a b : Q) : 0 < a -> a <= b -> / b <= / a.
Proof.
  intros Ha Hab.
  assert (Hb : 0 < b) by lra.
  apply Qle_shift_inv_l; [assumption|].
  setoid_replace (/ b * a) with (a / b) by (unfold Qdiv; ring).
  apply Qle_shift_div_r; [assumption | lra].
Qed.

(** The magnitude of the repulsion between the distances [delta] and the
    influence radius. *)
Lemma repMagnitude_bounds (delta d : Q) :
  0 < delta -> delta <= d -> d < influenceRadius ->
  0 <= repMagnitude d /\ repMagnitude d <= kRep / (delta * delta * delta).
Proof.
  unfold influenceRadius, repMagnitude, kRep. intros Hdelta Hd Hr.
  assert (Hdpos : 0 < d) by lra.
  pose proof (Qinv_lt_0_compat d Hdpos) as Hi.
  pose proof (Qinv_lt_0_compat delta Hdelta) as Hj.
  pose proof (inv_le delta d Hdelta Hd) as Hij.
  assert (H80 : / 80 <= / d) by (apply inv_le; lra).
  setoid_replace (500 * (1 / d - 1 / 80) / (d * d)) with (500 * (/ d - / 80) * (/ d * / d))
    by (unfold Qdiv; rewrite Qinv_mult_distr; ring).
  setoid_replace (500 / (delta * delta * delta)) with (500 * (/ delta * (/ delta * / delta)))
    by (unfold Qdiv; rewrite !Qinv_mult_distr; ring).
  assert (H80' : / 80 == 1 # 80) by reflexivity.
  revert Hi Hj Hij H80. rewrite H80'. generalize (/ d) (/ delta). intros i j Hi Hj Hij H80.
  assert (Hii : 0 <= i * i) by nra.
  assert (Hjj : i * i <= j * j) by nra.
  split; [nra|].
  assert (H1 : (i - (1 # 80)) * (i * i) <= j * (j * j)) by nra.
  nra.
Qed.

(** One obstacle moves each component of the repulsion by at most the
    bound of the magnitude, when it is not nearer than [delta]. *)
Lemma addRepulsion_bounded (delta : Q) (drone acc : Vec2) (obs : Obstacle) :
  0 < delta ->
  surfaceDistance drone obs <= 0 \/ delta <= surfaceDistance drone obs ->
  Qabs (x (addRepulsion drone acc obs)) <= Qabs (x acc) + kRep / (delta * delta * delta) /\
  Qabs (y (addRepulsion drone acc obs)) <= Qabs (y acc) + kRep / (delta * delta * delta).
Proof.
  intros Hdelta Hfar.
  assert (HB : 0 <= kRep / (delta * delta * delta)).
  { assert (H2 : 0 < delta * delta) by nra.
    assert (H3 : 0 < delta * delta * delta) by nra.
    unfold kRep. apply Qle_shift_div_l; [exact H3 | lra]. }
  unfold addRepulsion.
  destruct (Qltb (surfaceDistance drone obs) influenceRadius) eqn:Hin; cbn [andb].
  2:{ split; lra. }
  destruct (Qltb 0 (surfaceDistance drone obs)) eqn:Hpos.
  2:{ split; lra. }
  apply Qltb_lt in Hin. apply Qltb_lt in Hpos.
  destruct Hfar as [Hneg | Hfar]; [lra|].
  destruct (repMagnitude_bounds delta _ Hdelta Hfar Hin) as [Hm0 Hm].
  cbn [x y].
  set (dx := x drone - centerX obs). set (dy := y drone - centerY obs).
  pose proof (ratio_bounded dx (hypot dx dy) (hypot_ge_l dx dy)) as Hrx.
  pose proof (ratio_bounded dy (hypot dx dy) (hypot_ge_r dx dy)) as Hry.
  revert Hm0 Hm. generalize (repMagnitude (surfaceDistance drone obs)). intros m Hm0 Hm.
  setoid_replace (m * dx / hypot dx dy) with (m * (dx / hypot dx dy)) by (unfold Qdiv; ring).
  setoid_replace (m * dy / hypot dx dy) with (m * (dy / hypot dx dy)) by (unfold Qdiv; ring).
  revert Hrx Hry. generalize (dx / hypot dx dy) (dy / hypot dx dy). intros rx ry Hrx Hry.
  apply Qabs_Qle_condition in Hrx. apply Qabs_Qle_condition in Hry.
  revert HB Hm. generalize (kRep / (delta * delta * delta)). intros B HB Hm.
  split; apply Qabs_case; intros; apply Qabs_case; intros; nra.
Qed.

Lemma repulsion_bounded (delta : Q) (drone : Vec2) (obstacles : list Obstacle) (acc : Vec2) :
  0 < delta ->
  Forall (fun obs => surfaceDistance drone obs <= 0 \/ delta <= surfaceDistance drone obs)
         obstacles ->
  let r := fold_left (addRepulsion drone) obstacles acc in
  let B := inject_Z (Z.of_nat (length obstacles)) * (kRep / (delta * delta * delta)) in
  Qabs (x r) <= Qabs (x acc) + B /\ Qabs (y r) <= Qabs (y acc) + B.
Proof.
  intros Hdelta Hfar. revert acc.
  induction Hfar as [|obs rest Hobs Hrest IH]; intros acc.
  - cbn [fold_left length]. change (inject_Z (Z.of_nat 0)) with 0.
    generalize (kRep / (delta * delta * delta)). intros B. split; lra.
  - cbn [fold_left length]. cbv zeta in *.
    destruct (IH (addRepulsion drone acc obs)) as [IHx IHy].
    destruct (addRepulsion_bounded delta drone acc obs Hdelta Hobs) as [Hx Hy].
    rewrite Nat2Z.inj_succ. unfold Z.succ. rewrite inject_Z_plus.
    change (inject_Z 1) with 1.
    revert IHx IHy Hx Hy.
    generalize (kRep / (delta * delta * delta)) (inject_Z (Z.of_nat (length rest))).
    intros B n IHx IHy Hx Hy. split; lra.
Qed.

(** C4, as the code has it. The attractive force is bounded by [kAttr] in
    each component, and an obstacle repels only at a distance [d] with
    [0 < d < influenceRadius]; when no obstacle is at a distance between
    [0] and [delta], each component of the steering force is at most
    [1 + n * kRep / delta ^ 3] in absolute value, for [n] obstacles. *)
Theorem apfNavigate_bounded_away (delta : Q) (drone goal : Vec2)
    (obstacles : list Obstacle) :
  0 < delta ->
  Forall (fun obs => surfaceDistance drone obs <= 0 \/ delta <= surfaceDistance drone obs)
         obstacles ->
  let force := apfNavigate drone goal obstacles in
  let B := 1 + inject_Z (Z.of_nat (length obstacles)) * (kRep / (delta * delta * delta)) in
  Qabs (x force) <= B /\ Qabs (y force) <= B.
Proof.
  intros Hdelta Hfar. cbv zeta. unfold apfNavigate, repForce. cbn [x y].
  destruct (attrForce_bounded drone goal) as [Hax Hay].
  destruct (repulsion_bounded delta drone obstacles origin Hdelta Hfar) as [Hrx Hry].
  cbv zeta in Hrx, Hry. change (Qabs (x origin)) with 0 in Hrx.
  change (Qabs (y origin)) with 0 in Hry.
  revert Hax Hay Hrx Hry.
  generalize (x (attrForce drone goal)) (y (attrForce drone goal))
             (x (fold_left (addRepulsion drone) obstacles origin))
             (y (fold_left (addRepulsion drone) obstacles origin))
             (inject_Z (Z.of_nat (length obstacles)) * (kRep / (delta * delta * delta))).
  intros ax ay rx ry B Hax Hay Hrx Hry.
  apply Qabs_Qle_condition in Hax, Hay, Hrx, Hry.
  split; apply Qabs_Qle_condition; lra.
Qed.

End FieldProperties.

Lemma apfNavigate_bounded_away_witness :
  let force := apfNavigate (M := refMath) (droneNear 1) (goalBeyond 1) [squareObstacle] in
  Qabs (x force) <= 1 + 1 * (kRep / (1 * 1 * 1)) /\
  Qabs (y force) <= 1 + 1 * (kRep / (1 * 1 * 1)).
Proof.
  apply (apfNavigate_bounded_away (M := refMath) 1 (droneNear 1) (goalBeyond 1)
                                  [squareObstacle]).
  - reflexivity.
  - constructor; [|constructor]. right. vm_compute. discriminate.
Defined.

(** Close to the obstacle the repulsion is at least the inverse of the
    distance. *)
Lemma repMagnitude_lower (d : Q) : 0 < d -> d <= 1 -> / d <= repMagnitude d.
Proof.
  intros Hd H1. unfold repMagnitude, kRep, influenceRadius.
  pose proof (Qinv_lt_0_compat d Hd) as Hi.
  assert (Hone : / 1 <= / d) by (apply inv_le; lra).
  change (/ 1) with 1 in Hone.
  setoid_replace (500 * (1 / d - 1 / 80) / (d * d)) with (500 * (/ d - (1 # 80)) * (/ d * / d))
    by (unfold Qdiv; rewrite Qinv_mult_distr; change (/ 80) with (1 # 80); ring).
  revert Hi Hone. generalize (/ d). intros i Hi Hone.
  assert (Hii : 1 <= i * i) by nra.
  assert (H2 : (1 # 2) * i <= i - (1 # 80)) by lra.
  assert (H3 : (1 # 2) * i * 1 <= (i - (1 # 80)) * (i * i)) by nra.
  lra.
Qed.

(** The drone at the distance [delta] from the square obstacle is pushed
    with at least [1 / delta - 1] along the centre line. *)
Lemma push_near_obstacle (delta : Q) :
  0 < delta -> delta <= 1 ->
  / delta - 1 <= x (apfNavigate (M := refMath) (droneNear delta) (goalBeyond delta)
                                [squareObstacle]).
Proof.
  intros Hdelta H1.
  destruct (attrForce_bounded (M := refMath) (droneNear delta) (goalBeyond delta)) as [Hax _].
  apply Qabs_Qle_condition in Hax. destruct Hax as [Hax _].
  unfold apfNavigate, repForce. cbn [fold_left x].
  revert Hax. generalize (x (attrForce (M := refMath) (droneNear delta) (goalBeyond delta))).
  intros ax Hax.
  unfold addRepulsion, surfaceDistance, centerX, centerY, droneNear, squareObstacle.
  cbn [x y Obstacle.x Obstacle.y Obstacle.width Obstacle.height hypot refMath].
  unfold refHypot.
  change (Qeq_bool (10 - (0 + 20 / 2)) 0) with true. cbv iota.
  change (Math_max 20 20) with 20.
  assert (H20 : 20 / 2 == 10) by reflexivity.
  set (a := 32 + delta - (0 + 20 / 2)).
  assert (Ha : Qabs a == 22 + delta).
  { rewrite Qabs_pos; unfold a; lra. }
  set (d := Qabs a - 20 / 2 - DRONE_RADIUS).
  assert (Hd : d == delta) by (unfold d, DRONE_RADIUS; lra).
  assert (Hin : Qltb d influenceRadius = true).
  { apply Qltb_lt. unfold influenceRadius. lra. }
  assert (Hpos : Qltb 0 d = true) by (apply Qltb_lt; lra).
  rewrite Hin, Hpos. cbn [andb x origin].
  assert (Hm : / delta <= repMagnitude d).
  { rewrite <- Hd. apply repMagnitude_lower; lra. }
  assert (Haa : a == 22 + delta) by (unfold a; lra).
  assert (Hq : / delta <= repMagnitude d * a / Qabs a).
  { apply Qle_shift_div_l; [lra|].
    revert Hm. generalize (repMagnitude d) (/ delta). intros m i Hm.
    rewrite Ha, Haa. nra. }
  revert Hq. generalize (repMagnitude d * a / Qabs a) (/ delta). intros q i Hq. lra.
Qed.

(** C4 as stated fails: no bound holds for every drone position, goal and
    obstacle set, even away from the obstacle centres; the repulsion grows
    without bound as the distance to the obstacle tends to zero. *)
Lemma apfNavigate_unbounded :
  ~ exists B : Q,
      forall (drone goal : Vec2) (obstacles : list Obstacle),
        Forall (fun obs => ~ (x drone == centerX obs /\ y drone == centerY obs)) obstacles ->
        @hypot refMath (x (apfNavigate (M := refMath) drone goal obstacles))
              (y (apfNavigate (M := refMath) drone goal obstacles)) <= B.
Proof.
  intros [B HB].
  set (n := Qabs B + 2).
  assert (Hn : 2 <= n) by (unfold n; pose proof (Qabs_nonneg B); lra).
  assert (Hdelta : 0 < / n) by (apply Qinv_lt_0_compat; lra).
  assert (H1 : / n <= 1).
  { apply Qle_shift_inv_r; lra. }
  specialize (HB (droneNear (/ n)) (goalBeyond (/ n)) [squareObstacle]).
  assert (Hoff : Forall (fun obs => ~ (x (droneNear (/ n)) == centerX obs /\
                                       y (droneNear (/ n)) == centerY obs))
                        [squareObstacle]).
  { constructor; [|constructor]. intros [Hx _].
    unfold droneNear, centerX, squareObstacle in Hx.
    cbn [x Obstacle.x Obstacle.width] in Hx.
    assert (H20 : 20 / 2 == 10) by reflexivity.
    revert Hdelta Hx. generalize (/ n). intros i Hi Hx. lra. }
  specialize (HB Hoff).
  pose proof (push_near_obstacle (/ n) Hdelta H1) as Hpush.
  rewrite Qinv_involutive in Hpush.
  pose proof (@hypot_ge_l refMath refMath_laws (x (apfNavigate (M := refMath) (droneNear (/ n)) (goalBeyond (/ n))
                                         [squareObstacle]))
                         (y (apfNavigate (M := refMath) (droneNear (/ n)) (goalBeyond (/ n))
                                         [squareObstacle]))) as Hge.
  revert HB Hpush Hge.
  generalize (x (apfNavigate (M := refMath) (droneNear (/ n)) (goalBeyond (/ n))
                             [squareObstacle]))
             (@hypot refMath
                (x (apfNavigate (M := refMath) (droneNear (/ n)) (goalBeyond (/ n))
                                [squareObstacle]))
                (y (apfNavigate (M := refMath) (droneNear (/ n)) (goalBeyond (/ n))
                                [squareObstacle]))).
  intros fx h HB Hpush Hge.
  apply Qabs_Qle_condition in Hge.
  unfold n in Hpush. revert Hpush. apply (Qabs_case B); intros; lra.
Qed.

(** ** Dynamic obstacles *)

Section ObstacleProperties.
Context {M : MathLib}.
Hypothesis sqrt_rounded : sqrtRounded.

(** The speed limit leaves a speed of at most [obstacleMaxSpeed], up to the
    tolerance of the square root. *)
Lemma limitSpeed_bounded (v : Vec2) :
  x (limitSpeed v) * x (limitSpeed v) + y (limitSpeed v) * y (limitSpeed v)
  <= obstacleMaxSpeed * obstacleMaxSpeed * (1 + speedTolerance).
Proof.
  unfold limitSpeed, obstacleMaxSpeed, obstacleMinSpeed.
  set (q := x v * x v + y v * y v).
  assert (Hq : 0 <= q) by (unfold q; nra).
  destruct (sqrt_rounded q Hq) as [Hs0 Hs].
  revert Hs0 Hs. generalize (sqrt q). intros s Hs0 Hs.
  set (t := speedTolerance) in *.
  assert (Ht : 0 <= t) by (unfold t, speedTolerance, Qle; simpl; lia).
  assert (Hscaled : forall k : Q, 0 < s ->
            (x v / s * k) * (x v / s * k) + (y v / s * k) * (y v / s * k)
            <= k * k * (1 + t)).
  { intros k Hpos.
    setoid_replace ((x v / s * k) * (x v / s * k) + (y v / s * k) * (y v / s * k))
      with (q * (/ s * / s) * (k * k)) by (unfold q, Qdiv; ring).
    assert (Hi : s * / s == 1) by (apply Qmult_inv_r; lra).
    assert (Hi0 : 0 < / s) by (apply Qinv_lt_0_compat; assumption).
    revert Hi Hi0. generalize (/ s). intros i Hi Hi0.
    assert (Hii : 0 <= i * i) by nra.
    assert (Hqi : q * (i * i) <= (s * s * (1 + t)) * (i * i)) by nra.
    assert (H1 : s * s * (i * i) == 1).
    { setoid_replace (s * s * (i * i)) with ((s * i) * (s * i)) by ring. rewrite Hi. ring. }
    assert (Hq1 : q * (i * i) <= 1 + t).
    { setoid_replace (s * s * (1 + t) * (i * i)) with ((s * s * (i * i)) * (1 + t)) in Hqi
        by ring.
      rewrite H1 in Hqi. lra. }
    assert (Hkk : 0 <= k * k) by nra.
    nra. }
  destruct (Qltb (8 # 10) s) eqn:Hfast.
  - apply Qltb_lt in Hfast.
    assert (Hslow : Qltb s (25 # 100) = false) by (apply Qltb_ge; lra).
    rewrite Hslow. cbn [x y]. apply Hscaled. lra.
  - apply Qltb_ge in Hfast.
    destruct (Qltb s (25 # 100)) eqn:Hslow.
    + apply Qltb_lt in Hslow. cbn [x y]. unfold orElse.
      destruct (Qeq_bool s 0) eqn:Hz.
      * apply Qeq_bool_eq in Hz. rewrite Hz in Hs.
        assert (Hx0 : x v * x v <= 0) by (unfold q in Hs; nra).
        assert (Hy0 : y v * y v <= 0) by (unfold q in Hs; nra).
        assert (Hx : x v == 0) by nra. assert (Hy : y v == 0) by nra.
        rewrite Hx, Hy. lra.
      * apply Qeq_bool_neq in Hz.
        assert (Hpos : 0 < s) by (destruct (Qlt_le_dec 0 s); [assumption | exfalso; apply Hz; lra]).
        pose proof (Hscaled (25 # 100) Hpos) as Hk.
        setoid_replace (x v * ((25 # 100) / s) * (x v * ((25 # 100) / s))
                        + y v * ((25 # 100) / s) * (y v * ((25 # 100) / s)))
          with ((x v / s * (25 # 100)) * (x v / s * (25 # 100))
                + (y v / s * (25 # 100)) * (y v / s * (25 # 100)))
          by (unfold Qdiv; ring).
        lra.
    + fold q. assert (Hss : s * s <= (8 # 10) * (8 # 10)) by nra.
      assert (Hst : s * s * (1 + t) <= (8 # 10) * (8 # 10) * (1 + t)) by nra.
      lra.
Qed.

Lemma clamp_bounds (lo hi v : Q) : lo <= hi -> lo <= clamp lo hi v /\ clamp lo hi v <= hi.
Proof.
  intros Hle. unfold clamp.
  destruct (Math_min_spec hi v) as [[? ->] | [? ->]].
  - destruct (Math_max_spec lo v) as [[? ->] | [? ->]]; split; lra.
  - destruct (Math_max_spec lo hi) as [[? ->] | [? ->]]; split; lra.
Qed.

(** The update of one dynamic obstacle that fits the canvas. *)
Lemma moveDynamic_contained (rnd : Random) (W H : Q) (all : list Obstacle) (i : nat)
    (obs : Obstacle) (v : Vec2) (c : nat) :
  Obstacle.width obs <= W -> Obstacle.height obs <= H ->
  let obs' := fst (moveDynamic rnd W H all i obs v c) in
  insideCanvas W H obs' /\ nearMaxSpeed obs' /\
  Obstacle.width obs' = Obstacle.width obs /\ Obstacle.height obs' = Obstacle.height obs /\
  Obstacle.type obs' = Obstacle.type obs /\ Obstacle.velocity obs' <> None.
Proof.
  intros Hw Hh. unfold moveDynamic.
  destruct (bounceStatic rnd c _ _ _) as [v2 c'].
  cbn [fst]. unfold insideCanvas, nearMaxSpeed.
  cbn [Obstacle.x Obstacle.y Obstacle.width Obstacle.height Obstacle.type Obstacle.velocity].
  set (v4 := limitSpeed _).
  destruct (clamp_bounds 0 (W - Obstacle.width obs) (Obstacle.x obs + x v4)) as [Hx0 Hx1];
    [lra|].
  destruct (clamp_bounds 0 (H - Obstacle.height obs) (Obstacle.y obs + y v4)) as [Hy0 Hy1];
    [lra|].
  repeat split; try assumption; try lra; try discriminate.
  apply limitSpeed_bounded.
Qed.

Lemma replaceNth_length {A} (i : nat) (a : A) (l : list A) :
  length (replaceNth i a l) = length l.
Proof.
  revert i. induction l as [|b t IH]; intros [|i]; simpl; auto.
Qed.

Lemma replaceNth_same {A} (i : nat) (a : A) (l : list A) :
  (i < length l)%nat -> nth_error (replaceNth i a l) i = Some a.
Proof.
  revert i. induction l as [|b t IH]; intros [|i] Hi; simpl in *; try lia; auto.
  apply IH. lia.
Qed.

Lemma replaceNth_other {A} (i j : nat) (a : A) (l : list A) :
  i <> j -> nth_error (replaceNth i a l) j = nth_error l j.
Proof.
  revert i j. induction l as [|b t IH]; intros [|i'] [|j'] Hij; simpl; auto; try congruence.
Qed.

Lemma replaceNth_Forall {A} (P : A -> Prop) (i : nat) (a : A) (l : list A) :
  Forall P l -> P a -> Forall P (replaceNth i a l).
Proof.
  intros Hl Ha. revert i. induction Hl as [|b t Hb Ht IH]; intros [|i]; simpl;
    constructor; auto.
Qed.

(** The body of the outer loop at index [k]: the obstacles before [k]
    stay contained, the one at [k] becomes so, and all stay well formed. *)
Lemma updateObstacle_step (rnd : Random) (W H : Q) (all : list Obstacle) (c k : nat) :
  Forall (wellFormed W H) all ->
  (forall j o, (j < k)%nat -> nth_error all j = Some o -> contained W H o) ->
  (k < length all)%nat ->
  let all' := fst (updateObstacle rnd W H (all, c) k) in
  length all' = length all /\
  Forall (wellFormed W H) all' /\
  (forall j o, (j < S k)%nat -> nth_error all' j = Some o -> contained W H o).
Proof.
  intros Hwf Hdone Hk. unfold updateObstacle.
  destruct (nth_error all k) as [obs|] eqn:Hobs.
  2:{ apply nth_error_None in Hobs. lia. }
  assert (Hobswf : wellFormed W H obs).
  { apply (proj1 (Forall_forall _ _) Hwf). eapply nth_error_In. exact Hobs. }
  destruct (Obstacle.type obs) eqn:Htype.
  - cbn [fst]. split; [reflexivity | split; [assumption|]].
    intros j o Hj Ho. destruct (Nat.eq_dec j k) as [-> | Hne].
    + rewrite Hobs in Ho. inversion Ho; subst. intros Hdyn. congruence.
    + apply (Hdone j o); [lia | assumption].
  - destruct (Hobswf Htype) as [Hvel [Hw Hh]].
    destruct (Obstacle.velocity obs) as [v|] eqn:Hv; [|congruence].
    pose proof (moveDynamic_contained rnd W H all k obs v c Hw Hh) as Hmove.
    destruct (moveDynamic rnd W H all k obs v c) as [obs' c'].
    cbn [fst] in *. cbv zeta in Hmove.
    destruct Hmove as [Hin [Hspeed [Hw' [Hh' [Ht' Hv']]]]].
    split; [apply replaceNth_length|]. split.
    + apply replaceNth_Forall; [assumption|].
      intros _. rewrite Hw', Hh'. auto.
    + intros j o Hj Ho. destruct (Nat.eq_dec j k) as [-> | Hne].
      * rewrite replaceNth_same in Ho by assumption. inversion Ho; subst.
        intros _. split; assumption.
      * rewrite replaceNth_other in Ho by congruence.
        apply (Hdone j o); [lia | assumption].
Qed.

Lemma updateObstacles_fold (rnd : Random) (W H : Q) (m k : nat) (all : list Obstacle)
    (c : nat) :
  Forall (wellFormed W H) all ->
  (forall j o, (j < k)%nat -> nth_error all j = Some o -> contained W H o) ->
  (k + m = length all)%nat ->
  let all' := fst (fold_left (updateObstacle rnd W H) (seq k m) (all, c)) in
  Forall (wellFormed W H) all' /\ Forall (contained W H) all'.
Proof.
  revert k all c. induction m as [|m IH]; intros k all c Hwf Hdone Hlen.
  - simpl. split; [assumption|]. apply Forall_forall. intros o Hin.
    apply In_nth_error in Hin. destruct Hin as [j Hj].
    apply (Hdone j o); [|assumption].
    assert (Hb : nth_error all j <> None) by congruence.
    apply nth_error_Some in Hb. lia.
  - cbn [seq fold_left].
    destruct (updateObstacle_step rnd W H all c k Hwf Hdone ltac:(lia))
      as [Hlen' [Hwf' Hdone']].
    destruct (updateObstacle rnd W H (all, c) k) as [all1 c1]. cbn [fst] in *.
    apply IH; auto. lia.
Qed.

(** After the update of a well-formed field every dynamic obstacle lies
    inside the canvas and is no faster than the maximum speed, up to the
    tolerance. *)
Lemma updateObstacles_contained (rnd : Random) (W H : Q) (all : list Obstacle) (c : nat) :
  Forall (wellFormed W H) all ->
  let all' := fst (updateObstacles rnd W H all c) in
  Forall (wellFormed W H) all' /\ Forall (contained W H) all'.
Proof.
  intros Hwf. unfold updateObstacles.
  apply updateObstacles_fold; auto.
  intros j o Hj. lia.
Qed.

Lemma checkArrival_obstacles (st : SimState) : obstacles (checkArrival st) = obstacles st.
Proof. unfold checkArrival. destruct (target st); reflexivity. Qed.

Lemma follow_obstacles (algorithmMode : Algorithm) (speed : Q) (st : SimState) :
  obstacles (follow algorithmMode speed st) = obstacles st.
Proof.
  unfold follow. destruct algorithmMode.
  1,2: destruct (nth_error (path st) (currentPathIndex st)); reflexivity.
  destruct (target st); reflexivity.
Qed.

Lemma animate_obstacles (algorithmMode : Algorithm) (speed : Q) (rnd : Random)
    (W H : Q) (st : SimState) :
  obstacles (animate algorithmMode speed rnd W H st)
  = fst (updateObstacles rnd W H (obstacles st) (draws st)).
Proof.
  unfold animate.
  destruct (updateObstacles rnd W H (obstacles st) (draws st)) as [obstacles' c'].
  cbn [obstacles fst]. unfold navigate.
  destruct (isActive _); [|reflexivity].
  rewrite checkArrival_obstacles. unfold withDrone. cbn [obstacles].
  apply follow_obstacles.
Qed.

(** The generator makes well-formed fields on a canvas that a UAV fits. *)
Lemma placeStatic_wellFormed (rnd : Random) (W H cellW cellH : Q) (staticCount : Z)
    (acc : list Obstacle * Z * nat) (cell : nat * nat) :
  Forall (wellFormed W H) (fst (fst acc)) ->
  Forall (wellFormed W H)
         (fst (fst (placeStatic rnd W H cellW cellH staticCount acc cell))).
Proof.
  destruct acc as [[obstacles staticIndex] c]. destruct cell as [row col].
  cbn [fst]. intros Hwf. unfold placeStatic.
  destruct (negb _); [assumption|].
  destruct (Qltb _ 120 && _); [assumption|].
  destruct (selectStaticType rnd c) as [typeInfo c1].
  destruct (tooNear _ _ _ _ obstacles); cbn [fst]; [assumption|].
  apply Forall_app. split; [assumption|]. constructor; [|constructor].
  intros Hdyn. discriminate Hdyn.
Qed.

Lemma placeDynamic_wellFormed (attempts : nat) (rnd : Random) (W H : Q)
    (obstacles : list Obstacle) (c : nat) :
  uavSize <= W -> uavSize <= H ->
  Forall (wellFormed W H) obstacles ->
  Forall (wellFormed W H) (fst (placeDynamic attempts rnd W H obstacles c)).
Proof.
  intros HW HH. revert c. induction attempts as [|attempts IH]; intros c Hwf; simpl;
    [assumption|].
  destruct (negb _ && negb _).
  - cbn [fst]. apply Forall_app. split; [assumption|]. constructor; [|constructor].
    intros _. cbn [Obstacle.velocity Obstacle.width Obstacle.height].
    repeat split; [discriminate | assumption | assumption].
  - apply IH, Hwf.
Qed.

Lemma generateObstacles_wellFormed (rnd : Random) (c : nat) (count dynamicCount : Z)
    (W H : Q) :
  uavSize <= W -> uavSize <= H ->
  Forall (wellFormed W H) (fst (generateObstacles rnd c count dynamicCount W H)).
Proof.
  intros HW HH. unfold generateObstacles. cbv zeta.
  set (cells := flat_map _ _). set (step := placeStatic _ _ _ _ _ _).
  assert (Hstatics : forall l acc, Forall (wellFormed W H) (fst (fst acc)) ->
                       Forall (wellFormed W H) (fst (fst (fold_left step l acc)))).
  { induction l as [|cell rest IH]; intros acc Hacc; cbn [fold_left]; [assumption|].
    apply IH. unfold step. now apply placeStatic_wellFormed. }
  assert (Hnil : Forall (wellFormed W H) (fst (fst (@nil Obstacle, 0%Z, c))))
    by constructor.
  specialize (Hstatics cells (@nil Obstacle, 0%Z, c) Hnil).
  destruct (fold_left step cells ([], 0%Z, c)) as [[statics idx] c1]. cbn [fst] in Hstatics.
  generalize (seq 0 (Z.to_nat dynamicCount)). intros l.
  assert (Hdyn : forall acc : list Obstacle * nat, Forall (wellFormed W H) (fst acc) ->
            Forall (wellFormed W H)
              (fst (fold_left (fun (a : list Obstacle * nat) (_ : nat) =>
                                 placeDynamic 50 rnd W H (fst a) (snd a)) l acc))).
  { induction l as [|i rest IH]; intros acc Hacc; cbn [fold_left]; [assumption|].
    apply IH. now apply placeDynamic_wellFormed. }
  apply (Hdyn (statics, c1)). exact Hstatics.
Qed.

Lemma initialState_wellFormed (rnd : Random) (obstacleCount dynamicObstacleCount : Z)
    (W H : Q) :
  uavSize <= W -> uavSize <= H ->
  Forall (wellFormed W H)
         (obstacles (initialState rnd obstacleCount dynamicObstacleCount W H)).
Proof.
  intros HW HH. unfold initialState.
  pose proof (generateObstacles_wellFormed rnd 0 obstacleCount dynamicObstacleCount W H
                                           HW HH) as Hgen.
  destruct (generateObstacles rnd 0 obstacleCount dynamicObstacleCount W H) as [field c].
  exact Hgen.
Qed.

(** C8. From a field whose dynamic obstacles have a velocity and are not
    larger than the canvas, as every generated field is, after every tick
    every dynamic obstacle lies inside the canvas, and the square of its
    speed is at most the square of the maximum speed times [1 + 10 ^ -12]:
    the speed is limited up to the rounding of the square root. *)
Theorem dynamic_obstacles_contained (algorithmMode : Algorithm) (speed : Q) (rnd : Random)
    (W H : Q) (st : SimState) (n : nat) :
  Forall (wellFormed W H) (obstacles st) ->
  Forall (contained W H) (obstacles (ticks (S n) algorithmMode speed rnd W H st)).
Proof.
  revert st. induction n as [|n IH]; intros st Hwf.
  - cbn [ticks]. rewrite animate_obstacles.
    apply updateObstacles_contained, Hwf.
  - change (ticks (S (S n)) algorithmMode speed rnd W H st)
      with (ticks (S n) algorithmMode speed rnd W H
                  (animate algorithmMode speed rnd W H st)).
    apply IH. rewrite animate_obstacles.
    apply updateObstacles_contained, Hwf.
Qed.

End ObstacleProperties.

(** The square root of the reference library is rounded upwards. *)
Lemma refMath_sqrtRounded : sqrtRounded (M := refMath).
Proof.
  intros a Ha. split; [apply (sqrt_nonneg (M := refMath))|].
  pose proof (sqrt_upper (M := refMath) a Ha) as Hs.
  assert (0 <= sqrt (MathLib := refMath) a * sqrt (MathLib := refMath) a) by nra.
  unfold speedTolerance. nra.
Qed.

Lemma dynamic_obstacles_contained_witness :
  Forall (contained canvasW canvasH)
         (obstacles (ticks (M := refMath) 3 astarMode (6 # 10) halves canvasW canvasH
                           sceneTraffic)).
Proof.
  apply (dynamic_obstacles_contained (M := refMath) refMath_sqrtRounded astarMode (6 # 10)
                                     halves canvasW canvasH sceneTraffic 2).
  repeat constructor; intros Hdyn; try discriminate Hdyn;
    repeat split; try discriminate; vm_compute; discriminate.
Defined.

(** The speed limit does not hold exactly.  A UAV alone in the middle of
    the canvas with the velocity [(0.01, 0.83)] is updated in binary64: the
    speed limit rescales its velocity, and the speed of what it leaves, as
    the code takes it, is above the maximum speed; so is the exact sum of
    the squares above the square of the maximum speed. *)
Lemma dynamic_obstacle_above_max_speed :
  fst (Binary64.updateObstacles Binary64Scenes.halves Binary64Scenes.canvasW
                                Binary64Scenes.canvasH [Binary64Scenes.loneUav] 0)
  = [Binary64Scenes.loneUavMoved] /\
  Binary64.Obstacle.type Binary64Scenes.loneUavMoved = dynamic /\
  Binary64.Obstacle.velocity Binary64Scenes.loneUavMoved = Some Binary64Scenes.rescaled /\
  PrimFloat.ltb Binary64.maxSpeed (Binary64.speedOf Binary64Scenes.rescaled) = true /\
  exists vx vy top : Q,
    Binary64.toQ (Binary64.x Binary64Scenes.rescaled) = Some vx /\
    Binary64.toQ (Binary64.y Binary64Scenes.rescaled) = Some vy /\
    Binary64.toQ Binary64.maxSpeed = Some top /\
    obstacleMaxSpeed <= top /\
    top * top < vx * vx + vy * vy.
Proof.
  split; [vm_compute; reflexivity|].
  split; [reflexivity|].
  split; [reflexivity|].
  split; [vm_compute; reflexivity|].
  do 3 eexists.
  split; [vm_compute; reflexivity|].
  split; [vm_compute; reflexivity|].
  split; [vm_compute; reflexivity|].
  split; [vm_compute; discriminate | vm_compute; reflexivity].
Qed.

(** ** Path smoothing *)

Section SmoothingProperties.
Context {M : MathLib}.

Lemma furthestVisible_spec (path : list Vec2) (obstacles : list Obstacle) (current k : nat) :
  let furthest := furthestVisible path obstacles current k in
  (current + 1 <= furthest <= current + 1 + k)%nat /\
  (furthest = (current + 1)%nat \/
   hasLineOfSight (nth current path origin) (nth furthest path origin) obstacles = true).
Proof.
  induction k as [|k IH]; simpl.
  - split; [lia | left; reflexivity].
  - destruct (hasLineOfSight _ _ obstacles) eqn:Hsight.
    + split; [lia | right; exact Hsight].
    + cbv zeta in IH. destruct IH as [Hb Hc]. split; [lia | exact Hc].
Qed.

Lemma pathClear_snoc (obstacles : list Obstacle) (p : list Vec2) (b : Vec2) :
  p <> [] ->
  pathClear obstacles p = true ->
  hasLineOfSight (last p origin) b obstacles = true ->
  pathClear obstacles (p ++ [b]) = true.
Proof.
  induction p as [|a rest IH]; intros Hne Hp Hb; [congruence|].
  destruct rest as [|a' rest'].
  - simpl in *. now rewrite Hb.
  - change (pathClear obstacles (a :: a' :: rest')) with
      (hasLineOfSight a a' obstacles && pathClear obstacles (a' :: rest')) in Hp.
    apply andb_true_iff in Hp. destruct Hp as [Ha Hrest].
    change (pathClear obstacles ((a :: a' :: rest') ++ [b])) with
      (hasLineOfSight a a' obstacles && pathClear obstacles ((a' :: rest') ++ [b])).
    rewrite Ha. cbn [andb]. apply IH; [discriminate | assumption | exact Hb].
Qed.

Lemma pathClear_nth (obstacles : list Obstacle) (p : list Vec2) (i : nat) :
  pathClear obstacles p = true -> (S i < length p)%nat ->
  hasLineOfSight (nth i p origin) (nth (S i) p origin) obstacles = true.
Proof.
  revert i. induction p as [|a rest IH]; intros i Hp Hi; [simpl in Hi; lia|].
  destruct rest as [|a' rest']; [simpl in Hi; lia|].
  change (pathClear obstacles (a :: a' :: rest')) with
    (hasLineOfSight a a' obstacles && pathClear obstacles (a' :: rest')) in Hp.
  apply andb_true_iff in Hp. destruct Hp as [Ha Hrest].
  destruct i as [|i]; [exact Ha|].
  change (nth (S i) (a :: a' :: rest') origin) with (nth i (a' :: rest') origin).
  change (nth (S (S i)) (a :: a' :: rest') origin) with (nth (S i) (a' :: rest') origin).
  apply IH; [assumption | simpl in *; lia].
Qed.

(** The loop ends within its fuel; it adds at most one point for each raw
    point it has left, ends at the last raw point, and keeps the polyline
    clear when the raw path is. *)
Lemma smoothLoop_spec (fuel : nat) (path : list Vec2) (obstacles : list Obstacle)
    (current : nat) (smoothed : list Vec2) :
  (current < length path)%nat ->
  (length path - 1 - current <= fuel)%nat ->
  smoothed <> [] ->
  last smoothed origin = nth current path origin ->
  exists result,
    smoothLoop fuel path obstacles current smoothed = Some result /\
    (length result <= length smoothed + (length path - 1 - current))%nat /\
    last result origin = nth (length path - 1) path origin /\
    (pathClear obstacles path = true -> pathClear obstacles smoothed = true ->
     pathClear obstacles result = true).
Proof.
  revert current smoothed.
  induction fuel as [|fuel IH]; intros current smoothed Hcur Hfuel Hne Hlast.
  - simpl. assert (Hend : (current <? length path - 1)%nat = false) by (apply Nat.ltb_ge; lia).
    rewrite Hend. exists smoothed. repeat split; auto; try lia.
    rewrite Hlast. f_equal. lia.
  - simpl. destruct (Nat.ltb_spec current (length path - 1)) as [Hlt | Hge].
    + destruct (furthestVisible_spec path obstacles current
                                     (length path - 1 - (current + 1))) as [Hb Hsight].
      set (furthest := furthestVisible path obstacles current
                                       (length path - 1 - (current + 1))) in *.
      destruct (IH furthest (smoothed ++ [nth furthest path origin]))
        as [result [Hres [Hlen [Hend Hclear]]]].
      * lia.
      * lia.
      * destruct smoothed; discriminate.
      * apply last_last.
      * exists result. rewrite length_app in Hlen. simpl in Hlen.
        repeat split; auto; try lia.
        intros Hraw Hsm. apply Hclear; [assumption|].
        apply pathClear_snoc; [assumption | assumption|].
        rewrite Hlast. destruct Hsight as [-> | Hsight]; [|exact Hsight].
        replace (current + 1)%nat with (S current) by lia.
        apply pathClear_nth; [assumption | lia].
    + exists smoothed. repeat split; auto; try lia.
      rewrite Hlast. f_equal. lia.
Qed.

(** Smoothing returns, for every path. *)
Lemma smoothPathFuel_total (path : list Vec2) (obstacles : list Obstacle) :
  exists result, smoothPathFuel (length path) path obstacles = Some result.
Proof.
  unfold smoothPathFuel. destruct (length path <=? 2)%nat eqn:Hshort; [eauto|].
  apply Nat.leb_gt in Hshort.
  destruct (smoothLoop_spec (length path) path obstacles 0 [nth 0 path origin])
    as [result [Hres _]]; try lia; try discriminate; try reflexivity.
  eauto.
Qed.

(** The smoothed path has no more points than the raw path. *)
Lemma smoothPath_length (path : list Vec2) (obstacles : list Obstacle) :
  (length (smoothPath path obstacles) <= length path)%nat.
Proof.
  unfold smoothPath, smoothPathFuel.
  destruct (length path <=? 2)%nat eqn:Hshort; [lia|].
  apply Nat.leb_gt in Hshort.
  destruct (smoothLoop_spec (length path) path obstacles 0 [nth 0 path origin])
    as [result [Hres [Hlen _]]]; try lia; try discriminate; try reflexivity.
  rewrite Hres. simpl in Hlen. lia.
Qed.

(** Every segment of the smoothed path is a shortcut that passed the
    line-of-sight test or a segment of the raw path. *)
Lemma smoothPath_clear (path : list Vec2) (obstacles : list Obstacle) :
  pathClear obstacles path = true ->
  pathClear obstacles (smoothPath path obstacles) = true.
Proof.
  intros Hraw. unfold smoothPath, smoothPathFuel.
  destruct (length path <=? 2)%nat eqn:Hshort; [assumption|].
  apply Nat.leb_gt in Hshort.
  destruct (smoothLoop_spec (length path) path obstacles 0 [nth 0 path origin])
    as [result [Hres [_ [_ Hclear]]]]; try lia; try discriminate; try reflexivity.
  rewrite Hres. apply Hclear; [assumption | reflexivity].
Qed.

End SmoothingProperties.

(** ** The occupancy grid and the line of sight *)

Section GridProperties.
Context {M : MathLib}.

Lemma existsb_false {A} (fn : A -> bool) (l : list A) :
  (forall a, In a l -> fn a = false) <-> existsb fn l = false.
Proof.
  induction l as [|a rest IH]; simpl.
  - split; auto. intros _ a [].
  - rewrite orb_false_iff, <- IH. split.
    + intros Hall. split; [apply Hall; auto | intros b Hb; apply Hall; auto].
    + intros [Ha Hrest] b [<- | Hb]; auto.
Qed.

Lemma inflation_width : inject_Z inflation * GRID_SIZE == 15.
Proof. reflexivity. Qed.

Lemma below_floor (z : Z) (q : Q) : (z < Qfloor q)%Z -> inject_Z z + 1 <= q.
Proof.
  intros Hz. apply Qle_trans with (inject_Z (Qfloor q)); [|apply Qfloor_le].
  change 1 with (inject_Z 1). rewrite <- inject_Z_plus, <- Zle_Qle. lia.
Qed.

Lemma above_ceiling (z : Z) (q : Q) : (Qceiling q < z)%Z -> q + 1 <= inject_Z z.
Proof.
  intros Hz. apply Qle_trans with (inject_Z (Qceiling q) + 1).
  - pose proof (Qle_ceiling q). lra.
  - change 1 with (inject_Z 1). rewrite <- inject_Z_plus, <- Zle_Qle. lia.
Qed.

(** A cell that is not occupied by an obstacle lies, in one coordinate, two
    cells away from the obstacle's bound. *)
Lemma free_cell_side (c : Cell) (obs : Obstacle) :
  occupiedBy c obs = false ->
  x (cellPoint c) <= Obstacle.x obs - 30 \/
  Obstacle.x obs + Obstacle.width obs + 30 <= x (cellPoint c) \/
  y (cellPoint c) <= Obstacle.y obs - 30 \/
  Obstacle.y obs + Obstacle.height obs + 30 <= y (cellPoint c).
Proof.
  unfold occupiedBy, cellPoint, Math_floor, Math_ceil. cbn [x y].
  pose proof inflation_width as Hinfl. revert Hinfl.
  generalize (inject_Z inflation * GRID_SIZE). intros infl Hinfl. unfold GRID_SIZE.
  intros Hfree. rewrite !andb_false_iff in Hfree.
  destruct Hfree as [[[Hf | Hf] | Hf] | Hf]; apply Z.leb_gt in Hf.
  - left. apply below_floor in Hf.
    assert (Hq : (Obstacle.x obs - infl) / 15 * 15 == Obstacle.x obs - infl) by (field).
    revert Hf Hq. generalize ((Obstacle.x obs - infl) / 15). intros q Hf Hq. lra.
  - right. left. apply above_ceiling in Hf.
    assert (Hq : (Obstacle.x obs + Obstacle.width obs + infl) / 15 * 15
                 == Obstacle.x obs + Obstacle.width obs + infl) by (field).
    revert Hf Hq. generalize ((Obstacle.x obs + Obstacle.width obs + infl) / 15).
    intros q Hf Hq. lra.
  - right. right. left. apply below_floor in Hf.
    assert (Hq : (Obstacle.y obs - infl) / 15 * 15 == Obstacle.y obs - infl) by (field).
    revert Hf Hq. generalize ((Obstacle.y obs - infl) / 15). intros q Hf Hq. lra.
  - right. right. right. apply above_ceiling in Hf.
    assert (Hq : (Obstacle.y obs + Obstacle.height obs + infl) / 15 * 15
                 == Obstacle.y obs + Obstacle.height obs + infl) by (field).
    revert Hf Hq. generalize ((Obstacle.y obs + Obstacle.height obs + infl) / 15).
    intros q Hf Hq. lra.
Qed.

Lemma adjacent_points (a b : Cell) :
  adjacent a b ->
  x (cellPoint b) - 15 <= x (cellPoint a) <= x (cellPoint b) + 15 /\
  y (cellPoint b) - 15 <= y (cellPoint a) <= y (cellPoint b) + 15.
Proof.
  unfold adjacent, cellPoint, GRID_SIZE. cbn [x y]. intros [Hx Hy].
  assert (Hx1 : inject_Z (fst b) - 1 <= inject_Z (fst a)).
  { change 1 with (inject_Z 1). unfold Qminus. rewrite <- inject_Z_opp, <- inject_Z_plus, <- Zle_Qle. lia. }
  assert (Hx2 : inject_Z (fst a) <= inject_Z (fst b) + 1).
  { change 1 with (inject_Z 1). rewrite <- inject_Z_plus, <- Zle_Qle. lia. }
  assert (Hy1 : inject_Z (snd b) - 1 <= inject_Z (snd a)).
  { change 1 with (inject_Z 1). unfold Qminus. rewrite <- inject_Z_opp, <- inject_Z_plus, <- Zle_Qle. lia. }
  assert (Hy2 : inject_Z (snd a) <= inject_Z (snd b) + 1).
  { change 1 with (inject_Z 1). rewrite <- inject_Z_plus, <- Zle_Qle. lia. }
  repeat split; lra.
Qed.

(** No point between a cell and a free cell next to it lies in the
    obstacle's bound inflated by the drone radius. *)
Lemma between_cells_outside (a b : Cell) (obs : Obstacle) (t : Q) :
  adjacent a b -> occupiedBy b obs = false -> 0 <= t <= 1 ->
  insideInflated DRONE_RADIUS
    (x (cellPoint a) + (x (cellPoint b) - x (cellPoint a)) * t)
    (y (cellPoint a) + (y (cellPoint b) - y (cellPoint a)) * t) obs = false.
Proof.
  intros Hadj Hfree Ht.
  destruct (adjacent_points a b Hadj) as [[Hx1 Hx2] [Hy1 Hy2]].
  pose proof (free_cell_side b obs Hfree) as Hside.
  revert Hx1 Hx2 Hy1 Hy2 Hside.
  generalize (x (cellPoint a)) (y (cellPoint a)) (x (cellPoint b)) (y (cellPoint b)).
  intros xa ya xb yb Hx1 Hx2 Hy1 Hy2 Hside.
  unfold insideInflated, DRONE_RADIUS. rewrite !andb_false_iff.
  destruct Hside as [Hs | [Hs | [Hs | Hs]]].
  - left. left. left. apply Qltb_ge. nra.
  - left. left. right. apply Qltb_ge. nra.
  - left. right. apply Qltb_ge. nra.
  - right. apply Qltb_ge. nra.
Qed.

(** The segment from a cell to a free cell next to it has line of sight. *)
Lemma hasLineOfSight_adjacent (obstacles : list Obstacle) (a b : Cell) :
  adjacent a b -> occupied obstacles b = false ->
  hasLineOfSight (cellPoint a) (cellPoint b) obstacles = true.
Proof.
  intros Hadj Hfree. unfold hasLineOfSight.
  set (steps := Math_ceil _). destruct (Z.leb_spec steps 0) as [Hle | Hpos]; [reflexivity|].
  apply forallb_forall. intros p Hp. unfold samples in Hp.
  apply in_map_iff in Hp. destruct Hp as [i [<- Hi]]. apply in_seq in Hi.
  unfold sampleFree. apply negb_true_iff. apply existsb_false. intros obs Hobs.
  unfold lerp. cbn [x y].
  apply between_cells_outside; [assumption | |].
  - unfold occupied in Hfree. apply (proj2 (existsb_false _ _) Hfree obs Hobs).
  - assert (Hs : 0 < inject_Z steps) by (change 0 with (inject_Z 0); rewrite <- Zlt_Qlt; lia).
    split.
    + apply Qle_shift_div_l; [assumption|]. rewrite Qmult_0_l.
      change 0 with (inject_Z 0). rewrite <- Zle_Qle. lia.
    + apply Qle_shift_div_r; [assumption|]. rewrite Qmult_1_l.
      rewrite <- Zle_Qle. lia.
Qed.

(** The points of a raw grid path form a clear polyline. *)
Lemma gridPath_clear (obstacles : list Obstacle) (cells : list Cell) :
  gridPath obstacles cells -> pathClear obstacles (map cellPoint cells) = true.
Proof.
  induction cells as [|a rest IH]; intros Hgrid; [reflexivity|].
  destruct rest as [|b rest']; [reflexivity|].
  destruct Hgrid as [Hadj [Hfree Hrest]].
  change (pathClear obstacles (map cellPoint (a :: b :: rest'))) with
    (hasLineOfSight (cellPoint a) (cellPoint b) obstacles
     && pathClear obstacles (map cellPoint (b :: rest'))).
  rewrite hasLineOfSight_adjacent by assumption. apply IH, Hrest.
Qed.

(** C2. For a raw path of the grid planner on an obstacle set, the
    smoothed path has no more waypoints than the raw path and every one of
    its segments passes the line-of-sight test on that obstacle set. *)
Theorem smoothPath_grid_path (obstacles : list Obstacle) (cells : list Cell) :
  gridPath obstacles cells ->
  let raw := map cellPoint cells in
  (length (smoothPath raw obstacles) <= length raw)%nat /\
  pathClear obstacles (smoothPath raw obstacles) = true.
Proof.
  intros Hgrid. cbv zeta. split.
  - apply smoothPath_length.
  - apply smoothPath_clear, gridPath_clear, Hgrid.
Qed.

End GridProperties.

Lemma smoothPath_grid_path_witness :
  let raw := map cellPoint cellsAroundBuilding in
  (length (smoothPath (M := refMath) raw [buildingAhead]) <= length raw)%nat /\
  pathClear (M := refMath) [buildingAhead] (smoothPath (M := refMath) raw [buildingAhead])
    = true.
Proof.
  apply (smoothPath_grid_path (M := refMath) [buildingAhead] cellsAroundBuilding).
  unfold cellsAroundBuilding. cbn [gridPath]. unfold adjacent. cbn [fst snd].
  repeat split; try lia; vm_compute; reflexivity.
Defined.

(** ** The raw path of the grid planner *)

Section AstarProperties.
Context {M : MathLib}.

Lemma PathNode_chain_ind (P : PathNode -> Prop) :
  (forall cx cy g0 h0 f0, P (mkNode cx cy g0 h0 f0 None)) ->
  (forall cx cy g0 h0 f0 p, P p -> P (mkNode cx cy g0 h0 f0 (Some p))) ->
  forall node, P node.
Proof.
  intros Hroot Hstep. fix IH 1. intros [cx cy g0 h0 f0 [p|]].
  - apply Hstep, IH.
  - apply Hroot.
Qed.

Lemma cellsOf_last (node : PathNode) (d : Cell) :
  cellsOf node <> [] /\ last (cellsOf node) d = (nx node, ny node).
Proof.
  destruct node as [cx cy g0 h0 f0 [p|]]; simpl.
  - split; [destruct (cellsOf p); discriminate | apply last_last].
  - split; [discriminate | reflexivity].
Qed.

Lemma reconstruct_cells (node : PathNode) (acc : list Vec2) :
  reconstruct node acc = map cellPoint (cellsOf node) ++ acc.
Proof.
  revert acc. induction node as [cx cy g0 h0 f0 | cx cy g0 h0 f0 p IH] using PathNode_chain_ind;
    intros acc; simpl.
  - reflexivity.
  - rewrite IH, map_app, <- app_assoc. reflexivity.
Qed.

Lemma gridPath_snoc (obstacles : list Obstacle) (cells : list Cell) (c d : Cell) :
  gridPath obstacles cells -> cells <> [] ->
  adjacent (last cells d) c -> occupied obstacles c = false ->
  gridPath obstacles (cells ++ [c]).
Proof.
  induction cells as [|a rest IH]; intros Hgrid Hne Hadj Hfree; [congruence|].
  destruct rest as [|b rest'].
  - simpl in *. auto.
  - destruct Hgrid as [Hab [Hb Hrest]].
    change (gridPath obstacles ((a :: b :: rest') ++ [c])) with
      (adjacent a b /\ occupied obstacles b = false /\
       gridPath obstacles ((b :: rest') ++ [c])).
    split; [assumption | split; [assumption|]]. apply IH; auto. discriminate.
Qed.

(** A node reached from [current] over a free neighbouring cell. *)
Lemma child_gridPath (obstacles : list Obstacle) (current : PathNode) (cx cy : Z)
    (g0 h0 f0 : Q) :
  gridPath obstacles (cellsOf current) ->
  adjacent (nx current, ny current) (cx, cy) ->
  occupied obstacles (cx, cy) = false ->
  gridPath obstacles (cellsOf (mkNode cx cy g0 h0 f0 (Some current))).
Proof.
  intros Hcur Hadj Hfree. simpl.
  destruct (cellsOf_last current (0, 0)%Z) as [Hne Hlast].
  apply gridPath_snoc with (d := (0, 0)%Z); auto. now rewrite Hlast.
Qed.

Lemma sameCell_eq (a b : Cell) : sameCell a b = true -> a = b.
Proof.
  unfold sameCell. intros H. apply andb_true_iff in H. destruct H as [Hx Hy].
  apply Z.eqb_eq in Hx, Hy. destruct a, b. simpl in *. congruence.
Qed.

Lemma relax_gridPath (obstacles : list Obstacle) (cell : Cell) (g' f' : Q)
    (current : PathNode) (openSet openSet' : list PathNode) :
  Forall (fun n => gridPath obstacles (cellsOf n)) openSet ->
  gridPath obstacles (cellsOf current) ->
  adjacent (nx current, ny current) cell ->
  occupied obstacles cell = false ->
  relax cell g' f' current openSet = Some openSet' ->
  Forall (fun n => gridPath obstacles (cellsOf n)) openSet'.
Proof.
  intros Hopen Hcur Hadj Hfree. revert openSet'.
  induction Hopen as [|n rest Hn Hrest IH]; intros openSet' Hrelax; simpl in Hrelax;
    [discriminate|].
  destruct (sameCell (nx n, ny n) cell) eqn:Hsame.
  - inversion Hrelax; subst. constructor; [|assumption].
    destruct (Qltb g' (g n)); [|assumption].
    apply sameCell_eq in Hsame. subst cell.
    now apply child_gridPath.
  - destruct (relax cell g' f' current rest) as [rest'|]; [|discriminate].
    inversion Hrelax; subst. constructor; [assumption | now apply IH].
Qed.

Lemma expand_gridPath (obstacles : list Obstacle) (gridW gridH : Z) (goalNode : Cell)
    (closedSet : list Cell) (current : PathNode) (openSet : list PathNode)
    (dir : Direction) :
  In dir directions ->
  gridPath obstacles (cellsOf current) ->
  Forall (fun n => gridPath obstacles (cellsOf n)) openSet ->
  Forall (fun n => gridPath obstacles (cellsOf n))
         (expand obstacles gridW gridH goalNode closedSet current openSet dir).
Proof.
  intros Hdir Hcur Hopen. unfold expand.
  destruct (_ || _ || _ || _)%bool; [assumption|].
  destruct (existsb _ closedSet); [assumption|].
  destruct (occupied obstacles _) eqn:Hfree; [assumption|].
  assert (Hadj : adjacent (nx current, ny current)
                          ((nx current + ddx dir)%Z, (ny current + ddy dir)%Z)).
  { unfold adjacent. cbn [fst snd]. simpl in Hdir.
    destruct Hdir as [<- | [<- | [<- | [<- | [<- | [<- | [<- | [<- | []]]]]]]]];
      cbn [ddx ddy]; lia. }
  destruct (relax _ _ _ current openSet) as [openSet'|] eqn:Hrelax.
  - eapply relax_gridPath; eauto.
  - apply Forall_app. split; [assumption|]. constructor; [|constructor].
    now apply child_gridPath.
Qed.

Lemma expandAll_gridPath (obstacles : list Obstacle) (gridW gridH : Z) (goalNode : Cell)
    (closedSet : list Cell) (current : PathNode) (dirs : list Direction)
    (openSet : list PathNode) :
  incl dirs directions ->
  gridPath obstacles (cellsOf current) ->
  Forall (fun n => gridPath obstacles (cellsOf n)) openSet ->
  Forall (fun n => gridPath obstacles (cellsOf n))
         (fold_left (expand obstacles gridW gridH goalNode closedSet current) dirs openSet).
Proof.
  revert openSet. induction dirs as [|dir rest IH]; intros openSet Hincl Hcur Hopen; simpl.
  - assumption.
  - apply IH; [intros d Hd; apply Hincl; now right | assumption|].
    apply expand_gridPath; auto. apply Hincl. now left.
Qed.

Lemma insertByF_Forall (P : PathNode -> Prop) (n : PathNode) (sorted : list PathNode) :
  P n -> Forall P sorted -> Forall P (insertByF n sorted).
Proof.
  intros Hn Hs. induction Hs as [|m rest Hm Hrest IH]; simpl.
  - constructor; auto.
  - destruct (Qleb (f n) (f m)); repeat constructor; auto.
Qed.

Lemma sortByF_Forall (P : PathNode -> Prop) (openSet : list PathNode) :
  Forall P openSet -> Forall P (sortByF openSet).
Proof.
  intros Ho. induction Ho as [|n rest Hn Hrest IH]; simpl; [constructor|].
  now apply insertByF_Forall.
Qed.

(** A path that the search returns is the smoothing of a raw grid path. *)
Lemma astarLoop_raw (fuel : nat) (obstacles : list Obstacle) (gridW gridH : Z)
    (goalNode : Cell) (openSet : list PathNode) (closedSet : list Cell)
    (nodesExplored : nat) (r : AstarResult) :
  Forall (fun n => gridPath obstacles (cellsOf n)) openSet ->
  astarLoop fuel obstacles gridW gridH goalNode openSet closedSet nodesExplored = Some r ->
  astar_path r = [] \/
  exists cells, gridPath obstacles cells /\
                astar_path r = smoothPath (map cellPoint cells) obstacles.
Proof.
  revert openSet closedSet nodesExplored.
  induction fuel as [|fuel IH]; intros openSet closedSet nodesExplored Hopen Hrun;
    cbn [astarLoop] in Hrun; pose proof (sortByF_Forall _ _ Hopen) as Hsorted;
    destruct (sortByF openSet) as [|current openSet'].
  - inversion Hrun; subst. left. reflexivity.
  - discriminate.
  - inversion Hrun; subst. left. reflexivity.
  - inversion Hsorted as [|? ? Hcur Hrest]; subst.
    destruct (sameCell (nx current, ny current) goalNode).
    + inversion Hrun; subst. right. exists (cellsOf current). split; [assumption|].
      cbn [astar_path]. rewrite reconstruct_cells, app_nil_r. reflexivity.
    + eapply IH; [|exact Hrun].
      apply expandAll_gridPath; auto. apply incl_refl.
Qed.

(** *** The search ends within its fuel *)

Lemma sameCell_refl (a : Cell) : sameCell a a = true.
Proof. unfold sameCell. now rewrite !Z.eqb_refl. Qed.

Lemma closed_has (c : Cell) (closedSet : list Cell) :
  existsb (sameCell c) closedSet = false -> ~ In c closedSet.
Proof.
  intros Hno Hin. apply (proj2 (existsb_false _ _) Hno) in Hin.
  rewrite sameCell_refl in Hin. discriminate.
Qed.

Lemma relax_cells (cell : Cell) (g' f' : Q) (current : PathNode)
    (openSet openSet' : list PathNode) :
  relax cell g' f' current openSet = Some openSet' ->
  map cellOf openSet' = map cellOf openSet.
Proof.
  revert openSet'. induction openSet as [|n rest IH]; intros openSet' Hrelax;
    simpl in Hrelax; [discriminate|].
  destruct (sameCell (nx n, ny n) cell).
  - inversion Hrelax; subst. simpl. destruct (Qltb g' (g n)); reflexivity.
  - destruct (relax cell g' f' current rest) as [rest'|]; [|discriminate].
    inversion Hrelax; subst. simpl. f_equal. now apply IH.
Qed.

Lemma relax_none (cell : Cell) (g' f' : Q) (current : PathNode) (openSet : list PathNode) :
  relax cell g' f' current openSet = None -> ~ In cell (map cellOf openSet).
Proof.
  induction openSet as [|n rest IH]; intros Hrelax; simpl in *; [tauto|].
  destruct (sameCell (nx n, ny n) cell) eqn:Hsame; [discriminate|].
  destruct (relax cell g' f' current rest); [discriminate|].
  intros [Heq | Hin]; [|now apply IH].
  unfold cellOf in Heq. rewrite Heq, sameCell_refl in Hsame. discriminate.
Qed.

Lemma expand_invariant (obstacles : list Obstacle) (gridW gridH : Z) (goalNode startCell : Cell)
    (closedSet : list Cell) (current : PathNode) (openSet : list PathNode)
    (dir : Direction) :
  openInvariant gridW gridH startCell closedSet openSet ->
  openInvariant gridW gridH startCell closedSet
                (expand obstacles gridW gridH goalNode closedSet current openSet dir).
Proof.
  intros [Hnodup Hcells]. unfold expand.
  destruct (_ || _ || _ || _)%bool eqn:Hout; [split; assumption|].
  destruct (existsb _ closedSet) eqn:Hclosed; [split; assumption|].
  destruct (occupied obstacles _); [split; assumption|].
  destruct (relax _ _ _ current openSet) as [openSet'|] eqn:Hrelax.
  - unfold openInvariant. rewrite (relax_cells _ _ _ _ _ _ Hrelax). split; assumption.
  - apply relax_none in Hrelax. unfold openInvariant.
    rewrite map_app. cbn [map cellOf nx ny]. split.
    + apply NoDup_app; [assumption | repeat constructor; auto |].
      intros c Hc [<- | []]. contradiction.
    + intros c Hc. apply in_app_iff in Hc. destruct Hc as [Hc | [<- | []]]; [auto|].
      split; [now apply closed_has|]. right.
      rewrite !orb_false_iff in Hout. destruct Hout as [[[H1 H2] H3] H4].
      apply Z.ltb_ge in H1, H3. rewrite Z.geb_leb in H2, H4. apply Z.leb_gt in H2, H4.
      unfold inGrid, cellOf. cbn [fst snd nx ny]. lia.
Qed.

Lemma expandAll_invariant (obstacles : list Obstacle) (gridW gridH : Z)
    (goalNode startCell : Cell) (closedSet : list Cell) (current : PathNode)
    (dirs : list Direction) (openSet : list PathNode) :
  openInvariant gridW gridH startCell closedSet openSet ->
  openInvariant gridW gridH startCell closedSet
    (fold_left (expand obstacles gridW gridH goalNode closedSet current) dirs openSet).
Proof.
  revert openSet. induction dirs as [|dir rest IH]; intros openSet Hinv; simpl; auto.
  apply IH, expand_invariant, Hinv.
Qed.

Lemma insertByF_perm (n : PathNode) (sorted : list PathNode) :
  Permutation (insertByF n sorted) (n :: sorted).
Proof.
  induction sorted as [|m rest IH]; simpl; [reflexivity|].
  destruct (Qleb (f n) (f m)); [reflexivity|].
  rewrite IH. apply perm_swap.
Qed.

Lemma sortByF_perm (openSet : list PathNode) : Permutation (sortByF openSet) openSet.
Proof.
  induction openSet as [|n rest IH]; simpl; [reflexivity|].
  rewrite insertByF_perm. now constructor.
Qed.

Lemma gridCells_complete (gridW gridH : Z) (c : Cell) :
  inGrid gridW gridH c -> In c (gridCells gridW gridH).
Proof.
  intros [Hx Hy]. destruct c as [cx cy]. cbn [fst snd] in *. unfold gridCells.
  apply in_prod; apply in_map_iff.
  - exists (Z.to_nat cx). split; [lia | apply in_seq; lia].
  - exists (Z.to_nat cy). split; [lia | apply in_seq; lia].
Qed.

Lemma gridCells_length (gridW gridH : Z) :
  (length (gridCells gridW gridH) <= Z.to_nat (gridW * gridH))%nat.
Proof.
  unfold gridCells, Cell. rewrite length_prod, !length_map, !length_seq.
  destruct (Z.le_gt_cases gridW 0) as [Hw | Hw].
  - replace (Z.to_nat gridW) with 0%nat by lia. lia.
  - destruct (Z.le_gt_cases gridH 0) as [Hh | Hh].
    + replace (Z.to_nat gridH) with 0%nat by lia. lia.
    + rewrite <- Z2Nat.inj_mul by lia. lia.
Qed.

(** The loop returns when its fuel covers the cells that are not closed. *)
Lemma astarLoop_total (fuel : nat) (obstacles : list Obstacle) (gridW gridH : Z)
    (goalNode startCell : Cell) (openSet : list PathNode) (closedSet : list Cell)
    (nodesExplored : nat) :
  openInvariant gridW gridH startCell closedSet openSet ->
  NoDup closedSet ->
  (forall c, In c closedSet -> c = startCell \/ inGrid gridW gridH c) ->
  (S (length (gridCells gridW gridH)) <= length closedSet + fuel)%nat ->
  exists r, astarLoop fuel obstacles gridW gridH goalNode openSet closedSet nodesExplored
            = Some r.
Proof.
  revert openSet closedSet nodesExplored.
  induction fuel as [|fuel IH]; intros openSet closedSet nodesExplored Hinv Hnd Hcl Hfuel;
    cbn [astarLoop]; pose proof (sortByF_perm openSet) as Hperm;
    destruct (sortByF openSet) as [|current openSet']; eauto.
  - exfalso.
    destruct Hinv as [Hnodup Hcells].
    assert (Hcur : In (cellOf current) (map cellOf openSet)).
    { apply in_map. apply (Permutation_in _ Hperm). now left. }
    destruct (Hcells _ Hcur) as [Hnot Hwhere].
    assert (Hbound : (length (cellOf current :: closedSet)
                      <= length (startCell :: gridCells gridW gridH))%nat).
    { apply NoDup_incl_length; [constructor; assumption|].
      intros c [<- | Hc].
      - destruct Hwhere as [-> | Hg]; [now left | right; now apply gridCells_complete].
      - destruct (Hcl c Hc) as [-> | Hg]; [now left | right; now apply gridCells_complete]. }
    simpl in Hbound. lia.
  - destruct (sameCell (nx current, ny current) goalNode); [eauto|].
    destruct Hinv as [Hnodup Hcells].
    assert (Hpermc : Permutation (map cellOf (current :: openSet')) (map cellOf openSet))
      by (apply Permutation_map; assumption).
    assert (Hnodup' : NoDup (map cellOf (current :: openSet'))).
    { apply (Permutation_NoDup (Permutation_sym Hpermc)). assumption. }
    simpl in Hnodup'. inversion Hnodup' as [|? ? Hfresh Hrest]; subst.
    assert (Hcur : In (cellOf current) (map cellOf openSet)).
    { apply (Permutation_in _ Hpermc). now left. }
    destruct (Hcells _ Hcur) as [Hnot Hwhere].
    apply IH.
    + apply expandAll_invariant. split; [assumption|].
      intros c Hc.
      assert (Hc' : In c (map cellOf openSet)).
      { apply (Permutation_in _ Hpermc). now right. }
      destruct (Hcells c Hc') as [Hn Hw]. split; [|assumption].
      intros [<- | Hin]; [contradiction | contradiction].
    + constructor; assumption.
    + intros c [<- | Hc]; [assumption | now apply Hcl].
    + simpl. lia.
Qed.

(** [astar] returns a result for every input. *)
Lemma astar_total (start goal : Vec2) (obstacles : list Obstacle) (W H : Q) :
  exists r, astar start goal obstacles W H = Some r.
Proof.
  unfold astar.
  set (gridW := Math_ceil (W / GRID_SIZE)). set (gridH := Math_ceil (H / GRID_SIZE)).
  set (sx := Math_round (x start / GRID_SIZE)). set (sy := Math_round (y start / GRID_SIZE)).
  apply astarLoop_total with (startCell := (sx, sy)).
  - split.
    + simpl. repeat constructor. auto.
    + intros c [<- | []]. split; [auto | now left].
  - constructor.
  - intros c [].
  - pose proof (gridCells_length gridW gridH). simpl. lia.
Qed.

(** The path of [astar] is empty or the smoothing of a raw grid path on
    the obstacles it was given. *)
Lemma astar_raw (start goal : Vec2) (obstacles : list Obstacle) (W H : Q)
    (r : AstarResult) :
  astar start goal obstacles W H = Some r ->
  astar_path r = [] \/
  exists cells, gridPath obstacles cells /\
                astar_path r = smoothPath (map cellPoint cells) obstacles.
Proof.
  unfold astar. apply astarLoop_raw.
  constructor; [|constructor]. simpl. exact I.
Qed.

(** X12. Every segment of a path that [astar] returns passes the
    line-of-sight test. *)
Lemma astar_path_clear (start goal : Vec2) (obstacles : list Obstacle) (W H : Q)
    (r : AstarResult) :
  astar start goal obstacles W H = Some r ->
  pathClear obstacles (astar_path r) = true.
Proof.
  intros Hrun. destruct (astar_raw start goal obstacles W H r Hrun)
    as [-> | [cells [Hgrid ->]]]; [reflexivity|].
  apply smoothPath_clear, gridPath_clear, Hgrid.
Qed.

End AstarProperties.

(** An empty field: from [(50, 200)] to [(600, 200)] the grid planner
    returns the straight two-point path after 38 nodes, one more than the
    distance in cells. *)
Example astar_empty_field :
  astar (M := refMath) {| x := 50; y := 200 |} {| x := 600; y := 200 |} [] canvasW canvasH
  = Some {| astar_path := [ {| x := 45; y := 195 |}; {| x := 600; y := 195 |} ];
            astar_nodesExplored := 38 |}.
Proof. vm_compute. reflexivity. Qed.

(** ** The heading loops *)






(** ** The click handler returns *)

Lemma onClick_total {M : MathLib} (algorithmMode : Algorithm) (rnd : Random) (W H : Q)
    (st : SimState) (clickPos : Vec2) :
  exists st', onClick algorithmMode rnd W H st clickPos = Some st'.
Proof.
  unfold onClick. destruct (resolveClick (obstacles st) clickPos W H) as [goal|]; [|eauto].
  unfold plan. destruct algorithmMode.
  - destruct (astar_total (dronePos (drone st)) goal (obstacles st) W H) as [r ->].
    cbn [option_map]. eauto.
  - destruct (rrt_total rnd (draws st) (dronePos (drone st)) goal (obstacles st) W H)
      as [r [c ->]].
    cbn [option_map]. eauto.
  - cbn [option_map]. eauto.
Qed.

(** * Further properties of the planners and the controller *)

(** ** Line of sight *)

Section SightProperties.
Context {M : MathLib}.

Lemma insideInflated_compat (m px py px' py' : Q) (o : Obstacle) :
  px == px' -> py == py' -> insideInflated m px py o = insideInflated m px' py' o.
Proof.
  intros Hx Hy. unfold insideInflated, Qltb. rewrite Hx, Hy. reflexivity.
Qed.

Lemma sampleFree_outside (obstacles : list Obstacle) (p : Vec2) :
  sampleFree obstacles p = true <->
  Forall (fun o => insideInflated DRONE_RADIUS (x p) (y p) o = false) obstacles.
Proof.
  unfold sampleFree. rewrite negb_true_iff, <- existsb_false, Forall_forall. reflexivity.
Qed.

Lemma steps_positive (h : Q) : 0 < h -> (0 < Math_ceil (h / 5))%Z.
Proof.
  intros Hh. unfold Math_ceil.
  assert (H5 : 0 < h / 5) by (apply Qlt_shift_div_l; lra).
  pose proof (Qle_ceiling (h / 5)) as Hc.
  assert (0 < inject_Z (Qceiling (h / 5))) by lra.
  rewrite (Zlt_Qlt 0). exact H.
Qed.

(** X1. Taking obstacles away never blocks a line of sight: a segment that
    has line of sight among [obstacles] has it among any of them. *)
Theorem hasLineOfSight_fewer_obstacles (a b : Vec2) (obstacles obstacles' : list Obstacle) :
  incl obstacles' obstacles ->
  hasLineOfSight a b obstacles = true -> hasLineOfSight a b obstacles' = true.
Proof.
  unfold hasLineOfSight. intros Hincl.
  destruct (Math_ceil (hypot (x b - x a) (y b - y a) / 5) <=? 0)%Z; [reflexivity|].
  rewrite !forallb_forall. intros Hall p Hp. specialize (Hall p Hp).
  rewrite sampleFree_outside in *. rewrite Forall_forall in *.
  intros o Ho. apply Hall, Hincl, Ho.
Qed.

(** X2. A segment of positive length that has line of sight has both of
    its end points outside every obstacle's bound inflated by the drone
    radius: the first and the last sample are the end points. *)
Theorem hasLineOfSight_endpoints (a b : Vec2) (obstacles : list Obstacle) :
  0 < hypot (x b - x a) (y b - y a) ->
  hasLineOfSight a b obstacles = true ->
  Forall (fun o => insideInflated DRONE_RADIUS (x a) (y a) o = false /\
                   insideInflated DRONE_RADIUS (x b) (y b) o = false) obstacles.
Proof.
  intros Hpos. unfold hasLineOfSight.
  pose proof (steps_positive _ Hpos) as Hsteps.
  set (steps := Math_ceil (hypot (x b - x a) (y b - y a) / 5)) in *.
  destruct (steps <=? 0)%Z eqn:E; [apply Z.leb_le in E; lia|].
  rewrite forallb_forall. intros Hall.
  assert (Hfirst : In (lerp a b (Z.of_nat 0) steps) (samples a b steps)).
  { unfold samples. apply (in_map (fun i => lerp a b (Z.of_nat i) steps)), in_seq. lia. }
  assert (Hlast : In (lerp a b (Z.of_nat (Z.to_nat steps)) steps) (samples a b steps)).
  { unfold samples. apply (in_map (fun i => lerp a b (Z.of_nat i) steps)), in_seq. lia. }
  apply Hall in Hfirst. apply Hall in Hlast.
  rewrite sampleFree_outside in Hfirst, Hlast. rewrite Forall_forall in *.
  intros o Ho. specialize (Hfirst o Ho). specialize (Hlast o Ho). cbn [lerp x y] in *.
  assert (Hs : ~ inject_Z steps == 0).
  { intros Heq. rewrite (Zlt_Qlt 0) in Hsteps. change (inject_Z 0) with 0 in Hsteps. lra. }
  split.
  - rewrite <- Hfirst. apply insideInflated_compat; cbn; field; exact Hs.
  - rewrite <- Hlast. rewrite Z2Nat.id by lia.
    apply insideInflated_compat; field; exact Hs.
Qed.

End SightProperties.

Lemma hasLineOfSight_fewer_obstacles_witness :
  hasLineOfSight (M := refMath) startPosition {| x := 50; y := 215 |} [buildingAhead] = true.
Proof.
  apply (hasLineOfSight_fewer_obstacles (M := refMath) startPosition {| x := 50; y := 215 |}
                                        [treeBeside; buildingAhead] [buildingAhead]).
  - intros o Ho. right. exact Ho.
  - vm_compute. reflexivity.
Defined.

Lemma hasLineOfSight_endpoints_witness :
  Forall (fun o =>
            insideInflated DRONE_RADIUS 50 200 o = false /\
            insideInflated DRONE_RADIUS 50 215 o = false) [buildingAhead].
Proof.
  apply (hasLineOfSight_endpoints (M := refMath) startPosition {| x := 50; y := 215 |}
                                  [buildingAhead]).
  - vm_compute. reflexivity.
  - vm_compute. reflexivity.
Defined.

(** ** Greedy shortcutting *)

Section ShortcutProperties.
Context {M : MathLib}.

Lemma furthestVisible_maximal (path : list Vec2) (obstacles : list Obstacle) (current k m : nat) :
  (furthestVisible path obstacles current k < m <= current + 1 + k)%nat ->
  hasLineOfSight (nth current path origin) (nth m path origin) obstacles = false.
Proof.
  induction k as [|k IH]; cbn [furthestVisible]; [lia|].
  destruct (hasLineOfSight (nth current path origin)
              (nth (current + 1 + S k) path origin) obstacles) eqn:E; [lia|].
  intros Hm. destruct (Nat.eq_dec m (current + 1 + S k)) as [-> | Hne]; [exact E|].
  apply IH. lia.
Qed.

Lemma furthestVisible_next (path : list Vec2) (obstacles : list Obstacle) (current k : nat) :
  (forall m, (current + 2 <= m <= current + 1 + k)%nat ->
     hasLineOfSight (nth current path origin) (nth m path origin) obstacles = false) ->
  furthestVisible path obstacles current k = (current + 1)%nat.
Proof.
  induction k as [|k IH]; cbn [furthestVisible]; [reflexivity|].
  intros Hno. rewrite (Hno (current + 1 + S k)%nat) by lia.
  apply IH. intros m Hm. apply Hno. lia.
Qed.

(** The loop returns the points it started with followed by the raw points
    of a greedy chain. *)
Lemma smoothLoop_chain (fuel : nat) (path : list Vec2) (obstacles : list Obstacle)
    (current : nat) (smoothed : list Vec2) :
  (current < length path)%nat ->
  (length path - 1 - current <= fuel)%nat ->
  exists idxs,
    smoothLoop fuel path obstacles current smoothed
      = Some (smoothed ++ map (fun i => nth i path origin) idxs) /\
    greedyChain path obstacles current idxs.
Proof.
  revert current smoothed.
  induction fuel as [|fuel IH]; intros current smoothed Hcur Hfuel; cbn [smoothLoop].
  - destruct (current <? length path - 1)%nat eqn:E.
    + apply Nat.ltb_lt in E. lia.
    + apply Nat.ltb_ge in E. exists []. cbn. rewrite app_nil_r. auto.
  - destruct (current <? length path - 1)%nat eqn:E.
    + apply Nat.ltb_lt in E.
      set (k := (length path - 1 - (current + 1))%nat).
      pose proof (furthestVisible_spec path obstacles current k) as [Hrange _].
      pose proof (furthestVisible_maximal path obstacles current k) as Hmax.
      set (furthest := furthestVisible path obstacles current k) in *.
      destruct (IH furthest (smoothed ++ [nth furthest path origin])) as [idxs [Hres Hchain]];
        [lia | lia |].
      exists (furthest :: idxs). split.
      * rewrite Hres, <- app_assoc. reflexivity.
      * cbn [greedyChain]. split; [lia|]. split; [|exact Hchain].
        intros m Hm. apply Hmax. lia.
    + apply Nat.ltb_ge in E. exists []. cbn. rewrite app_nil_r. auto.
Qed.

(** A path of more than two points is smoothed to the raw points of a
    greedy chain from the first one. *)
Lemma smoothPath_chain (path : list Vec2) (obstacles : list Obstacle) :
  (2 < length path)%nat ->
  exists idxs,
    smoothPath path obstacles = map (fun i => nth i path origin) (0%nat :: idxs) /\
    greedyChain path obstacles 0 idxs.
Proof.
  intros Hlen. unfold smoothPath, smoothPathFuel.
  destruct (length path <=? 2)%nat eqn:E; [apply Nat.leb_le in E; lia|].
  destruct (smoothLoop_chain (length path) path obstacles 0 [nth 0 path origin])
    as [idxs [-> Hchain]]; [lia | lia |].
  exists idxs. split; [reflexivity | exact Hchain].
Qed.

Lemma greedyChain_sorted (path : list Vec2) (obstacles : list Obstacle) (idxs : list nat)
    (current : nat) :
  (current < length path)%nat ->
  greedyChain path obstacles current idxs ->
  StronglySorted lt (current :: idxs) /\
  Forall (fun i => (i < length path)%nat) (current :: idxs) /\
  last (current :: idxs) 0%nat = (length path - 1)%nat.
Proof.
  revert current. induction idxs as [|f rest IH]; intros current Hcur Hchain.
  - cbn in Hchain. repeat split.
    + repeat constructor.
    + repeat constructor. exact Hcur.
    + cbn. lia.
  - destruct Hchain as [Hf [_ Hrest]].
    destruct (IH f (proj2 Hf) Hrest) as [Hsorted [Hall Hlast]].
    repeat split.
    + constructor; [exact Hsorted|].
      apply StronglySorted_inv in Hsorted. destruct Hsorted as [_ Hlt].
      constructor; [lia|]. eapply Forall_impl; [|exact Hlt]. cbn. intros; lia.
    + constructor; [exact Hcur | exact Hall].
    + exact Hlast.
Qed.

Lemma nth_map_index (path : list Vec2) (l : list nat) (j : nat) :
  (j < length l)%nat ->
  nth j (map (fun i => nth i path origin) l) origin = nth (nth j l 0%nat) path origin.
Proof.
  intros Hj.
  rewrite (nth_indep _ origin (nth 0 path origin)) by (rewrite length_map; exact Hj).
  apply (map_nth (fun i => nth i path origin)).
Qed.

Lemma greedyChain_noShortcut (path : list Vec2) (obstacles : list Obstacle)
    (idxs : list nat) (current : nat) :
  (current < length path)%nat ->
  greedyChain path obstacles current idxs ->
  forall j m, (j + 2 <= m < length (current :: idxs))%nat ->
    hasLineOfSight (nth (nth j (current :: idxs) 0%nat) path origin)
                   (nth (nth m (current :: idxs) 0%nat) path origin) obstacles = false.
Proof.
  revert current. induction idxs as [|f rest IH]; intros current Hcur Hchain j m Hjm.
  - cbn in Hjm. lia.
  - destruct Hchain as [Hf [Hmax Hrest]].
    destruct (greedyChain_sorted path obstacles rest f (proj2 Hf) Hrest)
      as [Hsorted [Hall _]].
    destruct j as [|j].
    + destruct m as [|[|m]]; [lia | lia |]. cbn [nth].
      apply Hmax. cbn [length] in Hjm.
      assert (Hin : In (nth m rest 0%nat) rest) by (apply nth_In; lia).
      apply StronglySorted_inv in Hsorted. destruct Hsorted as [_ Hlt].
      rewrite Forall_forall in Hlt. apply Forall_inv_tail in Hall.
      rewrite Forall_forall in Hall. split; [apply Hlt, Hin | apply Hall, Hin].
    + destruct m as [|m]; [lia|].
      change (nth (S j) (current :: f :: rest) 0%nat) with (nth j (f :: rest) 0%nat).
      change (nth (S m) (current :: f :: rest) 0%nat) with (nth m (f :: rest) 0%nat).
      apply IH; [lia | exact Hrest |]. cbn [length] in *. lia.
Qed.

(** The smoothed path has no shortcut left. *)
Lemma smoothPath_greedy (path : list Vec2) (obstacles : list Obstacle) :
  noShortcut obstacles (smoothPath path obstacles).
Proof.
  destruct (Nat.le_gt_cases (length path) 2) as [Hshort | Hlong].
  - unfold smoothPath, smoothPathFuel.
    destruct (length path <=? 2)%nat eqn:E; [|apply Nat.leb_gt in E; lia].
    intros j m Hjm. lia.
  - destruct (smoothPath_chain path obstacles Hlong) as [idxs [-> Hchain]].
    intros j m Hjm. rewrite length_map in Hjm.
    rewrite !nth_map_index by lia.
    apply greedyChain_noShortcut; [lia | exact Hchain | exact Hjm].
Qed.

Lemma firstn_snoc (s : list Vec2) (n : nat) :
  (n < length s)%nat -> firstn n s ++ [nth n s origin] = firstn (S n) s.
Proof.
  revert n. induction s as [|a s IH]; intros n Hn; [cbn in Hn; lia|].
  destruct n as [|n]; [reflexivity|].
  cbn [length] in Hn.
  change (a :: (firstn n s ++ [nth n s origin]) = a :: firstn (S n) s).
  f_equal. apply IH. lia.
Qed.

(** On a path without a shortcut the loop steps from each point to the
    next and returns the path. *)
Lemma smoothLoop_fixed (fuel : nat) (s : list Vec2) (obstacles : list Obstacle)
    (current : nat) :
  noShortcut obstacles s ->
  (current < length s)%nat ->
  (length s - 1 - current <= fuel)%nat ->
  smoothLoop fuel s obstacles current (firstn (S current) s) = Some s.
Proof.
  intros Hno. revert current.
  induction fuel as [|fuel IH]; intros current Hcur Hfuel; cbn [smoothLoop].
  - destruct (current <? length s - 1)%nat eqn:E.
    + apply Nat.ltb_lt in E. lia.
    + rewrite firstn_all2 by lia. reflexivity.
  - destruct (current <? length s - 1)%nat eqn:E.
    + apply Nat.ltb_lt in E.
      rewrite furthestVisible_next.
      * replace (current + 1)%nat with (S current) by lia.
        rewrite firstn_snoc by lia. apply IH; lia.
      * intros m Hm. apply Hno. lia.
    + apply Nat.ltb_ge in E. rewrite firstn_all2 by lia. reflexivity.
Qed.

Lemma last_map_index (path : list Vec2) (l : list nat) :
  l <> [] ->
  last (map (fun i => nth i path origin) l) origin = nth (last l 0%nat) path origin.
Proof.
  induction l as [|a l IH]; [congruence|]. intros _.
  destruct l as [|b l]; [reflexivity|].
  change (last (map (fun i => nth i path origin) (b :: l)) origin
          = nth (last (b :: l) 0%nat) path origin).
  apply IH. discriminate.
Qed.

Lemma last_nth (path : list Vec2) :
  last path origin = nth (length path - 1) path origin.
Proof.
  induction path as [|a p IH]; [reflexivity|].
  destruct p as [|b p]; [reflexivity|].
  change (last (b :: p) origin = nth (length (b :: p) - 1) (b :: p) origin) in IH.
  change (last (b :: p) origin = nth (S (length p)) (a :: b :: p) origin).
  rewrite IH. replace (length (b :: p) - 1)%nat with (length p) by (cbn; lia).
  reflexivity.
Qed.

Lemma smoothPath_hd (path : list Vec2) (obstacles : list Obstacle) :
  hd_error (smoothPath path obstacles) = hd_error path.
Proof.
  destruct (Nat.le_gt_cases (length path) 2) as [Hshort | Hlong].
  - unfold smoothPath, smoothPathFuel.
    destruct (length path <=? 2)%nat eqn:E; [reflexivity | apply Nat.leb_gt in E; lia].
  - destruct (smoothPath_chain path obstacles Hlong) as [idxs [-> _]].
    destruct path; [cbn in Hlong; lia | reflexivity].
Qed.

Lemma smoothPath_last (path : list Vec2) (obstacles : list Obstacle) :
  last (smoothPath path obstacles) origin = last path origin.
Proof.
  destruct (Nat.le_gt_cases (length path) 2) as [Hshort | Hlong].
  - unfold smoothPath, smoothPathFuel.
    destruct (length path <=? 2)%nat eqn:E; [reflexivity | apply Nat.leb_gt in E; lia].
  - destruct (smoothPath_chain path obstacles Hlong) as [idxs [-> Hchain]].
    destruct (greedyChain_sorted path obstacles idxs 0) as [_ [_ Hlast]];
      [lia | exact Hchain |].
    rewrite last_map_index by discriminate. rewrite Hlast. symmetry. apply last_nth.
Qed.

(** X3. The smoothed path is the raw path read at strictly increasing
    indices: its waypoints are raw waypoints in the order of the raw path,
    from the first raw waypoint to the last one. *)
Theorem smoothPath_waypoints (path : list Vec2) (obstacles : list Obstacle) :
  (exists idxs,
     smoothPath path obstacles = map (fun i => nth i path origin) idxs /\
     StronglySorted lt idxs /\
     Forall (fun i => (i < length path)%nat) idxs) /\
  hd_error (smoothPath path obstacles) = hd_error path /\
  last (smoothPath path obstacles) origin = last path origin.
Proof.
  split; [|split; [apply smoothPath_hd | apply smoothPath_last]].
  destruct (Nat.le_gt_cases (length path) 2) as [Hshort | Hlong].
  - exists (seq 0 (length path)). unfold smoothPath, smoothPathFuel.
    destruct (length path <=? 2)%nat eqn:E; [|apply Nat.leb_gt in E; lia].
    destruct path as [|a [|b [|c p]]]; cbn in Hshort; try lia; cbn.
    + repeat split; constructor.
    + repeat split; repeat constructor.
    + repeat split; repeat constructor.
  - destruct (smoothPath_chain path obstacles Hlong) as [idxs [-> Hchain]].
    destruct (greedyChain_sorted path obstacles idxs 0) as [Hsorted [Hall _]];
      [lia | exact Hchain |].
    exists (0%nat :: idxs). auto.
Qed.

(** X4. No waypoint of the smoothed path has line of sight to a waypoint
    beyond its successor: the loop has taken every shortcut it tests. *)
Theorem smoothPath_no_shortcut (path : list Vec2) (obstacles : list Obstacle) (j m : nat) :
  let s := smoothPath path obstacles in
  (j + 2 <= m < length s)%nat ->
  hasLineOfSight (nth j s origin) (nth m s origin) obstacles = false.
Proof.
  intros s Hjm. apply (smoothPath_greedy path obstacles). exact Hjm.
Qed.

(** Smoothing a smoothed path changes nothing. *)
Corollary smoothPath_idempotent (path : list Vec2) (obstacles : list Obstacle) :
  smoothPath (smoothPath path obstacles) obstacles = smoothPath path obstacles.
Proof.
  pose proof (smoothPath_greedy path obstacles) as Hno.
  set (s := smoothPath path obstacles) in *.
  unfold smoothPath at 1, smoothPathFuel.
  destruct (length s <=? 2)%nat eqn:E; [reflexivity|]. apply Nat.leb_gt in E.
  assert (Hfirst : [nth 0 s origin] = firstn 1 s).
  { destruct s; [cbn in E; lia | reflexivity]. }
  rewrite Hfirst, smoothLoop_fixed; [reflexivity | exact Hno | lia | lia].
Qed.

End ShortcutProperties.

Lemma smoothPath_no_shortcut_witness :
  hasLineOfSight (M := refMath)
    (nth 0 (smoothPath (M := refMath) detour [buildingAhead]) origin)
    (nth 2 (smoothPath (M := refMath) detour [buildingAhead]) origin) [buildingAhead]
  = false.
Proof.
  apply (smoothPath_no_shortcut (M := refMath) detour [buildingAhead] 0 2).
  split; [lia | vm_compute; lia].
Defined.

(** ** The tree of the tree planner *)

Section TreeProperties.
Context {M : MathLib}.

Lemma grownFrom_root (start : Vec2) (obstacles : list Obstacle) (W H : Q) :
  grownFrom start obstacles W H [rootNode start] [].
Proof.
  split; [reflexivity | split; [reflexivity|]].
  intros i node Hnode. destruct i; discriminate Hnode.
Qed.

Lemma grownFrom_push (start : Vec2) (obstacles : list Obstacle) (W H : Q)
    (tree : list TreeNode) (treeEdges : list TreeEdge) (idx : nat) (newPoint : Vec2) :
  grownFrom start obstacles W H tree treeEdges ->
  (idx < length tree)%nat ->
  hasLineOfSight (point (nth idx tree (rootNode origin))) newPoint obstacles = true ->
  outOfCanvas newPoint W H = false ->
  grownFrom start obstacles W H
    (tree ++ [{| point := newPoint; parent := Z.of_nat idx |}])
    (treeEdges ++ [{| from := point (nth idx tree (rootNode origin)); to := newPoint |}]).
Proof.
  intros [Hroot [Hlen Hnodes]] Hidx Hsight Hin. split; [|split].
  - rewrite nth_error_app1 by lia. exact Hroot.
  - rewrite !length_app. cbn. lia.
  - intros i node Hnode.
    destruct (Nat.lt_ge_cases (S i) (length tree)) as [Hold | Hnew].
    + rewrite nth_error_app1 in Hnode by exact Hold.
      destruct (Hnodes i node Hnode) as [p [Hp [Hpar [Hedge [Hlos Hcanvas]]]]].
      exists p. rewrite app_nth1 by lia. rewrite nth_error_app1 by lia. auto.
    + assert (Hi : S i = length tree).
      { assert (Hsome : nth_error
                          (tree ++ [{| point := newPoint; parent := Z.of_nat idx |}]) (S i)
                        <> None) by congruence.
        apply nth_error_Some in Hsome. rewrite length_app in Hsome. cbn in Hsome. lia. }
      rewrite nth_error_app2, Hi, Nat.sub_diag in Hnode by lia.
      injection Hnode as <-. cbn [point parent].
      exists idx. rewrite app_nth1 by lia.
      rewrite nth_error_app2 by lia.
      replace (i - length treeEdges)%nat with 0%nat by lia. cbn.
      repeat split; auto. lia.
Qed.

(** The reconstruction from node [idx] puts in front of [path] the points
    of its ancestors, root first: a clear polyline from [start] to the
    point of the node. *)
Lemma walkParents_chain (start : Vec2) (obstacles : list Obstacle) (W H : Q)
    (tree : list TreeNode) (treeEdges : list TreeEdge) (fuel idx : nat) (path : list Vec2) :
  grownFrom start obstacles W H tree treeEdges ->
  (idx < length tree)%nat -> (idx < fuel)%nat ->
  exists front,
    walkParents fuel tree idx path = Some (front ++ path) /\
    (front = [] -> idx = 0%nat) /\
    hd_error (front ++ [point (nth idx tree (rootNode origin))]) = Some start /\
    pathClear obstacles (front ++ [point (nth idx tree (rootNode origin))]) = true.
Proof.
  intros Hgrown. pose proof Hgrown as [Hroot [Hlen Hnodes]]. revert idx path.
  induction fuel as [|fuel IH]; intros idx path Hidx Hfuel; [lia|].
  cbn [walkParents].
  destruct idx as [|i].
  - assert (H0 : nth 0 tree (rootNode origin) = rootNode start).
    { apply nth_error_nth. exact Hroot. }
    rewrite H0. cbn. exists []. auto.
  - destruct (nth_error tree (S i)) as [node|] eqn:Hnode;
      [|apply nth_error_None in Hnode; lia].
    destruct (Hnodes i node Hnode) as [p [Hp [Hpar [_ [Hlos _]]]]].
    rewrite (nth_error_nth _ _ (rootNode origin) Hnode), Hpar.
    destruct (Z.of_nat p =? -1)%Z eqn:E; [apply Z.eqb_eq in E; lia|].
    rewrite Nat2Z.id.
    destruct (IH p (point (nth p tree (rootNode origin)) :: path)) as
      [front [Hwalk [_ [Hhd Hclear]]]]; [lia | lia |].
    exists (front ++ [point (nth p tree (rootNode origin))]).
    split; [rewrite Hwalk, <- app_assoc; reflexivity|]. split; [|split].
    + intros Hnil. destruct front; discriminate Hnil.
    + destruct (front ++ [point (nth p tree (rootNode origin))]);
        [discriminate Hhd | exact Hhd].
    + apply pathClear_snoc.
      * destruct front; discriminate.
      * exact Hclear.
      * rewrite last_last. exact Hlos.
Qed.

(** One iteration keeps the tree grown from [start]; when it returns, the
    path is the polyline from [start] to the new point with the goal put in
    before its last point. *)
Lemma rrtStep_grown (rnd : Random) (start goal : Vec2) (obstacles : list Obstacle)
    (W H : Q) (c : nat) (tree : list TreeNode) (treeEdges : list TreeEdge) :
  grownFrom start obstacles W H tree treeEdges ->
  match rrtStep rnd goal obstacles W H c tree treeEdges with
  | inl (_, tree', treeEdges') => grownFrom start obstacles W H tree' treeEdges'
  | inr (res, _) =>
      exists (tree' : list TreeNode) (front : list Vec2) (newPoint : Vec2) (r : RrtResult),
        res = Some r /\
        grownFrom start obstacles W H tree' (rrt_tree r) /\
        rrt_path r = start :: front ++ [goal; newPoint] /\
        pathClear obstacles (start :: front ++ [newPoint]) = true /\
        hypot (x newPoint - x goal) (y newPoint - y goal) < stepSize
  end.
Proof.
  intros Hgrown. unfold rrtStep.
  destruct (drawSample rnd c goal W H) as [sample c1].
  set (idx := nearestIndex sample tree).
  set (nearest := point (nth idx tree (rootNode origin))).
  set (newPoint := steer nearest sample).
  destruct (hasLineOfSight nearest newPoint obstacles) eqn:Hsight; cbn [negb];
    [|exact Hgrown].
  destruct (outOfCanvas newPoint W H) eqn:Hcanvas; [exact Hgrown|].
  assert (Hidx : (idx < length tree)%nat).
  { apply nearestIndex_bound. destruct Hgrown as [Hroot _].
    destruct tree; [discriminate Hroot | discriminate]. }
  pose proof (grownFrom_push start obstacles W H tree treeEdges idx newPoint
                             Hgrown Hidx Hsight Hcanvas) as Hgrown'.
  fold nearest in Hgrown'.
  set (tree' := tree ++ [{| point := newPoint; parent := Z.of_nat idx |}]) in *.
  destruct (Qltb _ stepSize) eqn:Hnear; [|exact Hgrown'].
  assert (Hl : length tree' = S (length tree)).
  { unfold tree'. rewrite length_app. cbn. lia. }
  destruct (walkParents_chain start obstacles W H tree' _ (length tree') (length tree' - 1)
                              [goal; newPoint] Hgrown') as [front [Hwalk [Hne [Hhd Hclear]]]];
    [lia | lia |].
  assert (Hnew : point (nth (length tree' - 1) tree' (rootNode origin)) = newPoint).
  { rewrite Hl. unfold tree'. rewrite app_nth2 by lia.
    replace (S (length tree) - 1 - length tree)%nat with 0%nat by lia. reflexivity. }
  rewrite Hnew in Hhd, Hclear. rewrite Hwalk. cbn [option_map].
  destruct front as [|a front]; [specialize (Hne eq_refl); lia|].
  cbn in Hhd. injection Hhd as ->.
  exists tree', front, newPoint. eexists. split; [reflexivity|]. cbn [rrt_tree rrt_path].
  split; [exact Hgrown'|]. split; [reflexivity|]. split; [exact Hclear|].
  apply Qltb_lt. exact Hnear.
Qed.

Lemma rrtLoop_grown (n : nat) (rnd : Random) (start goal : Vec2) (obstacles : list Obstacle)
    (W H : Q) (c : nat) (tree : list TreeNode) (treeEdges : list TreeEdge)
    (r : RrtResult) (c' : nat) :
  grownFrom start obstacles W H tree treeEdges ->
  rrtLoop n rnd goal obstacles W H c tree treeEdges = (Some r, c') ->
  (exists tree', grownFrom start obstacles W H tree' (rrt_tree r)) /\
  (rrt_path r = [] \/
   exists (front : list Vec2) (newPoint : Vec2),
     rrt_path r = start :: front ++ [goal; newPoint] /\
     pathClear obstacles (start :: front ++ [newPoint]) = true /\
     hypot (x newPoint - x goal) (y newPoint - y goal) < stepSize).
Proof.
  revert c tree treeEdges.
  induction n as [|n IH]; intros c tree treeEdges Hgrown Hrun; cbn [rrtLoop] in Hrun.
  - injection Hrun as <- <-. cbn. split; [exists tree; exact Hgrown | left; reflexivity].
  - pose proof (rrtStep_grown rnd start goal obstacles W H c tree treeEdges Hgrown) as Hstep.
    destruct (rrtStep rnd goal obstacles W H c tree treeEdges)
      as [[[c1 tree1] edges1] | [res c1]].
    + eapply IH; eauto.
    + destruct Hstep as [tree' [front [newPoint [r0 [-> [Hg [Hpath [Hclear Hnear]]]]]]]].
      injection Hrun as <- <-.
      split; [exists tree'; exact Hg | right; exists front, newPoint; auto].
Qed.

Lemma firstn_In {A} (l : list A) (j k : nat) (a : A) :
  nth_error l j = Some a -> (j < k)%nat -> In a (firstn k l).
Proof.
  revert j k. induction l as [|b l IH]; intros j k Hj Hlt.
  - destruct j; discriminate Hj.
  - destruct k as [|k]; [lia|]. destruct j as [|j].
    + injection Hj as ->. left. reflexivity.
    + right. apply (IH j); [exact Hj | lia].
Qed.

(** X5. Every edge of the tree that [rrt] returns has passed the
    line-of-sight test, ends inside the canvas, and starts at the start
    position or at the end of an earlier edge. *)
Theorem rrt_tree_sound (rnd : Random) (c : nat) (start goal : Vec2)
    (obstacles : list Obstacle) (W H : Q) (r : RrtResult) (c' : nat) :
  rrt rnd c start goal obstacles W H = (Some r, c') ->
  forall k e, nth_error (rrt_tree r) k = Some e ->
    hasLineOfSight (from e) (to e) obstacles = true /\
    outOfCanvas (to e) W H = false /\
    In (from e) (start :: map to (firstn k (rrt_tree r))).
Proof.
  intros Hrun k e He.
  destruct (rrtLoop_grown _ _ start _ _ _ _ _ _ _ _ _ (grownFrom_root start obstacles W H) Hrun)
    as [[tree [Hroot [Hlen Hnodes]]] _].
  assert (Hk : (k < length (rrt_tree r))%nat).
  { apply nth_error_Some. congruence. }
  destruct (nth_error tree (S k)) as [node|] eqn:Hnode;
    [|apply nth_error_None in Hnode; lia].
  destruct (Hnodes k node Hnode) as [p [Hp [_ [Hedge [Hlos Hcanvas]]]]].
  rewrite He in Hedge. injection Hedge as ->. cbn [from to].
  split; [exact Hlos | split; [exact Hcanvas|]].
  destruct p as [|p].
  - left. symmetry. rewrite (nth_error_nth _ _ _ Hroot). reflexivity.
  - right.
    destruct (nth_error tree (S p)) as [node'|] eqn:Hnode';
      [|apply nth_error_None in Hnode'; lia].
    destruct (Hnodes p node' Hnode') as [q [_ [_ [Hedge' _]]]].
    rewrite (nth_error_nth _ _ _ Hnode').
    change (point node') with (to {| from := point (nth q tree (rootNode origin));
                                     to := point node' |}).
    apply in_map. apply (firstn_In _ p); [exact Hedge' | lia].
Qed.

(** X6. A path that [rrt] returns starts at the start position and ends
    with the goal followed by the last point of the tree, which lies within
    one step of the goal; without the goal it is a polyline from the start
    to that point, every segment of which has passed the line-of-sight test. *)
Theorem rrt_path_shape (rnd : Random) (c : nat) (start goal : Vec2)
    (obstacles : list Obstacle) (W H : Q) (r : RrtResult) (c' : nat) :
  rrt rnd c start goal obstacles W H = (Some r, c') ->
  rrt_path r <> [] ->
  exists (front : list Vec2) (newPoint : Vec2),
    rrt_path r = start :: front ++ [goal; newPoint] /\
    hypot (x newPoint - x goal) (y newPoint - y goal) < stepSize /\
    pathClear obstacles (start :: front ++ [newPoint]) = true.
Proof.
  intros Hrun Hne.
  destruct (rrtLoop_grown _ _ start _ _ _ _ _ _ _ _ _ (grownFrom_root start obstacles W H) Hrun)
    as [_ [Hempty | [front [newPoint [Hpath [Hclear Hnear]]]]]]; [contradiction|].
  exists front, newPoint. auto.
Qed.

End TreeProperties.

Lemma rrt_tree_sound_witness :
  hasLineOfSight (M := refMath) startPosition firstStep [treeBeside] = true /\
  outOfCanvas firstStep canvasW canvasH = false /\
  In startPosition
     (startPosition :: map to (firstn 0 [{| from := startPosition; to := firstStep |}])).
Proof.
  refine (rrt_tree_sound (M := refMath) halves 0 startPosition goalBehindTree [treeBeside]
            canvasW canvasH
            {| rrt_path := [startPosition; goalBehindTree; firstStep];
               rrt_tree := [{| from := startPosition; to := firstStep |}];
               rrt_nodesExplored := 2 |} 3 _ 0
            {| from := startPosition; to := firstStep |} _).
  - vm_compute. reflexivity.
  - reflexivity.
Defined.

Lemma rrt_path_shape_witness :
  exists (front : list Vec2) (newPoint : Vec2),
    [startPosition; goalBehindTree; firstStep]
      = startPosition :: front ++ [goalBehindTree; newPoint] /\
    @hypot refMath (x newPoint - x goalBehindTree) (y newPoint - y goalBehindTree) < stepSize /\
    pathClear (M := refMath) [treeBeside] (startPosition :: front ++ [newPoint]) = true.
Proof.
  apply (rrt_path_shape (M := refMath) halves 0 startPosition goalBehindTree [treeBeside]
           canvasW canvasH
           {| rrt_path := [startPosition; goalBehindTree; firstStep];
              rrt_tree := [{| from := startPosition; to := firstStep |}];
              rrt_nodesExplored := 2 |} 3).
  - vm_compute. reflexivity.
  - discriminate.
Defined.

Lemma rrt_empty_iff_witness :
  [startPosition; goalBehindTree; firstStep] = [] <->
  Forall (farFromGoal (M := refMath) goalBehindTree)
         [{| from := startPosition; to := firstStep |}].
Proof.
  apply (rrt_empty_iff (M := refMath) halves 0 startPosition goalBehindTree [treeBeside]
           canvasW canvasH
           {| rrt_path := [startPosition; goalBehindTree; firstStep];
              rrt_tree := [{| from := startPosition; to := firstStep |}];
              rrt_nodesExplored := 2 |} 3).
  vm_compute. reflexivity.
Defined.

(** ** The route of the grid planner *)

Section RouteProperties.
Context {M : MathLib}.

Lemma child_routeFrom (obstacles : list Obstacle) (gridW gridH : Z) (startCell : Cell)
    (current : PathNode) (cx cy : Z) (g0 h0 f0 : Q) :
  routeFrom obstacles gridW gridH startCell current ->
  inGrid gridW gridH (cx, cy) ->
  occupied obstacles (cx, cy) = false ->
  routeFrom obstacles gridW gridH startCell (mkNode cx cy g0 h0 f0 (Some current)).
Proof.
  intros [rest [Hcells Hrest]] Hin Hfree. exists (rest ++ [(cx, cy)]). split.
  - cbn [cellsOf nparent nx ny]. rewrite Hcells. reflexivity.
  - apply Forall_app. split; [exact Hrest|]. constructor; [split; assumption | constructor].
Qed.

Lemma relax_routeFrom (obstacles : list Obstacle) (gridW gridH : Z) (startCell cell : Cell)
    (g' f' : Q) (current : PathNode) (openSet openSet' : list PathNode) :
  Forall (routeFrom obstacles gridW gridH startCell) openSet ->
  routeFrom obstacles gridW gridH startCell current ->
  inGrid gridW gridH cell ->
  occupied obstacles cell = false ->
  relax cell g' f' current openSet = Some openSet' ->
  Forall (routeFrom obstacles gridW gridH startCell) openSet'.
Proof.
  intros Hopen Hcur Hin Hfree. revert openSet'.
  induction Hopen as [|n rest Hn Hrest IH]; intros openSet' Hrelax; cbn [relax] in Hrelax;
    [discriminate|].
  destruct (sameCell (nx n, ny n) cell) eqn:Hsame.
  - injection Hrelax as <-. constructor; [|assumption].
    destruct (Qltb g' (g n)); [|assumption].
    apply sameCell_eq in Hsame. subst cell.
    apply child_routeFrom; assumption.
  - destruct (relax cell g' f' current rest) as [rest'|]; [|discriminate].
    injection Hrelax as <-. constructor; [assumption | now apply IH].
Qed.

Lemma expand_routeFrom (obstacles : list Obstacle) (gridW gridH : Z) (goalNode startCell : Cell)
    (closedSet : list Cell) (current : PathNode) (openSet : list PathNode)
    (dir : Direction) :
  routeFrom obstacles gridW gridH startCell current ->
  Forall (routeFrom obstacles gridW gridH startCell) openSet ->
  Forall (routeFrom obstacles gridW gridH startCell)
         (expand obstacles gridW gridH goalNode closedSet current openSet dir).
Proof.
  intros Hcur Hopen. unfold expand.
  destruct (_ || _ || _ || _)%bool eqn:Hout; [assumption|].
  destruct (existsb _ closedSet); [assumption|].
  destruct (occupied obstacles _) eqn:Hfree; [assumption|].
  assert (Hin : inGrid gridW gridH ((nx current + ddx dir)%Z, (ny current + ddy dir)%Z)).
  { apply orb_false_iff in Hout. destruct Hout as [Hout Hh].
    apply orb_false_iff in Hout. destruct Hout as [Hout Hy].
    apply orb_false_iff in Hout. destruct Hout as [Hx Hw].
    rewrite Z.geb_leb in Hw, Hh.
    apply Z.ltb_ge in Hx, Hy. apply Z.leb_gt in Hw, Hh.
    unfold inGrid. cbn [fst snd]. lia. }
  destruct (relax _ _ _ current openSet) as [openSet'|] eqn:Hrelax.
  - eapply relax_routeFrom; eauto.
  - apply Forall_app. split; [assumption|]. constructor; [|constructor].
    apply child_routeFrom; assumption.
Qed.

Lemma expandAll_routeFrom (obstacles : list Obstacle) (gridW gridH : Z)
    (goalNode startCell : Cell) (closedSet : list Cell) (current : PathNode)
    (dirs : list Direction) (openSet : list PathNode) :
  routeFrom obstacles gridW gridH startCell current ->
  Forall (routeFrom obstacles gridW gridH startCell) openSet ->
  Forall (routeFrom obstacles gridW gridH startCell)
         (fold_left (expand obstacles gridW gridH goalNode closedSet current) dirs openSet).
Proof.
  revert openSet. induction dirs as [|dir rest IH]; intros openSet Hcur Hopen; cbn [fold_left].
  - assumption.
  - apply IH; [assumption|]. apply expand_routeFrom; assumption.
Qed.

(** A path that the search returns is the smoothing of the points of a
    chain of cells from the start cell to the goal cell, all of them but the
    start cell free cells of the grid. *)
Lemma astarLoop_route (fuel : nat) (obstacles : list Obstacle) (gridW gridH : Z)
    (goalNode startCell : Cell) (openSet : list PathNode) (closedSet : list Cell)
    (nodesExplored : nat) (r : AstarResult) :
  Forall (routeFrom obstacles gridW gridH startCell) openSet ->
  astarLoop fuel obstacles gridW gridH goalNode openSet closedSet nodesExplored = Some r ->
  astar_path r = [] \/
  exists rest,
    Forall (fun c => inGrid gridW gridH c /\ occupied obstacles c = false) rest /\
    last (startCell :: rest) startCell = goalNode /\
    astar_path r = smoothPath (map cellPoint (startCell :: rest)) obstacles.
Proof.
  revert openSet closedSet nodesExplored.
  induction fuel as [|fuel IH]; intros openSet closedSet nodesExplored Hopen Hrun;
    cbn [astarLoop] in Hrun; pose proof (sortByF_Forall _ _ Hopen) as Hsorted;
    destruct (sortByF openSet) as [|current openSet'].
  - injection Hrun as <-. left. reflexivity.
  - discriminate.
  - injection Hrun as <-. left. reflexivity.
  - inversion Hsorted as [|? ? Hcur Hrest]; subst.
    destruct (sameCell (nx current, ny current) goalNode) eqn:Hgoal.
    + injection Hrun as <-. right. destruct Hcur as [rest [Hcells Hfree]].
      exists rest. split; [exact Hfree|]. split.
      * rewrite <- Hcells. destruct (cellsOf_last current startCell) as [_ ->].
        apply sameCell_eq. exact Hgoal.
      * cbn [astar_path]. rewrite reconstruct_cells, app_nil_r, Hcells. reflexivity.
    + eapply IH; [|exact Hrun].
      apply expandAll_routeFrom; assumption.
Qed.

(** The loop counts one node for each iteration. *)
Lemma astarLoop_count (fuel : nat) (obstacles : list Obstacle) (gridW gridH : Z)
    (goalNode : Cell) (openSet : list PathNode) (closedSet : list Cell)
    (nodesExplored : nat) (r : AstarResult) :
  astarLoop fuel obstacles gridW gridH goalNode openSet closedSet nodesExplored = Some r ->
  (nodesExplored <= astar_nodesExplored r <= nodesExplored + fuel)%nat /\
  (openSet <> [] -> (nodesExplored < astar_nodesExplored r)%nat).
Proof.
  revert openSet closedSet nodesExplored.
  induction fuel as [|fuel IH]; intros openSet closedSet nodesExplored Hrun;
    cbn [astarLoop] in Hrun; pose proof (sortByF_perm openSet) as Hperm;
    destruct (sortByF openSet) as [|current openSet'].
  - injection Hrun as <-. cbn. split; [lia|]. intros Hne.
    apply Permutation_nil in Hperm. contradiction.
  - discriminate.
  - injection Hrun as <-. cbn. split; [lia|]. intros Hne.
    apply Permutation_nil in Hperm. contradiction.
  - destruct (sameCell (nx current, ny current) goalNode).
    + injection Hrun as <-. cbn. split; [lia | intros _; lia].
    + apply IH in Hrun. destruct Hrun as [Hrange _]. split; [lia | intros _; lia].
Qed.

Lemma routeFrom_start (obstacles : list Obstacle) (gridW gridH : Z) (sx sy : Z) (g0 h0 f0 : Q) :
  routeFrom obstacles gridW gridH (sx, sy) (mkNode sx sy g0 h0 f0 None).
Proof. exists []. split; [reflexivity | constructor]. Qed.

Lemma last_default {A} (l : list A) (d d' : A) : l <> [] -> last l d = last l d'.
Proof.
  induction l as [|a l IH]; [congruence|]. intros _.
  destruct l as [|b l]; [reflexivity|].
  change (last (b :: l) d = last (b :: l) d'). apply IH. discriminate.
Qed.

Lemma last_cellPoint (l : list Cell) (d : Cell) :
  l <> [] -> last (map cellPoint l) origin = cellPoint (last l d).
Proof.
  induction l as [|a l IH]; [congruence|]. intros _.
  destruct l as [|b l]; [reflexivity|].
  change (last (map cellPoint (b :: l)) origin = cellPoint (last (b :: l) d)).
  apply IH. discriminate.
Qed.

(** The result of [astar], from the loop started on the start node. *)
Lemma astar_route (start goal : Vec2) (obstacles : list Obstacle) (W H : Q)
    (r : AstarResult) :
  let gridW := Math_ceil (W / GRID_SIZE) in
  let gridH := Math_ceil (H / GRID_SIZE) in
  let startCell := (Math_round (x start / GRID_SIZE), Math_round (y start / GRID_SIZE)) in
  let goalCell := (Math_round (x goal / GRID_SIZE), Math_round (y goal / GRID_SIZE)) in
  astar start goal obstacles W H = Some r ->
  astar_path r = [] \/
  exists rest,
    Forall (fun c => inGrid gridW gridH c /\ occupied obstacles c = false) rest /\
    last (startCell :: rest) startCell = goalCell /\
    astar_path r = smoothPath (map cellPoint (startCell :: rest)) obstacles.
Proof.
  intros gridW gridH startCell goalCell. unfold astar. apply astarLoop_route.
  constructor; [apply routeFrom_start | constructor].
Qed.

(** X8. [astar] returns after exploring at least one node and at most one
    node more than the grid has cells. *)
Theorem astar_explored_bound (start goal : Vec2) (obstacles : list Obstacle) (W H : Q) :
  exists r,
    astar start goal obstacles W H = Some r /\
    (1 <= astar_nodesExplored r
       <= Z.to_nat (Math_ceil (W / GRID_SIZE) * Math_ceil (H / GRID_SIZE)) + 1)%nat.
Proof.
  destruct (astar_total start goal obstacles W H) as [r Hr]. exists r.
  split; [exact Hr|]. unfold astar in Hr. apply astarLoop_count in Hr.
  destruct Hr as [Hrange Hpos]. split; [|lia].
  assert (0 < astar_nodesExplored r)%nat by (apply Hpos; discriminate). lia.
Qed.

(** X9. When the start and the goal round to the same cell, [astar]
    returns the point of that cell as a path of one point after one node,
    whatever the obstacles are. *)
Theorem astar_same_cell (start goal : Vec2) (obstacles : list Obstacle) (W H : Q) :
  Math_round (x start / GRID_SIZE) = Math_round (x goal / GRID_SIZE) ->
  Math_round (y start / GRID_SIZE) = Math_round (y goal / GRID_SIZE) ->
  astar start goal obstacles W H
  = Some {| astar_path := [cellPoint (Math_round (x start / GRID_SIZE),
                                      Math_round (y start / GRID_SIZE))];
            astar_nodesExplored := 1 |}.
Proof.
  intros Hx Hy. unfold astar. rewrite <- Hx, <- Hy.
  rewrite Nat.add_1_r. cbn [astarLoop sortByF fold_right insertByF nx ny].
  rewrite sameCell_refl. reflexivity.
Qed.

(** X10. When the goal cell is occupied or lies outside the grid, and is not
    the start cell, [astar] returns the empty path. *)
Theorem astar_blocked_goal (start goal : Vec2) (obstacles : list Obstacle) (W H : Q) :
  let gridW := Math_ceil (W / GRID_SIZE) in
  let gridH := Math_ceil (H / GRID_SIZE) in
  let startCell := (Math_round (x start / GRID_SIZE), Math_round (y start / GRID_SIZE)) in
  let goalCell := (Math_round (x goal / GRID_SIZE), Math_round (y goal / GRID_SIZE)) in
  startCell <> goalCell ->
  occupied obstacles goalCell = true \/ ~ inGrid gridW gridH goalCell ->
  exists r, astar start goal obstacles W H = Some r /\ astar_path r = [].
Proof.
  intros gridW gridH startCell goalCell Hdiff Hblocked.
  destruct (astar_total start goal obstacles W H) as [r Hr]. exists r.
  split; [exact Hr|].
  destruct (astar_route start goal obstacles W H r Hr)
    as [Hempty | [rest [Hfree [Hlast _]]]]; [exact Hempty|].
  exfalso. fold startCell goalCell gridW gridH in Hfree, Hlast.
  destruct rest as [|c rest]; [cbn in Hlast; contradiction|].
  assert (Hin : In goalCell (c :: rest)).
  { rewrite <- Hlast. change (In (last (c :: rest) startCell) (c :: rest)).
    rewrite (last_default _ startCell c) by discriminate.
    destruct (exists_last (l := c :: rest)) as [front [z Hz]]; [discriminate|].
    rewrite Hz, last_last. apply in_or_app. right. left. reflexivity. }
  rewrite Forall_forall in Hfree. destruct (Hfree _ Hin) as [Hgrid Hopen].
  destruct Hblocked as [Hocc | Hout]; [congruence | contradiction].
Qed.

(** X11. A path that [astar] returns begins with the point of the start
    cell and ends with the point of the goal cell. *)
Theorem astar_endpoints (start goal : Vec2) (obstacles : list Obstacle) (W H : Q)
    (r : AstarResult) :
  astar start goal obstacles W H = Some r ->
  astar_path r <> [] ->
  hd_error (astar_path r)
    = Some (cellPoint (Math_round (x start / GRID_SIZE), Math_round (y start / GRID_SIZE))) /\
  last (astar_path r) origin
    = cellPoint (Math_round (x goal / GRID_SIZE), Math_round (y goal / GRID_SIZE)).
Proof.
  intros Hr Hne.
  destruct (astar_route start goal obstacles W H r Hr)
    as [Hempty | [rest [_ [Hlast ->]]]]; [contradiction|].
  split.
  - rewrite smoothPath_hd. reflexivity.
  - rewrite smoothPath_last, <- Hlast. apply last_cellPoint. discriminate.
Qed.

End RouteProperties.

Lemma astar_same_cell_witness :
  astar (M := refMath) startPosition {| x := 52; y := 198 |} [buildingAhead] canvasW canvasH
  = Some {| astar_path := [cellPoint (3, 13)%Z]; astar_nodesExplored := 1 |}.
Proof.
  apply (astar_same_cell (M := refMath) startPosition {| x := 52; y := 198 |} [buildingAhead]
                         canvasW canvasH); vm_compute; reflexivity.
Defined.

Lemma astar_blocked_goal_witness :
  exists r,
    astar (M := refMath) startPosition {| x := 80; y := 200 |} [buildingAhead] canvasW canvasH
      = Some r /\
    astar_path r = [].
Proof.
  apply (astar_blocked_goal (M := refMath) startPosition {| x := 80; y := 200 |}
                            [buildingAhead] canvasW canvasH).
  - vm_compute. discriminate.
  - left. vm_compute. reflexivity.
Defined.

Lemma astar_endpoints_witness :
  hd_error routePastBuilding
    = Some (cellPoint (Math_round (50 / GRID_SIZE), Math_round (200 / GRID_SIZE))) /\
  last routePastBuilding origin
    = cellPoint (Math_round (150 / GRID_SIZE), Math_round (200 / GRID_SIZE)).
Proof.
  apply (astar_endpoints (M := refMath) startPosition goalPastBuilding [buildingAhead]
           canvasW canvasH
           {| astar_path := routePastBuilding; astar_nodesExplored := 32 |}).
  - vm_compute. reflexivity.
  - discriminate.
Defined.

Lemma astar_path_clear_witness :
  pathClear (M := refMath) [buildingAhead] routePastBuilding = true.
Proof.
  apply (astar_path_clear (M := refMath) startPosition goalPastBuilding [buildingAhead]
           canvasW canvasH
           {| astar_path := routePastBuilding; astar_nodesExplored := 32 |}).
  vm_compute. reflexivity.
Defined.

(** ** The click handler *)

Section HandlerProperties.
Context {M : MathLib}.

(** What the loop over the candidates keeps of its best candidate. *)
Lemma considerCandidate_valid (obstacles : list Obstacle) (clickPos : Vec2) (W H : Q)
    (P : Vec2 -> Prop) (best : option (Vec2 * Q)) (candidate : Vec2) :
  (forall g, 10 <= x g <= W - 10 -> 10 <= y g <= H - 10 ->
             existsb (insideInflated clickMargin (x g) (y g)) obstacles = false -> P g) ->
  (forall g d, best = Some (g, d) -> P g) ->
  forall g d, considerCandidate obstacles clickPos W H best candidate = Some (g, d) -> P g.
Proof.
  intros Hvalid Hbest g d. unfold considerCandidate.
  destruct (_ || _ || _ || _)%bool eqn:Hout; [apply Hbest|].
  destruct (existsb _ obstacles) eqn:Hin; [apply Hbest|].
  apply orb_false_iff in Hout. destruct Hout as [Hout Hh].
  apply orb_false_iff in Hout. destruct Hout as [Hout Hy].
  apply orb_false_iff in Hout. destruct Hout as [Hx Hw].
  apply Qltb_ge in Hx, Hy, Hw, Hh.
  assert (Hc : P candidate) by (apply Hvalid; auto).
  destruct best as [[b bd]|].
  - destruct (Qltb _ bd); intros Heq.
    + injection Heq as <- <-. exact Hc.
    + apply (Hbest g d Heq).
  - intros Heq. injection Heq as <- <-. exact Hc.
Qed.

(** X13. The goal that a click resolves to lies outside every obstacle's
    bound widened by the click margin; it is the click itself or a point at
    least 10 inside the canvas. *)
Theorem resolveClick_clear (obstacles : list Obstacle) (clickPos goal : Vec2) (W H : Q) :
  resolveClick obstacles clickPos W H = Some goal ->
  Forall (fun o => insideInflated clickMargin (x goal) (y goal) o = false) obstacles /\
  (goal = clickPos \/ (10 <= x goal <= W - 10 /\ 10 <= y goal <= H - 10)).
Proof.
  unfold resolveClick.
  destruct (find (insideInflated clickMargin (x clickPos) (y clickPos)) obstacles)
    as [obs|] eqn:Hfind.
  - intros Hbest.
    set (P := fun g : Vec2 =>
                Forall (fun o => insideInflated clickMargin (x g) (y g) o = false) obstacles /\
                (10 <= x g <= W - 10 /\ 10 <= y g <= H - 10)).
    assert (Hstep : forall best cand,
              (forall g d, best = Some (g, d) -> P g) ->
              forall g d, considerCandidate obstacles clickPos W H best cand = Some (g, d) ->
                          P g).
    { intros best cand. apply considerCandidate_valid.
      intros g Hx Hy Hfree. split; [|split; assumption].
      apply Forall_forall. apply existsb_false. exact Hfree. }
    assert (Hfold : forall cands best,
              (forall g d, best = Some (g, d) -> P g) ->
              forall g d, fold_left (considerCandidate obstacles clickPos W H) cands best
                          = Some (g, d) -> P g).
    { induction cands as [|cand cands IH]; intros best Hb; cbn [fold_left]; [exact Hb|].
      apply IH. apply Hstep. exact Hb. }
    destruct (fold_left _ (candidates obs clickPos) None) as [[g d]|] eqn:Hres;
      [|discriminate Hbest].
    cbn in Hbest. injection Hbest as <-.
    destruct (Hfold _ None (fun g d Heq => ltac:(discriminate Heq)) g d Hres) as [Hfree Hin].
    split; [exact Hfree | right; exact Hin].
  - intros Heq. injection Heq as <-. split; [|left; reflexivity].
    apply Forall_forall. intros o Ho. apply (find_none _ _ Hfind o Ho).
Qed.

(** X14. A click either leaves the state as it is, when it resolves to no
    goal, or ends with the path index at the start of the path, the obstacles
    and the position of the drone unchanged, the drone [navigating] on a
    path or [idle] without one, and the target set exactly when there is a
    path. *)
Theorem onClick_outcome (algorithmMode : Algorithm) (rnd : Random) (W H : Q)
    (st st' : SimState) (clickPos : Vec2) :
  onClick algorithmMode rnd W H st clickPos = Some st' ->
  (resolveClick (obstacles st) clickPos W H = None /\ st' = st) \/
  (exists goal,
     resolveClick (obstacles st) clickPos W H = Some goal /\
     currentPathIndex st' = 0%nat /\
     obstacles st' = obstacles st /\
     dronePos (drone st') = dronePos (drone st) /\
     Drone.state (drone st') = match path st' with [] => idle | _ => navigating end /\
     target st' = match path st' with [] => None | _ => Some goal end).
Proof.
  unfold onClick.
  destruct (resolveClick (obstacles st) clickPos W H) as [goal|].
  - intros Hrun. right. exists goal. split; [reflexivity|].
    unfold plan in Hrun. destruct algorithmMode.
    + destruct (astar _ goal (obstacles st) W H) as [r|]; [|discriminate Hrun].
      cbn [option_map] in Hrun. injection Hrun as <-. cbn.
      destruct (astar_path r); [destruct (hasLineOfSight _ goal (obstacles st))|];
        repeat split.
    + destruct (rrt rnd _ _ goal (obstacles st) W H) as [[r|] c]; [|discriminate Hrun].
      cbn [option_map] in Hrun. injection Hrun as <-. cbn.
      destruct (rrt_path r); repeat split.
    + cbn [option_map] in Hrun. injection Hrun as <-. cbn. repeat split.
  - intros Hrun. injection Hrun as <-. left. split; reflexivity.
Qed.

(** X15. In A* mode, when the grid planner finds no path, the handler falls
    back on the straight line: with line of sight from the drone to the
    goal the path is the drone's position followed by the goal and the drone
    starts [navigating]; without it the target is cleared and the drone is
    [idle]. *)
Theorem onClick_astar_fallback (rnd : Random) (W H : Q) (st : SimState)
    (clickPos goal : Vec2) (r : AstarResult) :
  resolveClick (obstacles st) clickPos W H = Some goal ->
  astar (dronePos (drone st)) goal (obstacles st) W H = Some r ->
  astar_path r = [] ->
  exists st',
    onClick astarMode rnd W H st clickPos = Some st' /\
    nodesExplored (stats st') = astar_nodesExplored r /\
    if hasLineOfSight (dronePos (drone st)) goal (obstacles st)
    then path st' = [dronePos (drone st); goal] /\ pathLength (stats st') = 2%nat /\
         target st' = Some goal /\ Drone.state (drone st') = navigating
    else path st' = [] /\ pathLength (stats st') = 0%nat /\
         target st' = None /\ Drone.state (drone st') = idle.
Proof.
  intros Hgoal Hastar Hempty. unfold onClick, plan. rewrite Hgoal, Hastar, Hempty.
  cbn [option_map]. eexists. split; [reflexivity|]. cbn.
  destruct (hasLineOfSight (dronePos (drone st)) goal (obstacles st)); cbn; repeat split.
Qed.

End HandlerProperties.

Lemma resolveClick_clear_witness :
  Forall (fun o => insideInflated clickMargin 50 200 o = false) [buildingAhead] /\
  ({| x := 50; y := 200 |} = {| x := 80; y := 200 |} \/
   (10 <= 50 <= canvasW - 10 /\ 10 <= 200 <= canvasH - 10)).
Proof.
  apply (resolveClick_clear (M := refMath) [buildingAhead] {| x := 80; y := 200 |}
                            {| x := 50; y := 200 |} canvasW canvasH).
  vm_compute. reflexivity.
Defined.

Lemma onClick_outcome_witness :
  exists st',
    onClick (M := refMath) astarMode halves 120 90 sceneSmallCanvas goalAboveContainer
      = Some st' /\
    ((resolveClick (M := refMath) (obstacles sceneSmallCanvas) goalAboveContainer 120 90 = None /\
      st' = sceneSmallCanvas) \/
     (exists goal,
        resolveClick (M := refMath) (obstacles sceneSmallCanvas) goalAboveContainer 120 90
          = Some goal /\
        currentPathIndex st' = 0%nat /\
        obstacles st' = obstacles sceneSmallCanvas /\
        dronePos (drone st') = dronePos (drone sceneSmallCanvas) /\
        Drone.state (drone st') = match path st' with [] => idle | _ => navigating end /\
        target st' = match path st' with [] => None | _ => Some goal end)).
Proof.
  destruct (onClick (M := refMath) astarMode halves 120 90 sceneSmallCanvas goalAboveContainer)
    as [st'|] eqn:Hrun; [|vm_compute in Hrun; discriminate Hrun].
  exists st'. split; [reflexivity|].
  apply (onClick_outcome (M := refMath) astarMode halves 120 90 sceneSmallCanvas st'
                         goalAboveContainer).
  exact Hrun.
Defined.

Lemma onClick_astar_fallback_witness :
  exists st',
    onClick (M := refMath) astarMode halves 120 90 sceneSmallCanvas goalAboveContainer
      = Some st' /\
    nodesExplored (stats st') = 28%nat /\
    path st' = [dronePos (drone sceneSmallCanvas); goalAboveContainer] /\
    pathLength (stats st') = 2%nat /\
    target st' = Some goalAboveContainer /\ Drone.state (drone st') = navigating.
Proof.
  apply (onClick_astar_fallback (M := refMath) halves 120 90 sceneSmallCanvas
           goalAboveContainer goalAboveContainer
           {| astar_path := []; astar_nodesExplored := 28 |}).
  - vm_compute. reflexivity.
  - vm_compute. reflexivity.
  - reflexivity.
Defined.

(** ** The kinematics of the drone *)

Section KinematicsProperties.
Context {M : MathLib}.

Lemma samePose_refl (d : Drone) : samePose d d.
Proof. repeat split. Qed.

Lemma samePose_trans (d1 d2 d3 : Drone) : samePose d1 d2 -> samePose d2 d3 -> samePose d1 d3.
Proof.
  unfold samePose. intros [? [? [? [? [? [? ?]]]]]] [? [? [? [? [? [? ?]]]]]].
  repeat split; congruence.
Qed.

Lemma senseDanger_pose (closest : Q) (d : Drone) : samePose d (senseDanger closest d).
Proof.
  unfold senseDanger. destruct (Drone.state d); try apply samePose_refl.
  destruct (Qltb closest SAFE_DISTANCE); repeat split.
Qed.

Lemma follow_pose (algorithmMode : Algorithm) (speed : Q) (st : SimState) :
  samePose (drone st) (drone (follow algorithmMode speed st)).
Proof.
  unfold follow. destruct algorithmMode.
  1,2: destruct (nth_error (path st) (currentPathIndex st)); repeat split.
  destruct (target st); repeat split.
Qed.

Lemma avoidRays_pose (lidar : list LidarRay) (d : Drone) :
  samePose d (fold_left avoidRay lidar d).
Proof.
  revert d. induction lidar as [|ray rest IH]; intros d; cbn [fold_left].
  - apply samePose_refl.
  - apply samePose_trans with (d2 := avoidRay d ray); [|apply IH].
    unfold avoidRay. destruct (Qltb _ _); repeat split.
Qed.

Lemma avoid_pose (closest : Q) (lidar : list LidarRay) (d : Drone) :
  samePose d (avoid closest lidar d).
Proof.
  unfold avoid. destruct (Drone.state d); try apply samePose_refl.
  destruct (Qltb _ closest); [|apply avoidRays_pose].
  apply samePose_trans with (d2 := fold_left avoidRay lidar d); [apply avoidRays_pose|].
  repeat split.
Qed.

Lemma checkArrival_pose (st : SimState) : samePose (drone st) (drone (checkArrival st)).
Proof.
  unfold checkArrival. destruct (target st); [|apply samePose_refl].
  cbn [drone]. destruct (Qltb _ arrivalThreshold); repeat split.
Qed.

Lemma navigate_pose (algorithmMode : Algorithm) (speed closest : Q) (st : SimState) :
  samePose (drone st) (drone (navigate algorithmMode speed closest st)).
Proof.
  unfold navigate. destruct (isActive _); [|apply samePose_refl].
  eapply samePose_trans; [|apply checkArrival_pose]. unfold withDrone. cbn [drone].
  eapply samePose_trans; [apply follow_pose | apply avoid_pose].
Qed.

(** The drone after a tick is the drone of the controller, which has kept
    its pose, taken through the kinematics. *)
Lemma animate_drone (algorithmMode : Algorithm) (speed : Q) (rnd : Random) (W H : Q)
    (st : SimState) :
  exists d, samePose (drone st) d /\
            drone (animate algorithmMode speed rnd W H st) = physics speed W H d /\
            statBattery (stats (animate algorithmMode speed rnd W H st))
              = Drone.battery (physics speed W H d).
Proof.
  unfold animate.
  destruct (updateObstacles rnd W H (obstacles st) (draws st)) as [obstacles' c'].
  match goal with
  | |- context [physics speed W H (drone ?s)] => exists (drone s)
  end.
  split; [|split; reflexivity].
  eapply samePose_trans; [|apply navigate_pose]. cbn [drone]. apply senseDanger_pose.
Qed.

End KinematicsProperties.

Section PhysicsProperties.
Context {M : MathLib} {L : MathLaws M}.

Lemma hypot_nonneg (a b : Q) : 0 <= hypot a b.
Proof. pose proof (hypot_ge_l a b). pose proof (Qabs_nonneg a). lra. Qed.

(** X16. After a tick the drone's centre is at least its radius away from
    every border of a canvas that is at least as wide and as high as the
    drone. *)
Theorem drone_stays_in_canvas (algorithmMode : Algorithm) (speed : Q) (rnd : Random)
    (W H : Q) (st : SimState) :
  2 * DRONE_RADIUS <= W -> 2 * DRONE_RADIUS <= H ->
  let d := drone (animate algorithmMode speed rnd W H st) in
  DRONE_RADIUS <= Drone.x d <= W - DRONE_RADIUS /\
  DRONE_RADIUS <= Drone.y d <= H - DRONE_RADIUS.
Proof.
  intros HW HH. cbv zeta.
  destruct (animate_drone algorithmMode speed rnd W H st) as [d [_ [-> _]]].
  unfold physics. cbn [Drone.x Drone.y]. split; apply clamp_bounds; lra.
Qed.

(** The battery after the kinematics. *)
Lemma physics_battery (speed W H : Q) (d : Drone) :
  0 <= Drone.battery d ->
  0 <= Drone.battery (physics speed W H d) <= Drone.battery d /\
  (2 # 1000 <= Drone.battery d <= 100 ->
   Drone.battery (physics speed W H d) <= Drone.battery d - (19 # 10000)).
Proof.
  intros Hb. unfold physics. cbn [Drone.battery].
  set (cs := hypot (Drone.vx d * (95 # 100)) (Drone.vy d * (95 # 100))).
  pose proof (hypot_nonneg (Drone.vx d * (95 # 100)) (Drone.vy d * (95 # 100))) as Hcs.
  fold cs in Hcs.
  destruct (Math_max_spec 0 (Drone.battery d - (2 # 1000) * (1 + cs))) as [[? ->] | [? ->]];
    split; try intros ?; try split; lra.
Qed.

(** X17. The battery charge never rises and never falls below zero; while
    it is between 0.002 and the full charge of 100 each tick takes at least
    0.0019 off it, which leaves room for the rounding of the subtraction;
    and the statistics show the charge of the drone. *)
Theorem battery_drains (algorithmMode : Algorithm) (speed : Q) (rnd : Random)
    (W H : Q) (st : SimState) :
  0 <= Drone.battery (drone st) ->
  let st' := animate algorithmMode speed rnd W H st in
  0 <= Drone.battery (drone st') <= Drone.battery (drone st) /\
  (2 # 1000 <= Drone.battery (drone st) <= 100 ->
   Drone.battery (drone st') <= Drone.battery (drone st) - (19 # 10000)) /\
  statBattery (stats st') = Drone.battery (drone st').
Proof.
  intros Hb. cbv zeta.
  destruct (animate_drone algorithmMode speed rnd W H st) as [d [Hpose [Hd Hstat]]].
  rewrite Hstat, Hd.
  destruct Hpose as [_ [_ [_ [_ [_ [_ Hbat]]]]]]. rewrite <- Hbat in *.
  destruct (physics_battery speed W H d Hb) as [Hrange Hdrop].
  split; [lra | split; [exact Hdrop | reflexivity]].
Qed.

(** A component of the velocity after the speed limit. *)
Lemma limited_component (v cs maxSpeed : Q) :
  0 <= maxSpeed -> Qabs v <= cs ->
  Qabs (if Qltb maxSpeed cs then (v / cs) * maxSpeed else v) <= maxSpeed.
Proof.
  intros Hmax Hv. destruct (Qltb maxSpeed cs) eqn:E.
  - apply Qltb_lt in E. pose proof (ratio_bounded v cs Hv) as Hr.
    rewrite Qabs_Qmult. rewrite (Qabs_pos maxSpeed) by exact Hmax.
    pose proof (Qabs_nonneg (v / cs)). nra.
  - apply Qltb_ge in E. lra.
Qed.

Lemma clamp_step (lo hi p v : Q) :
  lo <= p <= hi -> Qabs (clamp lo hi (p + v) - p) <= Qabs v.
Proof.
  intros Hp. unfold clamp.
  destruct (Math_min_spec hi (p + v)) as [[? ->] | [? ->]].
  - destruct (Math_max_spec lo (p + v)) as [[? ->] | [? ->]];
      apply Qabs_case; intros; apply Qabs_case; intros; lra.
  - destruct (Math_max_spec lo hi) as [[? ->] | [? ->]];
      apply Qabs_case; intros; apply Qabs_case; intros; lra.
Qed.

(** X18. After a tick each component of the drone's velocity is at most
    [2 * speed] in absolute value, and a drone that was inside the canvas has
    moved along each axis by at most that much and the rounding of the new
    coordinate, bounded by [positionTolerance]. *)
Theorem drone_speed_limited (algorithmMode : Algorithm) (speed : Q) (rnd : Random)
    (W H : Q) (st : SimState) :
  0 <= speed ->
  let d := drone st in
  let d' := drone (animate algorithmMode speed rnd W H st) in
  Qabs (Drone.vx d') <= 2 * speed /\ Qabs (Drone.vy d') <= 2 * speed /\
  (DRONE_RADIUS <= Drone.x d <= W - DRONE_RADIUS ->
   Qabs (Drone.x d' - Drone.x d) <= 2 * speed + positionTolerance W speed) /\
  (DRONE_RADIUS <= Drone.y d <= H - DRONE_RADIUS ->
   Qabs (Drone.y d' - Drone.y d) <= 2 * speed + positionTolerance H speed).
Proof.
  intros Hspeed. cbv zeta.
  destruct (animate_drone algorithmMode speed rnd W H st) as [d [Hpose [-> _]]].
  destruct Hpose as [Hx [Hy _]]. rewrite <- Hx, <- Hy.
  unfold physics. cbn [Drone.vx Drone.vy Drone.x Drone.y].
  set (vx1 := Drone.vx d * (95 # 100)). set (vy1 := Drone.vy d * (95 # 100)).
  assert (Hvx : Qabs (if Qltb (2 * speed) (hypot vx1 vy1)
                      then vx1 / hypot vx1 vy1 * (2 * speed) else vx1) <= 2 * speed).
  { apply limited_component; [lra | apply hypot_ge_l]. }
  assert (Hvy : Qabs (if Qltb (2 * speed) (hypot vx1 vy1)
                      then vy1 / hypot vx1 vy1 * (2 * speed) else vy1) <= 2 * speed).
  { apply limited_component; [lra | apply hypot_ge_r]. }
  split; [exact Hvx | split; [exact Hvy | split]]; intros Hin.
  - eapply Qle_trans; [apply clamp_step; exact Hin|].
    eapply Qle_trans; [exact Hvx|].
    unfold positionTolerance, DRONE_RADIUS in *. lra.
  - eapply Qle_trans; [apply clamp_step; exact Hin|].
    eapply Qle_trans; [exact Hvy|].
    unfold positionTolerance, DRONE_RADIUS in *. lra.
Qed.

End PhysicsProperties.

Lemma drone_stays_in_canvas_witness :
  let d := drone (animate (M := refMath) astarMode (6 # 10) halves canvasW canvasH
                          sceneGoalFar) in
  DRONE_RADIUS <= Drone.x d <= canvasW - DRONE_RADIUS /\
  DRONE_RADIUS <= Drone.y d <= canvasH - DRONE_RADIUS.
Proof.
  apply (drone_stays_in_canvas (M := refMath) astarMode (6 # 10) halves canvasW canvasH
                               sceneGoalFar); vm_compute; discriminate.
Defined.

Lemma battery_drains_witness :
  let st' := animate (M := refMath) astarMode (6 # 10) halves canvasW canvasH sceneGoalFar in
  0 <= Drone.battery (drone st') <= Drone.battery (drone sceneGoalFar) /\
  (2 # 1000 <= Drone.battery (drone sceneGoalFar) <= 100 ->
   Drone.battery (drone st') <= Drone.battery (drone sceneGoalFar) - (19 # 10000)) /\
  statBattery (stats st') = Drone.battery (drone st').
Proof.
  apply (battery_drains (M := refMath) astarMode (6 # 10) halves canvasW canvasH sceneGoalFar).
  vm_compute. discriminate.
Defined.

Lemma drone_speed_limited_witness :
  let d := drone sceneGoalFar in
  let d' := drone (animate (M := refMath) astarMode (6 # 10) halves canvasW canvasH
                           sceneGoalFar) in
  Qabs (Drone.vx d') <= 2 * (6 # 10) /\ Qabs (Drone.vy d') <= 2 * (6 # 10) /\
  (DRONE_RADIUS <= Drone.x d <= canvasW - DRONE_RADIUS ->
   Qabs (Drone.x d' - Drone.x d) <= 2 * (6 # 10) + positionTolerance canvasW (6 # 10)) /\
  (DRONE_RADIUS <= Drone.y d <= canvasH - DRONE_RADIUS ->
   Qabs (Drone.y d' - Drone.y d) <= 2 * (6 # 10) + positionTolerance canvasH (6 # 10)).
Proof.
  apply (drone_speed_limited (M := refMath) astarMode (6 # 10) halves canvasW canvasH
                             sceneGoalFar).
  vm_compute. discriminate.
Defined.

(** ** The heading and the states of the controller *)

Section HeadingProperties.




End HeadingProperties.

Section StateMachineProperties.
Context {M : MathLib}.

Lemma follow_index (algorithmMode : Algorithm) (speed : Q) (st : SimState) :
  let i := currentPathIndex st in
  let i' := currentPathIndex (follow algorithmMode speed st) in
  (i <= i' <= S i)%nat /\ ((i < length (path st))%nat -> (i' < length (path st))%nat).
Proof.
  cbv zeta. unfold follow. destruct algorithmMode.
  1,2: destruct (nth_error (path st) (currentPathIndex st)); cbn [currentPathIndex];
       [|split; [lia | auto]];
       destruct (Qltb _ 15); cbn [andb]; [|split; [lia | auto]];
       destruct (currentPathIndex st <? length (path st) - 1)%nat eqn:E;
       [apply Nat.ltb_lt in E | ]; split; try lia; auto.
  destruct (target st); cbn [currentPathIndex]; split; try lia; auto.
Qed.

Lemma checkArrival_index (st : SimState) :
  currentPathIndex (checkArrival st) = currentPathIndex st.
Proof. unfold checkArrival. destruct (target st); reflexivity. Qed.

(** The path index after a tick: the controller's, when the drone is
    [navigating] or [avoiding]. *)
Lemma animate_index (algorithmMode : Algorithm) (speed : Q) (rnd : Random) (W H : Q)
    (st : SimState) :
  exists st1,
    path st1 = path st /\ currentPathIndex st1 = currentPathIndex st /\
    currentPathIndex (animate algorithmMode speed rnd W H st)
    = if isActive (Drone.state (drone st))
      then currentPathIndex (follow algorithmMode speed st1)
      else currentPathIndex st.
Proof.
  unfold animate.
  destruct (updateObstacles rnd W H (obstacles st) (draws st)) as [obstacles' c'].
  cbn [currentPathIndex]. unfold navigate. cbn [drone].
  match goal with
  | |- context [follow algorithmMode speed ?s] => exists s
  end.
  split; [reflexivity | split; [reflexivity|]].
  destruct (senseDanger_frame (closestObstacle
              (simulateLidar (dronePos (drone st)) (Drone.heading (drone st)) obstacles' W H))
              (drone st)) as [_ [_ ->]].
  destruct (isActive (Drone.state (drone st))); [|reflexivity].
  rewrite checkArrival_index. reflexivity.
Qed.

(** X21. Over a tick the path index stays or moves on by one, and an index
    inside the path stays inside it; the path stays as it is or is cleared. *)
Theorem path_index_advances (algorithmMode : Algorithm) (speed : Q) (rnd : Random)
    (W H : Q) (st : SimState) :
  let st' := animate algorithmMode speed rnd W H st in
  (currentPathIndex st <= currentPathIndex st' <= S (currentPathIndex st))%nat /\
  ((currentPathIndex st < length (path st))%nat ->
   (currentPathIndex st' < length (path st))%nat) /\
  (path st' = path st \/ path st' = []).
Proof.
  cbv zeta.
  destruct (animate_index algorithmMode speed rnd W H st) as [st1 [Hp [Hi ->]]].
  destruct (animate_controller algorithmMode speed rnd W H st) as [_ [_ Hpath]].
  cbv zeta in Hpath. rewrite Hpath. clear Hpath.
  pose proof (follow_index algorithmMode speed st1) as Hf. cbv zeta in Hf.
  rewrite Hp, Hi in Hf. destruct Hf as [Hrange Hin].
  split; [|split].
  - destruct (isActive (Drone.state (drone st))); lia.
  - destruct (isActive (Drone.state (drone st))); auto.
  - destruct (_ && _)%bool; auto.
Qed.

(** One tick of a drone that is neither [navigating] nor [avoiding]. *)
Lemma animate_inactive (algorithmMode : Algorithm) (speed : Q) (rnd : Random) (W H : Q)
    (st : SimState) :
  isActive (Drone.state (drone st)) = false ->
  let st' := animate algorithmMode speed rnd W H st in
  Drone.state (drone st') = Drone.state (drone st) /\
  target st' = target st /\ path st' = path st /\
  currentPathIndex st' = currentPathIndex st.
Proof.
  intros Hact. cbv zeta.
  destruct (animate_index algorithmMode speed rnd W H st) as [st1 [_ [_ ->]]].
  destruct (animate_controller algorithmMode speed rnd W H st) as [Hs [Ht Hp]].
  cbv zeta in Hs, Ht, Hp. rewrite Hs, Ht, Hp, Hact. clear Hs Ht Hp.
  destruct (Drone.state (drone st)); try discriminate Hact; cbn; auto.
Qed.

(** X20. The state of the drone over a tick: from [navigating] and
    [avoiding] it goes to [navigating], [avoiding] or [idle]; [idle],
    [planning] and [landing] stay as they are, with the target, the path and
    the path index unchanged, so that no tick ends in [planning] or
    [landing] that did not start there. *)
Theorem animate_state_machine (algorithmMode : Algorithm) (speed : Q) (rnd : Random)
    (W H : Q) (st : SimState) :
  let st' := animate algorithmMode speed rnd W H st in
  let s' := Drone.state (drone st') in
  match Drone.state (drone st) with
  | navigating | avoiding => s' = navigating \/ s' = avoiding \/ s' = idle
  | s => s' = s /\ target st' = target st /\ path st' = path st /\
         currentPathIndex st' = currentPathIndex st
  end.
Proof.
  cbv zeta.
  destruct (Drone.state (drone st)) eqn:Hs;
    try (rewrite <- Hs; apply animate_inactive; rewrite Hs; reflexivity).
  - destruct (animate_controller algorithmMode speed rnd W H st) as [Hstate _].
    cbv zeta in Hstate. rewrite Hstate, Hs. clear Hstate.
    destruct (Qltb _ SAFE_DISTANCE); cbn [isActive andb];
      destruct (match target st with Some _ => _ | None => _ end);
      try destruct (Qltb _ (closestObstacle _)); auto.
  - destruct (animate_controller algorithmMode speed rnd W H st) as [Hstate _].
    cbv zeta in Hstate. rewrite Hstate, Hs. clear Hstate. cbn [isActive andb].
    destruct (match target st with Some _ => _ | None => _ end);
      try destruct (Qltb _ (closestObstacle _)); auto.
Qed.

(** A drone that is neither [navigating] nor [avoiding] keeps its state,
    its target, its path and its path index over any number of ticks: only
    a click sets it going. *)
Corollary inactive_drone_keeps_plan (algorithmMode : Algorithm) (speed : Q) (rnd : Random)
    (W H : Q) (st : SimState) (n : nat) :
  isActive (Drone.state (drone st)) = false ->
  let st' := ticks n algorithmMode speed rnd W H st in
  Drone.state (drone st') = Drone.state (drone st) /\
  target st' = target st /\ path st' = path st /\
  currentPathIndex st' = currentPathIndex st.
Proof.
  revert st. induction n as [|n IH]; intros st Hact; cbn [ticks]; [auto|].
  destruct (animate_inactive algorithmMode speed rnd W H st Hact) as [Hs [Ht [Hp Hi]]].
  cbv zeta in IH. rewrite <- Hs, <- Ht, <- Hp, <- Hi. apply IH. rewrite Hs. exact Hact.
Qed.

End StateMachineProperties.

(** ** The obstacles over the ticks *)

Section TrafficProperties.
Context {M : MathLib}.

Lemma keepsShape_refl (o : Obstacle) : keepsShape o o.
Proof. repeat split. Qed.

Lemma keepsShape_trans (o1 o2 o3 : Obstacle) :
  keepsShape o1 o2 -> keepsShape o2 o3 -> keepsShape o1 o3.
Proof.
  intros [Hw [Hh [Ht Hfix]]] [Hw' [Hh' [Ht' Hfix']]].
  repeat split; try congruence.
  intros Hstill. specialize (Hfix Hstill). subst o2. apply Hfix'. exact Hstill.
Qed.

Lemma Forall2_keepsShape_refl (l : list Obstacle) : Forall2 keepsShape l l.
Proof. induction l; constructor; [apply keepsShape_refl | assumption]. Qed.

Lemma Forall2_keepsShape_trans (l1 l2 l3 : list Obstacle) :
  Forall2 keepsShape l1 l2 -> Forall2 keepsShape l2 l3 -> Forall2 keepsShape l1 l3.
Proof.
  intros H12. revert l3. induction H12 as [|a b l1 l2 Hab _ IH]; intros l3 H23;
    inversion H23; subst; constructor.
  - eapply keepsShape_trans; eassumption.
  - apply IH. assumption.
Qed.

Lemma replaceNth_keepsShape (all : list Obstacle) (i : nat) (obs obs' : Obstacle) :
  nth_error all i = Some obs -> keepsShape obs obs' ->
  Forall2 keepsShape all (replaceNth i obs' all).
Proof.
  revert i. induction all as [|a all IH]; intros i Hobs Hkeep.
  - destruct i; discriminate Hobs.
  - destruct i as [|i]; cbn [replaceNth].
    + injection Hobs as ->. constructor; [exact Hkeep | apply Forall2_keepsShape_refl].
    + constructor; [apply keepsShape_refl | apply IH; assumption].
Qed.

Lemma updateObstacle_keepsShape (rnd : Random) (W H : Q) (all : list Obstacle) (c i : nat) :
  Forall2 keepsShape all (fst (updateObstacle rnd W H (all, c) i)).
Proof.
  unfold updateObstacle.
  destruct (nth_error all i) as [obs|] eqn:Hobs; [|apply Forall2_keepsShape_refl].
  destruct (Obstacle.type obs) eqn:Htype; [apply Forall2_keepsShape_refl|].
  destruct (Obstacle.velocity obs) as [v|] eqn:Hv; [|apply Forall2_keepsShape_refl].
  destruct (moveDynamic rnd W H all i obs v c) as [obs' c'] eqn:Hmove.
  cbn [fst]. apply (replaceNth_keepsShape all i obs obs' Hobs).
  unfold moveDynamic in Hmove. destruct (bounceStatic rnd c _ _ _) as [v2 c2].
  injection Hmove as <- _. cbn.
  repeat split. intros [Hs | Hn]; congruence.
Qed.

Lemma updateObstacles_keepsShape (rnd : Random) (W H : Q) (all : list Obstacle) (c : nat) :
  Forall2 keepsShape all (fst (updateObstacles rnd W H all c)).
Proof.
  unfold updateObstacles. generalize (seq 0 (length all)). intros idxs.
  revert all c. induction idxs as [|i idxs IH]; intros all c; cbn [fold_left].
  - apply Forall2_keepsShape_refl.
  - pose proof (updateObstacle_keepsShape rnd W H all c i) as Hstep.
    destruct (updateObstacle rnd W H (all, c) i) as [all1 c1]. cbn [fst] in Hstep.
    eapply Forall2_keepsShape_trans; [exact Hstep | apply IH].
Qed.

(** X22. Over any number of ticks the field keeps its obstacles in their
    order, each with its width, height and type; an obstacle that is static,
    or has no velocity, stays exactly as it is. *)
Theorem static_obstacles_fixed (algorithmMode : Algorithm) (speed : Q) (rnd : Random)
    (W H : Q) (st : SimState) (n : nat) :
  Forall2 keepsShape (obstacles st) (obstacles (ticks n algorithmMode speed rnd W H st)).
Proof.
  revert st. induction n as [|n IH]; intros st; cbn [ticks].
  - apply Forall2_keepsShape_refl.
  - eapply Forall2_keepsShape_trans; [|apply IH].
    rewrite animate_obstacles. apply updateObstacles_keepsShape.
Qed.

End TrafficProperties.

(** ** The generated field *)

Section GeneratorProperties.
Context {M : MathLib}.

Lemma pickType_In (rand : Q) (types : list StaticInfo) (st : StaticInfo) :
  pickType rand types = Some st -> In st types.
Proof.
  revert rand. induction types as [|t rest IH]; intros rand; cbn [pickType]; [discriminate|].
  destruct (Qleb _ 0).
  - intros Heq. injection Heq as ->. left. reflexivity.
  - intros Heq. right. apply (IH _ Heq).
Qed.

Lemma selectStaticType_In (rnd : Random) (c : nat) :
  In (fst (selectStaticType rnd c)) staticTypes.
Proof.
  unfold selectStaticType. cbn [fst].
  destruct (pickType (rnd c * totalWeight) staticTypes) as [st|] eqn:Hpick.
  - apply (pickType_In _ _ _ Hpick).
  - left. reflexivity.
Qed.

(** One cell of the grid: the field stays one that the generator can
    build, and the index counts the static obstacles. *)
Lemma placeStatic_generated (rnd : Random) (W H cellW cellH : Q) (staticCount : Z)
    (obstacles : list Obstacle) (staticIndex : Z) (c : nat) (cell : nat * nat) (n : nat) :
  generated rnd W H n 0 obstacles ->
  staticIndex = Z.of_nat n -> (staticIndex <= Z.max 0 staticCount)%Z ->
  let '(obstacles', staticIndex', _) :=
    placeStatic rnd W H cellW cellH staticCount (obstacles, staticIndex, c) cell in
  exists n', generated rnd W H n' 0 obstacles' /\
             staticIndex' = Z.of_nat n' /\ (staticIndex' <= Z.max 0 staticCount)%Z.
Proof.
  intros Hgen Hidx Hle. destruct cell as [row col]. unfold placeStatic.
  destruct (staticIndex <? staticCount)%Z eqn:Hlt; cbn [negb]; [|exists n; auto].
  apply Z.ltb_lt in Hlt.
  destruct (Qltb _ 120 && _); [exists n; auto|].
  pose proof (selectStaticType_In rnd c) as Hin.
  destruct (selectStaticType rnd c) as [typeInfo c1]. cbn [fst] in Hin.
  destruct (tooNear _ _ _ _ obstacles) eqn:Hnear; [exists n; auto|].
  exists (S n). split; [|split; lia].
  apply generated_static; [exact Hgen|].
  exists typeInfo, (rnd c1), (rnd (1 + c1)%nat).
  eexists. eexists. split; [exact Hin|]. split; [eexists; reflexivity|].
  split; [eexists; reflexivity|]. cbv zeta. split; [reflexivity | exact Hnear].
Qed.

Lemma placeDynamic_generated (attempts : nat) (rnd : Random) (W H : Q)
    (obstacles : list Obstacle) (c n m : nat) :
  generated rnd W H n m obstacles ->
  exists m', (m <= m' <= S m)%nat /\
             generated rnd W H n m' (fst (placeDynamic attempts rnd W H obstacles c)).
Proof.
  intros Hgen. revert c. induction attempts as [|attempts IH]; intros c; cbn [placeDynamic].
  - exists m. split; [lia | exact Hgen].
  - destruct (tooNear _ _ uavSize uavSize obstacles) eqn:Hnear; cbn [negb andb];
      [apply IH|].
    destruct (Qltb _ 120 && _) eqn:Hstart; cbn [negb]; [apply IH|].
    exists (S m). split; [lia|]. cbn [fst].
    apply generated_dynamic; [exact Hgen|].
    exists (rnd c), (rnd (S c)). eexists.
    split; [eexists; reflexivity|]. split; [eexists; reflexivity|].
    cbv zeta. split; [reflexivity | split; [exact Hnear | exact Hstart]].
Qed.

(** The field of [generateObstacles] is one that the generator can build,
    with no more obstacles of either kind than were asked for. *)
Lemma generateObstacles_generated (rnd : Random) (c : nat) (count dynamicCount : Z)
    (W H : Q) :
  exists n m,
    generated rnd W H n m (fst (generateObstacles rnd c count dynamicCount W H)) /\
    (n <= Z.to_nat (count - dynamicCount))%nat /\ (m <= Z.to_nat dynamicCount)%nat.
Proof.
  unfold generateObstacles. cbv zeta.
  set (staticCount := (count - dynamicCount)%Z).
  set (cells := flat_map _ _).
  match goal with
  | |- context [placeStatic rnd W H ?cw ?ch _] => set (cellW := cw); set (cellH := ch)
  end.
  set (step := placeStatic _ _ _ _ _ _).
  assert (Hstatics : forall l obstacles staticIndex c0 n,
            generated rnd W H n 0 obstacles ->
            staticIndex = Z.of_nat n -> (staticIndex <= Z.max 0 staticCount)%Z ->
            let '(obstacles', staticIndex', _) :=
              fold_left step l (obstacles, staticIndex, c0) in
            exists n', generated rnd W H n' 0 obstacles' /\
                       staticIndex' = Z.of_nat n' /\ (staticIndex' <= Z.max 0 staticCount)%Z).
  { induction l as [|cell rest IH]; intros obstacles staticIndex c0 n Hgen Hidx Hle;
      cbn [fold_left]; [exists n; auto|].
    pose proof (placeStatic_generated rnd W H cellW cellH staticCount obstacles staticIndex
                                      c0 cell n Hgen Hidx Hle) as Hstep.
    fold step in Hstep.
    destruct (step (obstacles, staticIndex, c0) cell) as [[obstacles1 idx1] c1].
    destruct Hstep as [n1 [Hgen1 [Hidx1 Hle1]]]. apply (IH _ _ _ n1); assumption. }
  specialize (Hstatics cells [] 0%Z c 0%nat (generated_nil rnd W H) eq_refl
                       ltac:(lia)).
  destruct (fold_left step cells ([], 0%Z, c)) as [[statics idx] c1].
  destruct Hstatics as [n [Hgen [Hidx Hle]]].
  assert (Hn : (n <= Z.to_nat staticCount)%nat) by lia.
  clear Hidx Hle.
  assert (Hdyn : forall l (acc : list Obstacle * nat) m,
            generated rnd W H n m (fst acc) ->
            exists m', (m' <= m + length l)%nat /\
              generated rnd W H n m'
                (fst (fold_left (fun (a : list Obstacle * nat) (_ : nat) =>
                                   placeDynamic 50 rnd W H (fst a) (snd a)) l acc))).
  { induction l as [|i rest IH]; intros acc m Hacc; cbn [fold_left].
    - exists m. split; [cbn; lia | exact Hacc].
    - destruct (placeDynamic_generated 50 rnd W H (fst acc) (snd acc) n m Hacc)
        as [m1 [Hm1 Hgen1]].
      destruct (IH _ m1 Hgen1) as [m' [Hm' Hgen']].
      exists m'. split; [cbn [length]; lia | exact Hgen']. }
  destruct (Hdyn (seq 0 (Z.to_nat dynamicCount)) (statics, c1) 0%nat Hgen) as [m [Hm Hres]].
  exists n, m. rewrite length_seq in Hm. split; [exact Hres | split; [exact Hn | lia]].
Qed.




(** X24. A generated field lists its static obstacles first and its UAVs
    after them, no more of either kind than were asked for; every UAV is a
    square of side [uavSize] with a velocity. *)
Theorem generateObstacles_count (rnd : Random) (c : nat) (count dynamicCount : Z)
    (W H : Q) :
  exists statics uavs,
    fst (generateObstacles rnd c count dynamicCount W H) = statics ++ uavs /\
    Forall (fun o => Obstacle.type o = static /\ Obstacle.velocity o = None) statics /\
    Forall (fun o => Obstacle.type o = dynamic /\ Obstacle.velocity o <> None /\
                     Obstacle.width o = uavSize /\ Obstacle.height o = uavSize) uavs /\
    (length statics <= Z.to_nat (count - dynamicCount))%nat /\
    (length uavs <= Z.to_nat dynamicCount)%nat.
Proof.
  destruct (generateObstacles_generated rnd c count dynamicCount W H)
    as [n [m [Hgen [Hn Hm]]]].
  cut (exists statics uavs,
         fst (generateObstacles rnd c count dynamicCount W H) = statics ++ uavs /\
         Forall (fun o => Obstacle.type o = static /\ Obstacle.velocity o = None) statics /\
         Forall (fun o => Obstacle.type o = dynamic /\ Obstacle.velocity o <> None /\
                          Obstacle.width o = uavSize /\ Obstacle.height o = uavSize) uavs /\
         length statics = n /\ length uavs = m).
  { intros [statics [uavs [Heq [Hs [Hu [Hls Hlu]]]]]]. exists statics, uavs.
    repeat split; auto; lia. }
  clear Hn Hm.
  induction Hgen as [|n obstacles o Hgen IH Ho | n m obstacles o Hgen IH Ho].
  - exists [], []. repeat split; constructor.
  - destruct IH as [statics [uavs [-> [Hs [Hu [Hls Hlu]]]]]].
    destruct uavs; [|discriminate Hlu]. rewrite app_nil_r.
    exists (statics ++ [o]), []. rewrite app_nil_r.
    destruct Ho as [typeInfo [rw [rh [px [py [_ [_ [_ Ho]]]]]]]]. cbv zeta in Ho.
    destruct Ho as [-> _].
    split; [reflexivity|]. split; [|split; [constructor|]].
    + apply Forall_app. split; [exact Hs|]. constructor; [split; reflexivity | constructor].
    + rewrite length_app. cbn. lia.
  - destruct IH as [statics [uavs [-> [Hs [Hu [Hls Hlu]]]]]].
    exists statics, (uavs ++ [o]). rewrite app_assoc.
    destruct Ho as [rx [ry [v [_ [_ Ho]]]]]. cbv zeta in Ho. destruct Ho as [-> _].
    split; [reflexivity|]. split; [exact Hs|]. split.
    + apply Forall_app. split; [exact Hu|]. constructor; [|constructor].
      repeat split. discriminate.
    + rewrite length_app. cbn. lia.
Qed.

Lemma staticTypes_sizes (typeInfo : StaticInfo) :
  In typeInfo staticTypes ->
  0 <= minW typeInfo <= maxW typeInfo /\ maxW typeInfo <= 40 /\
  0 <= minH typeInfo <= maxH typeInfo /\ maxH typeInfo <= 40.
Proof.
  intros Hin. cbn in Hin.
  destruct Hin as [<- | [<- | [<- | [<- | [<- | []]]]]]; cbn; repeat split; lra.
Qed.

(** X25. With every draw between 0 and 1, on a canvas of at least 160 by
    160 every obstacle of a generated field lies inside the canvas, at least
    [margin] away from its borders. *)
Theorem generateObstacles_within_margin (rnd : Random) (c : nat) (count dynamicCount : Z)
    (W H : Q) :
  (forall i, 0 <= rnd i <= 1) -> 160 <= W -> 160 <= H ->
  Forall (withinMargin W H) (fst (generateObstacles rnd c count dynamicCount W H)).
Proof.
  intros Hrnd HW HH.
  destruct (generateObstacles_generated rnd c count dynamicCount W H) as [n [m [Hgen _]]].
  induction Hgen as [|n obstacles o Hgen IH Ho | n m obstacles o Hgen IH Ho].
  - constructor.
  - apply Forall_app. split; [exact IH|]. constructor; [|constructor].
    destruct Ho as [typeInfo [rw [rh [px [py [Hin [[i ->] [[j ->] Ho]]]]]]]].
    cbv zeta in Ho. destruct Ho as [-> _].
    destruct (staticTypes_sizes typeInfo Hin) as [Hw [Hw' [Hh Hh']]].
    pose proof (Hrnd i) as Hi. pose proof (Hrnd j) as Hj.
    unfold withinMargin, margin in *.
    cbn [Obstacle.x Obstacle.y Obstacle.width Obstacle.height].
    set (w := minW typeInfo + rnd i * (maxW typeInfo - minW typeInfo)).
    set (h := minH typeInfo + rnd j * (maxH typeInfo - minH typeInfo)).
    assert (Hwle : w <= 40) by (unfold w; nra).
    assert (Hhle : h <= 40) by (unfold h; nra).
    destruct (clamp_bounds 60 (W - 60 - w) px) as [Hx0 Hx1]; [lra|].
    destruct (clamp_bounds 60 (H - 60 - h) py) as [Hy0 Hy1]; [lra|].
    unfold clamp in *. repeat split; lra.
  - apply Forall_app. split; [exact IH|]. constructor; [|constructor].
    destruct Ho as [rx [ry [v [[i ->] [[j ->] Ho]]]]]. cbv zeta in Ho. destruct Ho as [-> _].
    pose proof (Hrnd i) as Hi. pose proof (Hrnd j) as Hj.
    unfold withinMargin, margin, uavSize in *.
    cbn [Obstacle.x Obstacle.y Obstacle.width Obstacle.height].
    repeat split; nra.
Qed.

Lemma generated_start_free (rnd : Random) (W H : Q) (n m : nat) (field : list Obstacle) :
  generated rnd W H n m field ->
  existsb (insideObstacle 50 (H / 2)) field = false.
Proof.
  induction 1 as [|n obstacles o Hgen IH Ho | n m obstacles o Hgen IH Ho].
  - reflexivity.
  - rewrite existsb_app, IH. cbn [existsb orb]. rewrite orb_false_r.
    destruct Ho as [typeInfo [rw [rh [px [py [_ [_ [_ Ho]]]]]]]]. cbv zeta in Ho.
    destruct Ho as [-> _]. unfold insideObstacle. cbn [Obstacle.x].
    match goal with
    | |- Qltb (Math_max margin ?v) 50 && _ && _ && _ = false =>
        destruct (Math_max_spec margin v) as [[Hlt Hmax] | [Hle Hmax]]; rewrite Hmax
    end.
    + replace (Qltb _ 50) with false; [reflexivity|].
      symmetry. apply Qltb_ge. unfold margin in *. lra.
    + replace (Qltb margin 50) with false; [reflexivity|].
      symmetry. apply Qltb_ge. unfold margin. lra.
  - rewrite existsb_app, IH. cbn [existsb orb]. rewrite orb_false_r.
    destruct Ho as [rx [ry [v [_ [_ Ho]]]]]. cbv zeta in Ho.
    destruct Ho as [-> [_ Hstart]]. unfold insideObstacle.
    cbn [Obstacle.x Obstacle.y Obstacle.width Obstacle.height].
    set (px := margin + rx * (W - 2 * margin - uavSize)) in *.
    set (py := margin + ry * (H - 2 * margin - uavSize)) in *.
    destruct (Qltb px 50) eqn:Hx; [|reflexivity]. apply Qltb_lt in Hx.
    destruct (Qltb 50 (px + uavSize)) eqn:Hx'; [|reflexivity].
    destruct (Qltb py (H / 2)) eqn:Hy; [|reflexivity]. apply Qltb_lt in Hy.
    cbn [andb]. apply Qltb_ge.
    apply andb_false_iff in Hstart. destruct Hstart as [Hfar | Hfar].
    + apply Qltb_ge in Hfar. lra.
    + apply Qltb_ge in Hfar. unfold Math_abs, uavSize in *. revert Hfar.
      apply Qabs_case; intros; lra.
Qed.

(** X26. At the start and after a reset the drone is at [(50, H / 2)], and
    that point lies strictly inside no obstacle of the generated field. *)
Theorem start_outside_obstacles (rnd : Random) (obstacleCount dynamicObstacleCount : Z)
    (W H : Q) (st : SimState) :
  let atStart (s : SimState) :=
    dronePos (drone s) = {| x := 50; y := H / 2 |} /\
    existsb (insideObstacle (Drone.x (drone s)) (Drone.y (drone s))) (obstacles s) = false in
  atStart (initialState rnd obstacleCount dynamicObstacleCount W H) /\
  atStart (resetObstacles rnd obstacleCount dynamicObstacleCount W H st).
Proof.
  cbv zeta. unfold initialState, resetObstacles.
  destruct (generateObstacles_generated rnd 0 obstacleCount dynamicObstacleCount W H)
    as [n [m [Hgen _]]].
  destruct (generateObstacles_generated rnd (draws st) obstacleCount dynamicObstacleCount W H)
    as [n' [m' [Hgen' _]]].
  destruct (generateObstacles rnd 0 _ _ W H) as [field c].
  destruct (generateObstacles rnd (draws st) _ _ W H) as [field' c'].
  cbn [fst] in *. cbn [drone obstacles dronePos Drone.x Drone.y].
  split; (split; [reflexivity|]); eapply generated_start_free; eassumption.
Qed.

End GeneratorProperties.

Lemma generateObstacles_within_margin_witness :
  Forall (withinMargin canvasW canvasH)
         (fst (generateObstacles (M := refMath) halves 0 12 2 canvasW canvasH)).
Proof.
  apply (generateObstacles_within_margin (M := refMath) halves 0 12 2 canvasW canvasH).
  - intros i. unfold halves. split; vm_compute; discriminate.
  - vm_compute. discriminate.
  - vm_compute. discriminate.
Defined.

(** ** The sweep and the repulsion *)

Section SweepProperties.
Context {M : MathLib}.

Lemma march_firstBlocked (drone : Vec2) (a : Q) (obstacles : list Obstacle) (W H : Q)
    (n k : nat) :
  firstBlocked drone a obstacles W H k n (march drone a obstacles W H n k).
Proof.
  revert k. induction n as [|n IH]; intros k; cbn [march].
  - left. split; [reflexivity|]. split; [reflexivity|]. split; [reflexivity|].
    intros j Hj. lia.
  - fold (samplePoint drone a k).
    set (p := samplePoint drone a k).
    change (x drone + cos a * marchDistance k) with (x p).
    change (y drone + sin a * marchDistance k) with (y p).
    destruct (Qltb (x p) 0 || Qltb W (x p) || Qltb (y p) 0 || Qltb H (y p)) eqn:Hout.
    + right. exists k. split; [lia|]. split; [reflexivity|]. split; [reflexivity|].
      split; [reflexivity|]. split.
      * change (blocked obstacles W H p = true).
        unfold blocked, outOfCanvas. rewrite Hout. reflexivity.
      * intros i Hi. lia.
    + destruct (existsb (insideObstacle (x p) (y p)) obstacles) eqn:Hin.
      * right. exists k. split; [lia|]. split; [reflexivity|]. split; [reflexivity|].
        split; [reflexivity|]. split.
        -- change (blocked obstacles W H p = true).
           unfold blocked, outOfCanvas. rewrite Hout, Hin. reflexivity.
        -- intros i Hi. lia.
      * assert (Hfree : blocked obstacles W H p = false).
        { unfold blocked, outOfCanvas. rewrite Hout, Hin. reflexivity. }
        destruct (IH (S k)) as [[Hhit [Hd [Hp Hall]]] | [j [Hj [Hhit [Hd [Hp [Hb Hbefore]]]]]]].
        -- left. split; [exact Hhit|]. split; [exact Hd|]. split; [exact Hp|].
           intros j Hj.
           destruct (Nat.eq_dec j k) as [-> | Hne]; [exact Hfree | apply Hall; lia].
        -- right. exists j. split; [lia|]. split; [exact Hhit|]. split; [exact Hd|].
           split; [exact Hp|]. split; [exact Hb|]. intros i Hi.
           destruct (Nat.eq_dec i k) as [-> | Hne]; [exact Hfree | apply Hbefore; lia].
Qed.

(** X27. Each reading of a sweep is a hit at the first of the 39 samples of
    its ray that lies outside the canvas or strictly inside an obstacle, with
    that sample as its hit point, or a miss when no sample does. *)
Theorem simulateLidar_first_blocked (drone : Vec2) (heading : Q) (obstacles : list Obstacle)
    (canvasWidth canvasHeight : Q) :
  Forall2 (fun i ray =>
             firstBlocked drone (rayAngle heading i) obstacles canvasWidth canvasHeight
                          0 marchSteps ray)
          (seq 0 LIDAR_RAYS)
          (simulateLidar drone heading obstacles canvasWidth canvasHeight).
Proof.
  unfold simulateLidar. apply Forall2_map_self. intros i. apply march_firstBlocked.
Qed.

Lemma closestObstacle_fold (lidar : list LidarRay) (m : Q) :
  let closest := fold_left (fun m ray => if Qltb (distance ray) m then distance ray else m)
                           lidar m in
  closest <= m /\ Forall (fun ray => closest <= distance ray) lidar /\
  (closest = m \/ exists ray, In ray lidar /\ closest = distance ray).
Proof.
  revert m. induction lidar as [|ray rest IH]; intros m; cbn [fold_left].
  - split; [lra | split; [constructor | left; reflexivity]].
  - destruct (Qltb (distance ray) m) eqn:E.
    + apply Qltb_lt in E. destruct (IH (distance ray)) as [Hle [Hall Hwho]].
      split; [lra | split].
      * constructor; assumption.
      * right. destruct Hwho as [-> | [r [Hin ->]]].
        -- exists ray. split; [left; reflexivity | reflexivity].
        -- exists r. split; [right; exact Hin | reflexivity].
    + apply Qltb_ge in E. destruct (IH m) as [Hle [Hall Hwho]].
      split; [lra | split].
      * constructor; [lra | assumption].
      * destruct Hwho as [-> | [r [Hin ->]]]; [left; reflexivity|].
        right. exists r. split; [right; exact Hin | reflexivity].
Qed.

(** X28. The distance the controller takes from a sweep is the least
    distance of its readings; it lies between 5 and the range of the sensor,
    so no obstacle is ever seen closer than 5. *)
Theorem closestObstacle_sweep (drone : Vec2) (heading : Q) (obstacles : list Obstacle)
    (canvasWidth canvasHeight : Q) :
  let sweep := simulateLidar drone heading obstacles canvasWidth canvasHeight in
  let closest := closestObstacle sweep in
  5 <= closest <= LIDAR_RANGE /\
  Forall (fun ray => closest <= distance ray) sweep /\
  exists ray, In ray sweep /\ closest = distance ray.
Proof.
  cbv zeta. unfold closestObstacle.
  set (sweep := simulateLidar drone heading obstacles canvasWidth canvasHeight).
  destruct (closestObstacle_fold sweep LIDAR_RANGE) as [Hle [Hall Hwho]]. cbv zeta in *.
  set (closest := fold_left _ sweep LIDAR_RANGE) in *.
  assert (Hshape : Forall (fun ray => 5 <= distance ray /\
                                      (hit ray = false -> distance ray = LIDAR_RANGE)) sweep).
  { unfold sweep, simulateLidar. apply Forall_forall. intros ray Hin.
    apply in_map_iff in Hin. destruct Hin as [i [<- _]].
    destruct (march_shape drone (rayAngle heading i) obstacles canvasWidth canvasHeight
                          marchSteps 0 eq_refl) as [_ [[Hh [Hd _]] | [Hh [k [Hk [Hd _]]]]]].
    - rewrite Hd. split; [unfold LIDAR_RANGE; lra | auto].
    - rewrite Hd. split; [apply marchDistance_bounds; exact Hk | congruence]. }
  assert (Hfirst : exists ray, In ray sweep).
  { unfold sweep, simulateLidar. eexists. apply in_map. apply in_seq.
    unfold LIDAR_RAYS. split; [apply Nat.le_0_l | apply Nat.lt_0_succ]. }
  split; [|split; [exact Hall|]].
  - split; [|exact Hle].
    destruct Hwho as [-> | [r [Hin ->]]]; [unfold LIDAR_RANGE; lra|].
    rewrite Forall_forall in Hshape. apply (Hshape r Hin).
  - destruct Hwho as [Heq | Hwho]; [|exact Hwho].
    destruct Hfirst as [ray Hin]. rewrite Forall_forall in Hall, Hshape.
    pose proof (Hall ray Hin) as Hge. destruct (Hshape ray Hin) as [_ Hmiss].
    destruct (hit ray) eqn:Hhit.
    + exists ray. split; [exact Hin|].
      exfalso. clear Hmiss.
      assert (Hlt : distance ray < LIDAR_RANGE).
      { unfold sweep, simulateLidar in Hin. apply in_map_iff in Hin.
        destruct Hin as [i [<- _]].
        destruct (march_shape drone (rayAngle heading i) obstacles canvasWidth canvasHeight
                              marchSteps 0 eq_refl)
          as [_ [[Hh _] | [_ [k [Hk [Hd _]]]]]]; [congruence|].
        rewrite Hd. apply marchDistance_bounds. exact Hk. }
      rewrite Heq in Hge. lra.
    + exists ray. split; [exact Hin|]. rewrite Heq. symmetry. apply Hmiss. reflexivity.
Qed.

End SweepProperties.

Section RepulsionProperties.
Context {M : MathLib} {L : MathLaws M}.

Lemma repForce_out_of_range (drone : Vec2) (obstacles : list Obstacle) (acc : Vec2) :
  Forall (fun obs => surfaceDistance drone obs <= 0 \/
                     influenceRadius <= surfaceDistance drone obs) obstacles ->
  fold_left (addRepulsion drone) obstacles acc = acc.
Proof.
  intros Hall. revert acc. induction Hall as [|obs rest Hobs _ IH]; intros acc;
    cbn [fold_left]; [reflexivity|].
  rewrite <- (IH acc) at 2. f_equal. unfold addRepulsion.
  destruct (Qltb (surfaceDistance drone obs) influenceRadius) eqn:Hnear; [|reflexivity].
  destruct (Qltb 0 (surfaceDistance drone obs)) eqn:Hpos; [|reflexivity].
  apply Qltb_lt in Hnear, Hpos. destruct Hobs; lra.
Qed.

(** X29. An obstacle repels the drone only from a distance strictly between
    zero and the influence radius: when every obstacle is at the influence
    radius or beyond, or so close that its distance is zero or less, the
    steering force is the attractive force alone, at most 1 in each
    component. *)
Theorem apfNavigate_no_repulsion (drone goal : Vec2) (obstacles : list Obstacle) :
  Forall (fun obs => surfaceDistance drone obs <= 0 \/
                     influenceRadius <= surfaceDistance drone obs) obstacles ->
  let force := apfNavigate drone goal obstacles in
  x force == x (attrForce drone goal) /\ y force == y (attrForce drone goal) /\
  Qabs (x force) <= 1 /\ Qabs (y force) <= 1.
Proof.
  intros Hall. cbv zeta. unfold apfNavigate, repForce.
  rewrite (repForce_out_of_range drone obstacles origin Hall). cbn [x y origin].
  destruct (attrForce_bounded drone goal) as [Hx Hy].
  assert (Ex : x (attrForce drone goal) + 0 == x (attrForce drone goal)) by ring.
  assert (Ey : y (attrForce drone goal) + 0 == y (attrForce drone goal)) by ring.
  rewrite Ex, Ey. repeat split; try reflexivity; assumption.
Qed.

End RepulsionProperties.

Lemma apfNavigate_no_repulsion_witness :
  let force := apfNavigate (M := refMath) (droneNear 100) (goalBeyond 100) [squareObstacle] in
  x force == x (attrForce (M := refMath) (droneNear 100) (goalBeyond 100)) /\
  y force == y (attrForce (M := refMath) (droneNear 100) (goalBeyond 100)) /\
  Qabs (x force) <= 1 /\ Qabs (y force) <= 1.
Proof.
  apply (apfNavigate_no_repulsion (M := refMath) (droneNear 100) (goalBeyond 100)
                                  [squareObstacle]).
  constructor; [|constructor]. right. vm_compute. discriminate.
Defined.

(** ** The potential field for the display *)

Section DisplayFieldProperties.
Context {M : MathLib} {L : MathLaws M}.

Lemma potential_term_nonneg (acc d : Q) :
  0 <= acc ->
  acc <= (if Qltb d 60 && Qltb 0 d then acc + 500 * ((1 / d - 1 / 60) * (1 / d - 1 / 60))
          else if Qleb d 0 then acc + 10000 else acc) /\
  (d <= 0 ->
   acc + 10000 <= (if Qltb d 60 && Qltb 0 d
                   then acc + 500 * ((1 / d - 1 / 60) * (1 / d - 1 / 60))
                   else if Qleb d 0 then acc + 10000 else acc)).
Proof.
  intros Hacc. destruct (Qltb d 60 && Qltb 0 d) eqn:Hnear.
  - apply andb_true_iff in Hnear. destruct Hnear as [_ Hpos]. apply Qltb_lt in Hpos.
    split; [|intros Hin; lra].
    set (t := 1 / d - 1 / 60). assert (Hsq : 0 <= t * t) by nra. lra.
  - destruct (Qleb d 0) eqn:Hin.
    + split; [lra | intros _; lra].
    + apply Qleb_gt in Hin. split; [lra | intros Hle; lra].
Qed.

Lemma repulsive_bounds (px py : Q) (obstacles : list Obstacle) (acc : Q) :
  0 <= acc ->
  let total :=
    fold_left
      (fun acc obs =>
         let d := hypot (px - centerX obs) (py - centerY obs)
                  - Math_max (Obstacle.width obs) (Obstacle.height obs) / 2 in
         if Qltb d 60 && Qltb 0 d then acc + 500 * ((1 / d - 1 / 60) * (1 / d - 1 / 60))
         else if Qleb d 0 then acc + 10000
         else acc)
      obstacles acc in
  acc <= total /\
  (Exists (fun obs => fieldDistance px py obs <= 0) obstacles -> acc + 10000 <= total).
Proof.
  revert acc. induction obstacles as [|obs rest IH]; intros acc Hacc; cbn [fold_left].
  - split; [lra | intros Hex; inversion Hex].
  - cbv zeta.
    destruct (potential_term_nonneg acc (fieldDistance px py obs) Hacc) as [Hstep Hin].
    unfold fieldDistance in Hstep, Hin.
    match goal with
    | |- context [fold_left ?fn rest ?a] =>
        destruct (IH a ltac:(lra)) as [Hrest Hlater]
    end.
    cbv zeta in Hrest, Hlater. split; [lra|].
    intros Hex. inversion Hex as [? ? Hhere | ? ? Hthere]; subst.
    + specialize (Hin Hhere). lra.
    + specialize (Hlater Hthere). lra.
Qed.

Lemma potentialAt_bounds (goal : Vec2) (obstacles : list Obstacle) (px py : Q) :
  0 <= potentialAt goal obstacles px py /\
  (Exists (fun obs => fieldDistance px py obs <= 0) obstacles ->
   10000 <= potentialAt goal obstacles px py).
Proof.
  unfold potentialAt. cbv zeta.
  pose proof (hypot_nonneg (px - x goal) (py - y goal)) as Hd.
  destruct (repulsive_bounds px py obstacles 0 ltac:(lra)) as [Hrep Hin].
  cbv zeta in Hrep, Hin. split; [lra|]. intros Hex. specialize (Hin Hex). lra.
Qed.

(** X30. The field for the display has one column for each multiple of 10
    below the canvas width and, in each column, one value for each multiple
    of 10 below the canvas height: the potential at that point.  No value is
    negative, and a point within an obstacle's circle has at least 10000. *)
Theorem computePotentialField_shape (goal : Vec2) (obstacles : list Obstacle) (W H : Q) :
  let field := computePotentialField goal obstacles W H in
  length field = Z.to_nat (Math_ceil (W / 10)) /\
  forall i column, nth_error field i = Some column ->
    length column = Z.to_nat (Math_ceil (H / 10)) /\
    forall j v, nth_error column j = Some v ->
      let px := inject_Z (Z.of_nat i) * 10 in
      let py := inject_Z (Z.of_nat j) * 10 in
      v = potentialAt goal obstacles px py /\ 0 <= v /\
      (Exists (fun obs => fieldDistance px py obs <= 0) obstacles -> 10000 <= v).
Proof.
  cbv zeta. unfold computePotentialField, gridLine.
  split; [rewrite !length_map, length_seq; reflexivity|].
  intros i column Hcol. rewrite nth_error_map in Hcol.
  destruct (nth_error _ i) as [px|] eqn:Hpx; [|discriminate Hcol].
  cbn [option_map] in Hcol. injection Hcol as <-.
  rewrite nth_error_map in Hpx.
  destruct (nth_error (seq 0 _) i) as [i'|] eqn:Hi; [|discriminate Hpx].
  cbn [option_map] in Hpx. injection Hpx as <-.
  assert (i' = i) as ->.
  { pose proof (nth_error_nth _ _ 0%nat Hi) as Hn. rewrite seq_nth in Hn; [lia|].
    assert (Hsome : nth_error (seq 0 (Z.to_nat (Math_ceil (W / 10)))) i <> None) by congruence.
    apply nth_error_Some in Hsome. rewrite length_seq in Hsome. exact Hsome. }
  split; [rewrite !length_map, length_seq; reflexivity|].
  intros j v Hv. rewrite nth_error_map in Hv.
  destruct (nth_error _ j) as [py|] eqn:Hpy; [|discriminate Hv].
  cbn [option_map] in Hv. injection Hv as <-.
  rewrite nth_error_map in Hpy.
  destruct (nth_error (seq 0 _) j) as [j'|] eqn:Hj; [|discriminate Hpy].
  cbn [option_map] in Hpy. injection Hpy as <-.
  assert (j' = j) as ->.
  { pose proof (nth_error_nth _ _ 0%nat Hj) as Hn. rewrite seq_nth in Hn; [lia|].
    assert (Hsome : nth_error (seq 0 (Z.to_nat (Math_ceil (H / 10)))) j <> None) by congruence.
    apply nth_error_Some in Hsome. rewrite length_seq in Hsome. exact Hsome. }
  split; [reflexivity | apply potentialAt_bounds].
Qed.

End DisplayFieldProperties.

Lemma computePotentialField_shape_witness :
  let field := computePotentialField (M := refMath) goalAboveContainer [squareObstacle] 30 20 in
  length field = Z.to_nat (Math_ceil (30 / 10)) /\
  forall i column, nth_error field i = Some column ->
    length column = Z.to_nat (Math_ceil (20 / 10)) /\
    forall j v, nth_error column j = Some v ->
      let px := inject_Z (Z.of_nat i) * 10 in
      let py := inject_Z (Z.of_nat j) * 10 in
      v = potentialAt (M := refMath) goalAboveContainer [squareObstacle] px py /\ 0 <= v /\
      (Exists (fun obs => fieldDistance (M := refMath) px py obs <= 0) [squareObstacle] ->
       10000 <= v).
Proof.
  apply (computePotentialField_shape (M := refMath) goalAboveContainer [squareObstacle] 30 20).
Defined.
